(** * Geometry helpers of [segmentation3d/dataloader/image_tools.py]

    A shallow embedding of the partition planner, the resampling front ends,
    the connected-component filters and the additive paste of
    [image_tools.py], together with the properties stated about them.

    Conventions of the embedding.
    - Python [int] is [Z]; [//] and [%] are [Z.div] and [Z.modulo] (both
      round towards minus infinity, as Python does) guarded by the
      [ZeroDivisionError] Python raises on a zero divisor.
    - Python [float] is idealised as an exact rational [Q]: rounding error of
      the binary representation is not modelled.  [int(x)] truncates towards
      zero.
    - A raised exception is the [Raise] branch of [result].
    - A 3-element Python list or tuple is a triple; the 9 direction cosines
      of a 3D image are a triple of rows.
    - The voxel buffer of a SimpleITK image and the numpy array obtained from
      it are the same nested list, indexed [z][y][x] as
      [sitk.GetArrayFromImage] lays it out. *)

From Stdlib Require Import ZArith QArith Qround String List Bool Lia.
Import ListNotations.
Open Scope Z_scope.

(** ** Exceptions and results *)

Inductive exn : Type :=
| ValueError (msg : string)
| IndexError
| ZeroDivisionError
| OverflowError
| RuntimeError.

Inductive result (A : Type) : Type :=
| Ok (a : A)
| Raise (e : exn).

Arguments Ok {A} a.
Arguments Raise {A} e.

Definition bind {A B : Type} (r : result A) (k : A -> result B) : result B :=
  match r with
  | Ok a => k a
  | Raise e => Raise e
  end.

Notation "x <- r ;; k" := (bind r (fun x => k))
  (at level 61, r at next level, right associativity).

(** ** Triples *)

Definition vec3 (A : Type) : Type := (A * A * A)%type.

Definition v3x {A} (v : vec3 A) : A := fst (fst v).
Definition v3y {A} (v : vec3 A) : A := snd (fst v).
Definition v3z {A} (v : vec3 A) : A := snd v.

(** [[f(a[idx], b[idx]) for idx in range(3)]] where [f] may raise. *)
Definition v3zip {A B C} (f : A -> B -> result C) (a : vec3 A) (b : vec3 B)
  : result (vec3 C) :=
  x <- f (v3x a) (v3x b) ;;
  y <- f (v3y a) (v3y b) ;;
  z <- f (v3z a) (v3z b) ;;
  Ok (x, y, z).

Definition v3map {A B} (f : A -> result B) (a : vec3 A) : result (vec3 B) :=
  x <- f (v3x a) ;;
  y <- f (v3y a) ;;
  z <- f (v3z a) ;;
  Ok (x, y, z).

(** ** Python arithmetic *)

(** [int(q)] on a float: truncation towards zero. *)
Definition py_int (q : Q) : Z := Z.quot (Qnum q) (Zpos (Qden q)).

(** [a / b] on floats. *)
Definition py_truediv (a b : Q) : result Q :=
  if Qeq_bool b 0 then Raise ZeroDivisionError else Ok (a / b)%Q.

(** [n % m] and [n // m] on ints. *)
Definition py_mod (n m : Z) : result Z :=
  if m =? 0 then Raise ZeroDivisionError else Ok (n mod m).

Definition py_floordiv (n m : Z) : result Z :=
  if m =? 0 then Raise ZeroDivisionError else Ok (n / m).

(** [int(np.ceil(n / s + 1))] for ints [n] and [s]: the quotient is a true
    division, so the ceiling is [- floor (- n / s)], plus one. *)
Definition py_ceil_div_plus1 (n s : Z) : result Z :=
  if s =? 0 then Raise ZeroDivisionError else Ok (- ((- n) / s) + 1).

(** [range(0, n)]. *)
Definition py_range (n : Z) : list Z := map Z.of_nat (seq 0 (Z.to_nat n)).

(** ** Images *)

Inductive PixelID : Type :=
| sitkInt8 | sitkInt16 | sitkInt32 | sitkInt64
| sitkUInt8 | sitkUInt16 | sitkUInt32 | sitkUInt64
| sitkFloat32 | sitkFloat64.

Definition volume (T : Type) : Type := list (list (list T)).

Record Image (T : Type) : Type := mkImage {
  pixels : volume T;
  spacing : vec3 Q;
  origin : vec3 Q;
  direction : vec3 (vec3 Q);
  pixel_id : PixelID
}.

Arguments mkImage {T} pixels spacing origin direction pixel_id.
Arguments pixels {T} i.
Arguments spacing {T} i.
Arguments origin {T} i.
Arguments direction {T} i.
Arguments pixel_id {T} i.

Definition GetSpacing {T} (image : Image T) : vec3 Q := spacing image.
Definition GetOrigin {T} (image : Image T) : vec3 Q := origin image.
Definition GetDirection {T} (image : Image T) : vec3 (vec3 Q) :=
  direction image.
Definition GetPixelID {T} (image : Image T) : PixelID := pixel_id image.

(** [image.GetSize()]: the extent along x, y and z. *)
Definition vol_size {T} (v : volume T) : vec3 Z :=
  (Z.of_nat (length (hd [] (hd [] v))),
   Z.of_nat (length (hd [] v)),
   Z.of_nat (length v)).

Definition GetSize {T} (image : Image T) : vec3 Z := vol_size (pixels image).

(** ** [image_partition_by_fixed_size] *)

(** [int(p / s + 0.5)]. *)
Definition physical_to_voxel (p s : Q) : result Z :=
  q <- py_truediv p s ;;
  Ok (py_int (q + (1 # 2))%Q).

(** The loop body
    [if box % max_stride: box = max_stride * (box // max_stride + 1)]. *)
Definition round_up_to_stride (max_stride box : Z) : result Z :=
  r <- py_mod box max_stride ;;
  if r =? 0 then Ok box
  else q <- py_floordiv box max_stride ;; Ok (max_stride * (q + 1)).

Definition box_size_of (image_spacing partition_size : vec3 Q) (max_stride : Z)
  : result (vec3 Z) :=
  box_size <- v3zip physical_to_voxel partition_size image_spacing ;;
  v3map (round_up_to_stride max_stride) box_size.

Definition stride_size_of (image_spacing partition_stride : vec3 Q)
  : result (vec3 Z) :=
  v3zip physical_to_voxel partition_stride image_spacing.

Definition num_partitions_of (image_size box_size stride_size : vec3 Z)
  : result (vec3 Z) :=
  nx <- py_ceil_div_plus1 (v3x image_size - v3x box_size) (v3x stride_size) ;;
  ny <- py_ceil_div_plus1 (v3y image_size - v3y box_size) (v3y stride_size) ;;
  nz <- py_ceil_div_plus1 (v3z image_size - v3z box_size) (v3z stride_size) ;;
  Ok (nx, ny, nz).

(** One axis of the innermost loop: the window starts at [start], and is
    shifted inwards when its end passes the image size. *)
Definition clamp_axis (size box start : Z) : Z * Z :=
  let e := start + box in
  if e >? size then (size - box, size) else (start, e).

Definition window (image_size box_size stride_size : vec3 Z) (idx idy idz : Z)
  : vec3 Z * vec3 Z :=
  let wx := clamp_axis (v3x image_size) (v3x box_size) (idx * v3x stride_size) in
  let wy := clamp_axis (v3y image_size) (v3y box_size) (idy * v3y stride_size) in
  let wz := clamp_axis (v3z image_size) (v3z box_size) (idz * v3z stride_size) in
  ((fst wx, fst wy, fst wz), (snd wx, snd wy, snd wz)).

(** The three nested loops, in the order the windows are appended. *)
Definition windows (image_size box_size stride_size num_partitions : vec3 Z)
  : list (vec3 Z * vec3 Z) :=
  flat_map (fun idx =>
    flat_map (fun idy =>
      map (fun idz => window image_size box_size stride_size idx idy idz)
          (py_range (v3z num_partitions)))
      (py_range (v3y num_partitions)))
    (py_range (v3x num_partitions)).

(** The function returns the two parallel lists [start_voxels, end_voxels]. *)
Definition image_partition_by_fixed_size {T} (image : Image T)
    (partition_size partition_stride : vec3 Q) (max_stride : Z)
  : result (list (vec3 Z) * list (vec3 Z)) :=
  let image_size := GetSize image in
  let image_spacing := GetSpacing image in
  box_size <- box_size_of image_spacing partition_size max_stride ;;
  stride_size <- stride_size_of image_spacing partition_stride ;;
  num_partitions <- num_partitions_of image_size box_size stride_size ;;
  let ws := windows image_size box_size stride_size num_partitions in
  Ok (map fst ws, map snd ws).

(** A voxel index lies in the half-open window [[start, end)]. *)
Definition in_window (v : vec3 Z) (w : vec3 Z * vec3 Z) : Prop :=
  v3x (fst w) <= v3x v < v3x (snd w) /\
  v3y (fst w) <= v3y v < v3y (snd w) /\
  v3z (fst w) <= v3z v < v3z (snd w).

(** A voxel index lies in the grid. *)
Definition in_grid (v size : vec3 Z) : Prop :=
  0 <= v3x v < v3x size /\ 0 <= v3y v < v3y size /\ 0 <= v3z v < v3z size.

(** A constant image, used to exhibit concrete inputs. *)
Definition const_volume {T} (nx ny nz : nat) (p : T) : volume T :=
  repeat (repeat (repeat p nx) ny) nz.

Definition unit_frame_image {T} (nx ny nz : nat) (p : T) (id : PixelID)
  : Image T :=
  mkImage (const_volume nx ny nz p) (1, 1, 1)%Q (0, 0, 0)%Q
          ((1, 0, 0), (0, 1, 0), (0, 0, 1))%Q id.

(** The window list returned by the planner covers the voxel index [v]. *)
Definition covers (starts ends : list (vec3 Z)) (v : vec3 Z) : Prop :=
  exists w, In w (combine starts ends) /\ in_window v w.

(** Componentwise comparison and divisibility on triples. *)
Definition v3le (a b : vec3 Z) : Prop :=
  v3x a <= v3x b /\ v3y a <= v3y b /\ v3z a <= v3z b.

Definition v3sub (a b : vec3 Z) : vec3 Z :=
  (v3x a - v3x b, v3y a - v3y b, v3z a - v3z b).

Definition v3divides (m : Z) (a : vec3 Z) : Prop :=
  (m | v3x a) /\ (m | v3y a) /\ (m | v3z a).

(** A small grid on which the planner yields three windows per axis. *)
Definition demo_image : Image Z := unit_frame_image 8 8 8 0 sitkInt16.
Definition demo_size : vec3 Q := (32 # 10, 32 # 10, 32 # 10)%Q.
Definition demo_windows : list (vec3 Z * vec3 Z) :=
  windows (8, 8, 8) (4, 4, 4) (3, 3, 3) (3, 3, 3).

(** A one-row grid of ten voxels whose stride (4 voxels) exceeds the tile
    extent (2 voxels). *)
Definition gap_image : Image Z := unit_frame_image 10 1 1 0 sitkInt16.
Definition gap_size : vec3 Q := (2, 1, 1)%Q.
Definition gap_stride : vec3 Q := (4, 1, 1)%Q.

Definition v3positive_Q (a : vec3 Q) : Prop :=
  (0 < v3x a)%Q /\ (0 < v3y a)%Q /\ (0 < v3z a)%Q.

(** The scenario of a 100 x 100 x 100 grid with tiles of 51.2 mm. *)
Definition scenario_size : vec3 Q := (512 # 10, 512 # 10, 512 # 10)%Q.
Definition scenario_image : Image Z := unit_frame_image 100 100 100 0 sitkInt16.

(** ** Voxel buffers *)

(** [[f(i, a) for i, a in enumerate(l, start)]]. *)
Fixpoint imap_from {A B} (i : Z) (f : Z -> A -> B) (l : list A) : list B :=
  match l with
  | [] => []
  | a :: l' => f i a :: imap_from (i + 1) f l'
  end.

(** A voxel-wise map which also sees the voxel index [(x, y, z)]. *)
Definition vol_imap {A B} (f : vec3 Z -> A -> B) (v : volume A) : volume B :=
  imap_from 0 (fun z plane =>
    imap_from 0 (fun y row =>
      imap_from 0 (fun x p => f (x, y, z) p) row) plane) v.

Definition nth_Z {A} (l : list A) (i : Z) : option A :=
  if i <? 0 then None else nth_error l (Z.to_nat i).

(** The voxel of index [(x, y, z)], [None] outside the buffer. *)
Definition vol_get {A} (v : volume A) (c : vec3 Z) : option A :=
  match nth_Z v (v3z c) with
  | Some plane =>
      match nth_Z plane (v3y c) with
      | Some row => nth_Z row (v3x c)
      | None => None
      end
  | None => None
  end.

Definition GetPixel {T} (image : Image T) (c : vec3 Z) : option T :=
  vol_get (pixels image) c.

(** A buffer of the given extent filled from a function of the index. *)
Definition vol_tabulate {A} (size : vec3 Z) (f : vec3 Z -> A) : volume A :=
  map (fun z => map (fun y => map (fun x => f (x, y, z))
                                  (py_range (v3x size)))
                    (py_range (v3y size)))
      (py_range (v3z size)).

(** Every plane and every row has the extent [vol_size] reports, as in any
    SimpleITK image or numpy array. *)
Definition rectangular {A} (v : volume A) : Prop :=
  Forall (fun plane =>
            Z.of_nat (length plane) = v3y (vol_size v) /\
            Forall (fun row => Z.of_nat (length row) = v3x (vol_size v)) plane)
         v.

Definition rectangularb {A} (v : volume A) : bool :=
  forallb (fun plane =>
             (Z.of_nat (length plane) =? v3y (vol_size v)) &&
             forallb (fun row => Z.of_nat (length row) =? v3x (vol_size v))
                     plane)
          v.

(** ** [add_image_value] *)

Section Paste.

(** The pixel type of the buffer and the [+] of its numpy dtype. *)
Variable T : Type.
Variable padd : T -> T -> T.

(** The right-hand side of [+=]: a scalar, or a 3D array which numpy
    broadcasts against the slice.  Its elements are given in the pixel type
    of the buffer. *)
Inductive operand : Type :=
| Scalar (s : T)
| Array (a : volume T).

(** A slice bound [i] on an axis of length [n]: negative bounds count from
    the end, and all bounds are clipped to [[0, n]]. *)
Definition py_slice_index (n i : Z) : Z :=
  if i <? 0 then Z.max (i + n) 0 else Z.min i n.

Definition slice_lo (shape start : vec3 Z) : vec3 Z :=
  (py_slice_index (v3x shape) (v3x start),
   py_slice_index (v3y shape) (v3y start),
   py_slice_index (v3z shape) (v3z start)).

Definition in_slice (lo hi c : vec3 Z) : bool :=
  (v3x lo <=? v3x c) && (v3x c <? v3x hi) &&
  (v3y lo <=? v3y c) && (v3y c <? v3y hi) &&
  (v3z lo <=? v3z c) && (v3z c <? v3z hi).

(** The shape of the slice [[lo, hi)]. *)
Definition slice_shape (lo hi : vec3 Z) : vec3 Z :=
  (Z.max 0 (v3x hi - v3x lo), Z.max 0 (v3y hi - v3y lo),
   Z.max 0 (v3z hi - v3z lo)).

(** numpy broadcasts an operand axis onto the slice axis when both have
    the same extent or the operand's extent is 1. *)
Definition broadcast_axis (op sl : Z) : bool := (op =? sl) || (op =? 1).

Definition broadcastable (op sl : vec3 Z) : bool :=
  broadcast_axis (v3x op) (v3x sl) && broadcast_axis (v3y op) (v3y sl) &&
  broadcast_axis (v3z op) (v3z sl).

Definition broadcast_index (op i : Z) : Z := if op =? 1 then 0 else i.

(** The operand element added to the voxel [c] of the slice starting at
    [lo]. *)
Definition operand_at (value : operand) (lo c : vec3 Z) : option T :=
  match value with
  | Scalar s => Some s
  | Array a =>
      let op := vol_size a in
      vol_get a (broadcast_index (v3x op) (v3x c - v3x lo),
                 broadcast_index (v3y op) (v3y c - v3y lo),
                 broadcast_index (v3z op) (v3z c - v3z lo))
  end.

(** [image_npy[z0:z1, y0:y1, x0:x1] += value], for an operand whose dtype
    numpy casts to that of the buffer.  The refusal of an operand of another
    kind (a negative int on an unsigned buffer, a float on an integer one)
    precedes the addition and is not part of this function: the properties
    below speak of the pastes that return, and of a refusal by shape. *)
Definition iadd_slice (image_npy : volume T) (start stop : vec3 Z)
    (value : operand) : result (volume T) :=
  let shape := vol_size image_npy in
  let lo := slice_lo shape start in
  let hi := slice_lo shape stop in
  let compatible :=
    match value with
    | Scalar _ => true
    | Array a =>
        rectangularb a && broadcastable (vol_size a) (slice_shape lo hi)
    end in
  if compatible then
    Ok (vol_imap (fun c p =>
                    if in_slice lo hi c then
                      match operand_at value lo c with
                      | Some s => padd p s
                      | None => p
                      end
                    else p) image_npy)
  else Raise (ValueError "operands could not be broadcast together").

Definition GetArrayFromImage (image : Image T) : volume T := pixels image.

(** A fresh image over the array, with the default frame. *)
Definition GetImageFromArray (arr : volume T) (id : PixelID) : Image T :=
  mkImage arr (1, 1, 1)%Q (0, 0, 0)%Q
          ((1, 0, 0), (0, 1, 0), (0, 0, 1))%Q id.

Definition v3eqb (a b : vec3 Z) : bool :=
  (v3x a =? v3x b) && (v3y a =? v3y b) && (v3z a =? v3z b).

(** [image.CopyInformation(src)]: takes origin, spacing and direction of
    [src]; SimpleITK refuses a source of another size. *)
Definition CopyInformation (image src : Image T) : result (Image T) :=
  if v3eqb (GetSize image) (GetSize src) then
    Ok (mkImage (pixels image) (spacing src) (origin src) (direction src)
                (pixel_id image))
  else Raise RuntimeError.

(** [start_voxel] and [end_voxel] hold ints, as the planner returns them,
    so [int(...)] leaves them as they are. *)
Definition add_image_value (image : Image T) (start_voxel end_voxel : vec3 Z)
    (value : operand) : result (Image T) :=
  let image_npy := GetArrayFromImage image in
  image_npy' <- iadd_slice image_npy
                  start_voxel end_voxel value ;;
  let added_image := GetImageFromArray image_npy' (GetPixelID image) in
  CopyInformation added_image image.

End Paste.

Arguments Scalar {T} s.
Arguments Array {T} a.
Arguments operand_at {T} value lo c.
Arguments iadd_slice {T} padd image_npy start stop value.
Arguments GetArrayFromImage {T} image.
Arguments GetImageFromArray {T} arr id.
Arguments CopyInformation {T} image src.
Arguments add_image_value {T} padd image start_voxel end_voxel value.

(** A 4 x 1 x 1 buffer of integer scores and two overlapping windows. *)
Definition paste_image : Image Z :=
  mkImage [[[10; 20; 30; 40]]] (1, 1, 1)%Q (0, 0, 0)%Q
          ((1, 0, 0), (0, 1, 0), (0, 0, 1))%Q sitkInt32.
Definition paste_once : Image Z :=
  mkImage [[[15; 25; 35; 40]]] (1, 1, 1)%Q (0, 0, 0)%Q
          ((1, 0, 0), (0, 1, 0), (0, 0, 1))%Q sitkInt32.
Definition paste_twice : Image Z :=
  mkImage [[[15; 32; 42; 47]]] (1, 1, 1)%Q (0, 0, 0)%Q
          ((1, 0, 0), (0, 1, 0), (0, 0, 1))%Q sitkInt32.

(** ** Resampling and cropping *)

Inductive interpolator : Type :=
| sitkLinear
| sitkNearestNeighbor.

(** The branch
    [if interp_method == 'LINEAR': ... elif interp_method == 'NN': ... else: raise ValueError(...)]
    shared by [crop_image], [resample] and [resample_spacing]. *)
Definition select_interpolator (interp_method : string) : result interpolator :=
  if String.eqb interp_method "LINEAR" then Ok sitkLinear
  else if String.eqb interp_method "NN" then Ok sitkNearestNeighbor
  else Raise (ValueError "Unsupported interpolation type.").

(** The physical point of a voxel index in a frame: the origin plus the
    direction applied to the index scaled by the spacing. *)
Definition v3dot (a b : vec3 Q) : Q :=
  (v3x a * v3x b + v3y a * v3y b + v3z a * v3z b)%Q.

Definition index_to_physical (org sp : vec3 Q) (dir : vec3 (vec3 Q))
    (c : vec3 Z) : vec3 Q :=
  let s := (inject_Z (v3x c) * v3x sp, inject_Z (v3y c) * v3y sp,
            inject_Z (v3z c) * v3z sp)%Q in
  (v3x org + v3dot (v3x dir) s, v3y org + v3dot (v3y dir) s,
   v3z org + v3dot (v3z dir) s)%Q.

Section Resample.

Variable T : Type.

(** The value SimpleITK's interpolator gives the input image at a physical
    point; the kernels themselves belong to the library. *)
Variable interpolate : interpolator -> Image T -> vec3 Q -> T.

(** [sitk.Resample(image, size, identity, interp, origin, spacing,
    direction)] for a size of unsigned ints and a positive spacing, which
    SimpleITK requires: the output grid has the requested frame, and every
    output voxel samples the input at its own physical point. *)
Definition sitk_Resample (image : Image T) (size : vec3 Z)
    (interp : interpolator) (out_origin out_spacing : vec3 Q)
    (out_direction : vec3 (vec3 Q)) : Image T :=
  mkImage
    (vol_tabulate size (fun c =>
       interpolate interp image
         (index_to_physical out_origin out_spacing out_direction c)))
    out_spacing out_origin out_direction (GetPixelID image).

Definition crop_image (image : Image T) (cropping_center : vec3 Q)
    (cropping_size : vec3 Z) (cropping_spacing : vec3 Q)
    (interp_method : string) : result (Image T) :=
  let cropping_physical_size :=
    (inject_Z (v3x cropping_size) * v3x cropping_spacing,
     inject_Z (v3y cropping_size) * v3y cropping_spacing,
     inject_Z (v3z cropping_size) * v3z cropping_spacing)%Q in
  let cropping_start_point_world :=
    (v3x cropping_center - v3x cropping_physical_size / 2,
     v3y cropping_center - v3y cropping_physical_size / 2,
     v3z cropping_center - v3z cropping_physical_size / 2)%Q in
  let cropping_origin := cropping_start_point_world in
  let cropping_direction := GetDirection image in
  interp <- select_interpolator interp_method ;;
  Ok (sitk_Resample image cropping_size interp cropping_origin
        cropping_spacing cropping_direction).

(** [sitk.Resample(image, reference, identity, interp)]: the output lies
    on the grid of [reference]. *)
Definition resample (image reference : Image T) (interp_method : string)
  : result (Image T) :=
  interp <- select_interpolator interp_method ;;
  Ok (sitk_Resample image (GetSize reference) interp (GetOrigin reference)
        (GetSpacing reference) (GetDirection reference)).

(** [int(in_size * in_spacing / out_spacing + 0.5)]. *)
Definition resampled_extent (in_size : Z) (in_spacing out_spacing : Q)
  : result Z :=
  q <- py_truediv (inject_Z in_size * in_spacing)%Q out_spacing ;;
  Ok (py_int (q + (1 # 2))%Q).

Definition resample_out_size (image : Image T) (out_spacing : vec3 Q)
    (max_stride : Z) : result (vec3 Z) :=
  let in_spacing := GetSpacing image in
  let in_size := GetSize image in
  x <- resampled_extent (v3x in_size) (v3x in_spacing) (v3x out_spacing) ;;
  y <- resampled_extent (v3y in_size) (v3y in_spacing) (v3y out_spacing) ;;
  z <- resampled_extent (v3z in_size) (v3z in_spacing) (v3z out_spacing) ;;
  v3map (round_up_to_stride max_stride) (x, y, z).

Definition resample_spacing (image : Image T) (resampled_spacing : vec3 Q)
    (max_stride : Z) (interp_method : string) : result (Image T) :=
  let in_origin := GetOrigin image in
  let in_direction := GetDirection image in
  let out_spacing := resampled_spacing in
  out_size <- resample_out_size image out_spacing max_stride ;;
  interp <- select_interpolator interp_method ;;
  Ok (sitk_Resample image out_size interp in_origin resampled_spacing
        in_direction).

End Resample.

Arguments sitk_Resample {T} interpolate image size interp out_origin
  out_spacing out_direction.
Arguments crop_image {T} interpolate image cropping_center cropping_size
  cropping_spacing interp_method.
Arguments resample {T} interpolate image reference interp_method.
Arguments resample_out_size {T} image out_spacing max_stride.
Arguments resample_spacing {T} interpolate image resampled_spacing max_stride
  interp_method.

(** The error taxonomy of the specification, and the Python exception each
    designated error is raised as.  Any other exception is incidental. *)
Inductive designated_error : Type :=
| InvalidGeometry
| UnsupportedInterpolation
| EmptyLabelSet
| UncoveredVoxel.

Definition designates (e : exn) : option designated_error :=
  match e with
  | ValueError msg =>
      if String.eqb msg "Unsupported interpolation type."
      then Some UnsupportedInterpolation else None
  | _ => None
  end.

(** A call fails with the designated error [d]. *)
Definition fails_with {A} (r : result A) (d : designated_error) : Prop :=
  exists e, r = Raise e /\ designates e = Some d.

(** The enumerated interpolation modes. *)
Definition supported_mode (interp_method : string) : Prop :=
  interp_method = "NN"%string \/ interp_method = "LINEAR"%string.

(** An interpolation kernel and a 4 x 4 x 4 grid of 1 mm spacing, used to
    exhibit concrete resampling calls. *)
Definition demo_interpolate (interp : interpolator) (image : Image Z)
    (point : vec3 Q) : Z :=
  match GetPixel image (py_int (v3x point + (1 # 2)),
                        py_int (v3y point + (1 # 2)),
                        py_int (v3z point + (1 # 2)))%Q with
  | Some p => p
  | None => 0
  end.

Definition resample_image : Image Z := unit_frame_image 4 4 4 7 sitkInt16.
Definition resample_target : vec3 Q := (2, 2, 2)%Q.

(** ** Pixel types and voxel-wise filters *)

Definition wrap_unsigned (w z : Z) : Z := z mod 2 ^ w.

Definition wrap_signed (w z : Z) : Z :=
  (z + 2 ^ (w - 1)) mod 2 ^ w - 2 ^ (w - 1).

(** An integer stored in a pixel of the given type: integer types keep the
    low bits, floating types hold label values exactly. *)
Definition cast_pixel (id : PixelID) (z : Z) : Z :=
  match id with
  | sitkInt8 => wrap_signed 8 z
  | sitkInt16 => wrap_signed 16 z
  | sitkInt32 => wrap_signed 32 z
  | sitkInt64 => wrap_signed 64 z
  | sitkUInt8 => wrap_unsigned 8 z
  | sitkUInt16 => wrap_unsigned 16 z
  | sitkUInt32 => wrap_unsigned 32 z
  | sitkUInt64 => wrap_unsigned 64 z
  | sitkFloat32 | sitkFloat64 => z
  end.

(** A voxel-wise filter: same frame, the given output pixel type. *)
Definition pixelwise (f : Z -> Z) (id : PixelID) (image : Image Z) : Image Z :=
  mkImage (vol_imap (fun _ p => f p) (pixels image))
          (spacing image) (origin image) (direction image) id.

(** The comparison filters of ITK against a constant of the pixel type of
    the image: masks of 0 and 1 in [sitkUInt8]. *)
Definition itk_Equal (image : Image Z) (c : Z) : Image Z :=
  pixelwise (fun p => if p =? c then 1 else 0) sitkUInt8 image.

Definition itk_Greater (image : Image Z) (c : Z) : Image Z :=
  pixelwise (fun p => if p >? c then 1 else 0) sitkUInt8 image.

(** [image == c] and [image > c] from Python: SimpleITK casts the constant
    to the pixel type of the image before it compares, so that on a
    [sitkInt8] image the constant 200 is compared as -56. *)
Definition sitk_Equal (image : Image Z) (c : Z) : Image Z :=
  itk_Equal image (cast_pixel (GetPixelID image) c).

Definition sitk_Greater (image : Image Z) (c : Z) : Image Z :=
  itk_Greater image (cast_pixel (GetPixelID image) c).

(** [c * image], in the pixel type of [image]. *)
Definition sitk_MultiplyConstant (c : Z) (image : Image Z) : Image Z :=
  pixelwise (fun p => cast_pixel (GetPixelID image) (c * p))
            (GetPixelID image) image.

(** [sitk.Add(a, b)], in the pixel type of [a]; the two images have the same
    size wherever this file calls it. *)
Definition sitk_Add (a b : Image Z) : Image Z :=
  mkImage (vol_imap (fun c p =>
                       match GetPixel b c with
                       | Some q => cast_pixel (GetPixelID a) (p + q)
                       | None => p
                       end) (pixels a))
          (spacing a) (origin a) (direction a) (GetPixelID a).

Definition sitk_Cast (image : Image Z) (id : PixelID) : Image Z :=
  pixelwise (cast_pixel id) id image.

(** ** Connected components *)

(** The 3 x 3 x 3 neighbourhood of full connectivity (the centre included). *)
Definition offsets26 : list (vec3 Z) :=
  flat_map (fun dz =>
    flat_map (fun dy => map (fun dx => (dx, dy, dz)) [-1; 0; 1]) [-1; 0; 1])
    [-1; 0; 1].

Definition v3add (a b : vec3 Z) : vec3 Z :=
  (v3x a + v3x b, v3y a + v3y b, v3z a + v3z b).

(** One more than the position of a voxel in raster order. *)
Definition raster_id (size c : vec3 Z) : Z :=
  1 + v3x c + v3x size * (v3y c + v3y size * v3z c).

(** Every foreground voxel starts as its own object. *)
Definition seed_labels (b : volume Z) : volume Z :=
  vol_imap (fun c p => if p =? 0 then 0 else raster_id (vol_size b) c) b.

(** The least label among a voxel and its labelled neighbours. *)
Definition neighbour_min (L : volume Z) (c : vec3 Z) (l : Z) : Z :=
  fold_left (fun acc d =>
               match vol_get L (v3add c d) with
               | Some q => if q =? 0 then acc else Z.min acc q
               | None => acc
               end) offsets26 l.

Definition propagate_step (L : volume Z) : volume Z :=
  vol_imap (fun c l => if l =? 0 then 0 else neighbour_min L c l) L.

Definition vol_eq_dec (a b : volume Z) : {a = b} + {a <> b} :=
  list_eq_dec (list_eq_dec (list_eq_dec Z.eq_dec)) a b.

(** Labels are merged until nothing changes. *)
Fixpoint propagate (fuel : nat) (L : volume Z) : volume Z :=
  match fuel with
  | O => L
  | S fuel' =>
      let L' := propagate_step L in
      if vol_eq_dec L' L then L else propagate fuel' L'
  end.

Definition vol_flatten (v : volume Z) : list Z := concat (concat v).

Definition list_sum (l : list Z) : Z := fold_right Z.add 0 l.

Definition vol_sum (v : volume Z) : Z := list_sum (vol_flatten v).

(** Every object carries the raster id of its first voxel. *)
Definition component_labels (b : volume Z) : volume Z :=
  let L0 := seed_labels b in
  propagate (S (Z.to_nat (vol_sum L0))) L0.

(** The labels present in a label volume, in increasing order. *)
Fixpoint insert_sorted (x : Z) (l : list Z) : list Z :=
  match l with
  | [] => [x]
  | y :: l' =>
      if x <? y then x :: l
      else if x =? y then l
      else y :: insert_sorted x l'
  end.

Definition label_set (L : volume Z) : list Z :=
  fold_right insert_sorted []
             (filter (fun l => negb (l =? 0)) (vol_flatten L)).

Fixpoint index_of (x : Z) (l : list Z) : option Z :=
  match l with
  | [] => None
  | y :: l' => if x =? y then Some 0 else option_map Z.succ (index_of x l')
  end.

(** The label a list of objects gives a pixel: its 1-based rank, or 0. *)
Definition rank_in (objects : list Z) (l : Z) : Z :=
  match index_of l objects with
  | Some i => 1 + i
  | None => 0
  end.

(** [sitk.ConnectedComponentImageFilter] with [SetFullyConnected(True)]:
    non-zero voxels are foreground; objects are numbered 1, 2, ... in the
    raster order of their first voxel; the output is [sitkUInt32]. *)
Definition ConnectedComponent (image : Image Z) : Image Z :=
  let L := component_labels (pixels image) in
  pixelwise (rank_in (label_set L)) sitkUInt32
            (mkImage L (spacing image) (origin image) (direction image)
                     sitkUInt32).

Definition object_size (L : volume Z) (l : Z) : Z :=
  Z.of_nat (count_occ Z.eq_dec (vol_flatten L) l).

(** The order in which [RelabelComponent] sorts objects: larger first, and
    among objects of one size the lower original label first. *)
Definition object_before (L : volume Z) (a b : Z) : bool :=
  (object_size L a >? object_size L b) ||
  ((object_size L a =? object_size L b) && (a <? b)).

Fixpoint insert_object (L : volume Z) (a : Z) (l : list Z) : list Z :=
  match l with
  | [] => [a]
  | b :: l' =>
      if object_before L a b then a :: l else b :: insert_object L a l'
  end.

Definition objects_by_size (L : volume Z) : list Z :=
  fold_right (insert_object L) [] (label_set L).

(** [itk::RelabelComponentImageFilter]: objects are renumbered 1, 2, ... by
    decreasing size, and objects of fewer than [minimumObjectSize] voxels
    are removed. *)
Definition sitk_RelabelComponent (image : Image Z) (minimumObjectSize : Z)
  : Image Z :=
  let L := pixels image in
  let kept := filter (fun l => minimumObjectSize <=? object_size L l)
                     (objects_by_size L) in
  pixelwise (rank_in kept) (GetPixelID image) image.

(** [sitk.RelabelComponent(image, minimumObjectSize)] from Python: the
    binding takes [minimumObjectSize] as an unsigned 64-bit integer and
    rejects an int below 0 or from [2 ^ 64] on. *)
Definition RelabelComponent (image : Image Z) (minimumObjectSize : Z)
  : result (Image Z) :=
  if (minimumObjectSize <? 0) || (2 ^ 64 <=? minimumObjectSize)
  then Raise OverflowError
  else Ok (sitk_RelabelComponent image minimumObjectSize).

Fixpoint map_result {A B} (f : A -> result B) (l : list A) : result (list B) :=
  match l with
  | [] => Ok []
  | a :: l' =>
      b <- f a ;;
      bs <- map_result f l' ;;
      Ok (b :: bs)
  end.

(** [largest_cc_multi = largest_cc_binaries[0]] followed by the loop
    [for idx in range(1, len(labels)):
       largest_cc_multi = sitk.Add(largest_cc_multi,
                                   labels[idx] * largest_cc_binaries[idx])]. *)
Definition recombine (labels : list Z) (largest_cc_binaries : list (Image Z))
  : result (Image Z) :=
  match largest_cc_binaries with
  | [] => Raise IndexError
  | first :: _ =>
      Ok (fold_left
            (fun largest_cc_multi lb =>
               sitk_Add largest_cc_multi
                        (sitk_MultiplyConstant (fst lb) (snd lb)))
            (tl (combine labels largest_cc_binaries)) first)
  end.

Definition pick_largest_connected_component (mask : Image Z) (labels : list Z)
  : result (Image Z) :=
  largest_cc_binaries <-
    map_result (fun label =>
      let mask_binary := sitk_Equal mask label in
      let mask_binary_cc := ConnectedComponent mask_binary in
      mask_binary_cc <- RelabelComponent mask_binary_cc 0 ;;
      let mask_binary_largest_cc := sitk_Equal mask_binary_cc 1 in
      Ok mask_binary_largest_cc) labels ;;
  largest_cc_multi <- recombine labels largest_cc_binaries ;;
  Ok (sitk_Cast largest_cc_multi (GetPixelID mask)).

Definition remove_small_connected_component (mask : Image Z) (labels : list Z)
    (threshold : Z) : result (Image Z) :=
  largest_cc_binaries <-
    map_result (fun label =>
      let mask_binary := sitk_Equal mask label in
      let mask_binary_cc := ConnectedComponent mask_binary in
      mask_binary_cc <- RelabelComponent mask_binary_cc threshold ;;
      let mask_binary_largest_cc := sitk_Greater mask_binary_cc 0 in
      Ok mask_binary_largest_cc) labels ;;
  largest_cc_multi <- recombine labels largest_cc_binaries ;;
  Ok (sitk_Cast largest_cc_multi (GetPixelID mask)).

(** Label volumes on which the filters are evaluated. *)
Definition label_image (v : volume Z) : Image Z :=
  mkImage v (1, 1, 1)%Q (0, 0, 0)%Q ((1, 0, 0), (0, 1, 0), (0, 0, 1))%Q
          sitkInt8.

(** The label of a voxel, background outside the buffer. *)
Definition label_at (L : volume Z) (c : vec3 Z) : Z :=
  match vol_get L c with
  | Some l => l
  | None => 0
  end.

(** ** Full connectivity, as a relation *)

Definition adjacent26 (u v : vec3 Z) : Prop :=
  Z.abs (v3x u - v3x v) <= 1 /\ Z.abs (v3y u - v3y v) <= 1 /\
  Z.abs (v3z u - v3z v) <= 1.

Definition foreground (b : volume Z) (c : vec3 Z) : Prop :=
  exists p, vol_get b c = Some p /\ p <> 0.

(** [u] and [w] are joined by a chain of foreground voxels, each in the
    3 x 3 x 3 neighbourhood of the previous one. *)
Inductive connected26 (b : volume Z) : vec3 Z -> vec3 Z -> Prop :=
| connected26_refl u : foreground b u -> connected26 b u u
| connected26_step u v w :
    connected26 b u v -> foreground b w -> adjacent26 v w ->
    connected26 b u w.

(** Connectivity through the voxels whose value is the label [l]. *)
Definition label_connected (mask : Image Z) (l : Z) : vec3 Z -> vec3 Z -> Prop :=
  connected26 (pixels (itk_Equal mask l)).

(** The mask the largest-component filter builds for a label which is a
    value of the pixel type of the mask. *)
Definition largest_cc_binary (mask : Image Z) (label : Z) : Image Z :=
  itk_Equal
    (sitk_RelabelComponent (ConnectedComponent (itk_Equal mask label)) 0) 1.

(** The mask the minimum-size filter builds for such a label. *)
Definition kept_cc_binary (mask : Image Z) (threshold label : Z) : Image Z :=
  itk_Greater
    (sitk_RelabelComponent (ConnectedComponent (itk_Equal mask label))
       threshold) 0.

(** A label is a value of the pixel type of the mask: the cast leaves it as
    it is. *)
Definition pixel_value (mask : Image Z) (l : Z) : Prop :=
  cast_pixel (GetPixelID mask) l = l.

(** A label fits the pixel type of the mask and the [sitkUInt8] masks. *)
Definition representable (mask : Image Z) (l : Z) : Prop :=
  0 <= l <= 255 /\ cast_pixel (GetPixelID mask) l = l.

(** The voxels of a buffer in raster order, each with its index. *)
Definition vol_enum {A} (v : volume A) : list (vec3 Z * A) :=
  concat (concat (vol_imap (fun c p => (c, p)) v)).

(** The voxels carrying a given label, in raster order. *)
Definition voxels_of (L : volume Z) (l : Z) : list (vec3 Z) :=
  map fst (filter (fun cp => snd cp =? l) (vol_enum L)).

(** What label propagation maintains: the labels cover the buffer of the
    binary image, background stays 0, and the label of a foreground voxel is
    the raster id of a voxel connected to it. *)
Definition labelling_inv (b L : volume Z) : Prop :=
  (forall c, vol_get L c = None <-> vol_get b c = None) /\
  forall c l, vol_get L c = Some l ->
    (l = 0 -> vol_get b c = Some 0) /\
    (l <> 0 ->
     0 < l /\ exists u, connected26 b u c /\ raster_id (vol_size b) u = l).

(** The voxels of the first object the relabelling lists, i.e. those which
    [RelabelComponent] numbers 1. *)
Definition largest_component (B : Image Z) : list (vec3 Z) :=
  match hd_error (objects_by_size (pixels (ConnectedComponent B))) with
  | Some h => voxels_of (pixels (ConnectedComponent B)) h
  | None => []
  end.

(** The value at a voxel of the masks built for one label. *)
Definition largest_bit (mask : Image Z) (l : Z) (c : vec3 Z) : Z :=
  if label_at
       (pixels (sitk_RelabelComponent
                  (ConnectedComponent (itk_Equal mask l)) 0)) c =? 1
  then 1 else 0.

Definition kept_bit (mask : Image Z) (threshold l : Z) (c : vec3 Z) : Z :=
  if label_at
       (pixels (sitk_RelabelComponent
                  (ConnectedComponent (itk_Equal mask l)) threshold)) c >? 0
  then 1 else 0.

(** A row of two voxels labelled 1 and 2. *)
Definition two_label_mask : Image Z := label_image [[[1; 2]]].

(** A 6 x 3 x 1 volume: label 1 has components of 2, 1 and 3 voxels, label 2
    one component of 4 voxels, label 3 a single voxel. *)
Definition multi_label_mask : Image Z :=
  label_image [[[1; 1; 0; 1; 2; 2];
                [0; 0; 0; 0; 0; 2];
                [3; 0; 1; 1; 1; 2]]].

(** The three components of a triple of rationals are non-zero. *)
Definition v3nonzero_Q (a : vec3 Q) : Prop :=
  ~ (v3x a == 0)%Q /\ ~ (v3y a == 0)%Q /\ ~ (v3z a == 0)%Q.

Definition v3nonzero (a : vec3 Z) : Prop :=
  v3x a <> 0 /\ v3y a <> 0 /\ v3z a <> 0.

(** A grid of 8 x 8 x 8 voxels cut into tiles of 4 voxels. *)
Definition tiling_size : vec3 Q := (4, 4, 4)%Q.

(** A grid of 4 x 4 x 4 voxels and a tile of 6 mm, which exceeds it. *)
Definition oversize_tile : vec3 Q := (6, 6, 6)%Q.

(** The voxels which [ConnectedComponent] puts in the object of the voxel
    [c] of label [l]. *)
Definition component_of (mask : Image Z) (l : Z) (c : vec3 Z)
  : list (vec3 Z) :=
  let CC := pixels (ConnectedComponent (itk_Equal mask l)) in
  voxels_of CC (label_at CC c).

(** ** Random voxel selection *)

Definition v3rev {A} (c : vec3 A) : vec3 A := (v3z c, v3y c, v3x c).

(** [np.argwhere(a == l)]: the indices [[z, y, x]] of the voxels of [a] that
    equal [l], in raster order. *)
Definition np_argwhere_eq (a : volume Z) (l : Z) : list (vec3 Z) :=
  map v3rev (voxels_of a l).

(** [a[i]] on the first axis of an array: a negative index counts from the
    end, an index outside the array raises [IndexError]. *)
Definition np_getitem {A} (a : list A) (i : Z) : result A :=
  match nth_Z a (if i <? 0 then i + Z.of_nat (length a) else i) with
  | Some v => Ok v
  | None => Raise IndexError
  end.

Section RandomSelection.

(** The generator behind [np.random]: a state [G], and the draw of an
    integer between two bounds, which returns the next state. *)
Variable G : Type.
Variable randint : G -> Z -> Z -> Z * G.

(** [np.random.randint(low, high)], which refuses an empty range. *)
Definition np_random_randint (g : G) (low high : Z) : result (Z * G) :=
  if low <? high then Ok (randint g low high)
  else Raise (ValueError "low >= high").

(** The [while] loop of the selection; [None] when the fuel runs out before
    the loop condition fails. *)
Fixpoint select_loop (fuel : nat) (valid_voxels : list (vec3 Z))
    (num_selected : Z) (selected_voxels : list (vec3 Z)) (g : G)
  : option (result (list (vec3 Z) * G)) :=
  match fuel with
  | O => None
  | S fuel' =>
      if (0 <? Z.of_nat (length valid_voxels)) &&
         (Z.of_nat (length selected_voxels) <? num_selected)
      then
        match np_random_randint g 0 (Z.of_nat (length valid_voxels)) with
        | Raise e => Some (Raise e)
        | Ok (selected_index, g') =>
            match np_getitem valid_voxels selected_index with
            | Raise e => Some (Raise e)
            | Ok selected_voxel =>
                select_loop fuel' valid_voxels num_selected
                  (selected_voxels ++ [v3rev selected_voxel]) g'
            end
        end
      else Some (Ok (selected_voxels, g))
  end.

(** The selected voxels as [(x, y, z)] indices, with the generator's state
    after the draws.  The loop appends one voxel per round, so
    [num_selected] rounds and the closing test are all it can take. *)
Definition select_random_voxels_in_multi_class_mask
    (mask : Image Z) (num_selected selected_label : Z) (g : G)
  : option (result (list (vec3 Z) * G)) :=
  let mask_npy := GetArrayFromImage mask in
  let valid_voxels := np_argwhere_eq mask_npy selected_label in
  select_loop (S (Z.to_nat num_selected)) valid_voxels num_selected [] g.

End RandomSelection.

Arguments np_random_randint {G} randint g low high.
Arguments select_loop {G} randint fuel valid_voxels num_selected
  selected_voxels g.
Arguments select_random_voxels_in_multi_class_mask {G} randint mask
  num_selected selected_label g.

(** A generator that counts its draws: the state is the number of draws made
    so far, and a draw is that number reduced into the range. *)
Definition counting_randint (g low high : Z) : Z * Z :=
  (low + g mod (high - low), g + 1).

(** The buffer [paste_image] after 5 is added over the window that starts
    one voxel before the end of the x axis. *)
Definition paste_wrapped : Image Z :=
  mkImage [[[10; 20; 30; 45]]] (1, 1, 1)%Q (0, 0, 0)%Q
          ((1, 0, 0), (0, 1, 0), (0, 0, 1))%Q sitkInt32.

(** On an axis of [n] voxels the window [[s, e)], of more than one voxel,
    passes the far end of the axis or starts below 0. *)
Definition sticks_out (n s e : Z) : Prop :=
  1 < e - s /\ ((0 <= s /\ n < e) \/ (s < 0 /\ 0 <= e /\ 0 < n)).

(** A tile of 6 x 6 x 6 scores. *)
Definition oversize_scores : volume Z := const_volume 6 6 6 1.

(** * Properties *)

(** Unfolds the componentwise predicates on triples down to arithmetic. *)
Ltac v3_arith :=
  unfold v3le, v3divides, v3positive_Q, in_grid, in_window, v3sub,
    v3x, v3y, v3z in *;
  simpl in *; try lia.

(** ** The partition planner *)

Lemma in_py_range (n i : Z) : In i (py_range n) <-> 0 <= i < n.
Proof.
  unfold py_range. rewrite in_map_iff. split.
  - intros [k [<- Hk]]. apply in_seq in Hk. lia.
  - intros Hi. exists (Z.to_nat i). split; [lia|]. apply in_seq. lia.
Qed.

Lemma combine_fst_snd {A B} (l : list (A * B)) :
  combine (map fst l) (map snd l) = l.
Proof.
  induction l as [|[a b] l IH]; simpl; [reflexivity|]. now rewrite IH.
Qed.

Lemma clamp_axis_extent (size box start : Z) :
  snd (clamp_axis size box start) - fst (clamp_axis size box start) = box.
Proof.
  unfold clamp_axis. cbv zeta. destruct (start + box >? size); simpl; lia.
Qed.

Lemma clamp_axis_end (size box start : Z) :
  box <= size -> snd (clamp_axis size box start) <= size.
Proof.
  unfold clamp_axis. cbv zeta.
  destruct (start + box >? size) eqn:E; simpl; lia.
Qed.

(** The ceiling quotient used for the tile count. *)
Lemma ceil_div_bounds (n s : Z) :
  0 < s -> let c := - ((- n) / s) in n <= c * s < n + s.
Proof.
  intros Hs c. subst c.
  pose proof (Z.div_mod (- n) s ltac:(lia)) as Hdm.
  pose proof (Z.mod_pos_bound (- n) s Hs) as Hm.
  nia.
Qed.

(** Along one axis the clamped windows leave no gap when the stride does not
    exceed the tile extent. *)
Lemma axis_cover (size box stride v : Z) :
  1 <= stride -> stride <= box -> box <= size -> 0 <= v < size ->
  exists i, In i (py_range (- ((- (size - box)) / stride) + 1)) /\
            fst (clamp_axis size box (i * stride)) <= v
            < snd (clamp_axis size box (i * stride)).
Proof.
  intros Hs Hsb Hbs Hv.
  pose proof (ceil_div_bounds (size - box) stride ltac:(lia)) as Hc.
  cbv zeta in Hc. set (c := - ((- (size - box)) / stride)) in *.
  assert (Hc0 : 0 <= c) by nia.
  pose proof (Z.div_mod v stride ltac:(lia)) as Hdm.
  pose proof (Z.mod_pos_bound v stride ltac:(lia)) as Hm.
  assert (Hq0 : 0 <= v / stride) by (apply Z.div_pos; lia).
  destruct (Z_le_gt_dec (v / stride) c) as [Hle|Hgt].
  - exists (v / stride). split; [apply in_py_range; lia|].
    unfold clamp_axis. cbv zeta.
    destruct (v / stride * stride + box >? size) eqn:E; simpl; nia.
  - exists c. split; [apply in_py_range; lia|].
    unfold clamp_axis. cbv zeta.
    destruct (c * stride + box >? size) eqn:E; simpl; nia.
Qed.

Lemma in_windows (size box stride num : vec3 Z) (w : vec3 Z * vec3 Z) :
  In w (windows size box stride num) <->
  exists idx idy idz,
    In idx (py_range (v3x num)) /\ In idy (py_range (v3y num)) /\
    In idz (py_range (v3z num)) /\ w = window size box stride idx idy idz.
Proof.
  unfold windows. rewrite in_flat_map. split.
  - intros [idx [Hx Hw]]. apply in_flat_map in Hw. destruct Hw as [idy [Hy Hw]].
    apply in_map_iff in Hw. destruct Hw as [idz [Hw Hz]].
    exists idx, idy, idz. auto.
  - intros [idx [idy [idz [Hx [Hy [Hz ->]]]]]].
    exists idx. split; [assumption|]. apply in_flat_map.
    exists idy. split; [assumption|]. apply in_map_iff.
    exists idz. auto.
Qed.

Lemma round_up_to_stride_divides (m b r : Z) :
  round_up_to_stride m b = Ok r -> (m | r).
Proof.
  unfold round_up_to_stride, py_mod, py_floordiv.
  destruct (m =? 0) eqn:Em; simpl; [discriminate|].
  destruct (b mod m =? 0) eqn:Er; simpl; intros H; inversion H; subst.
  - apply Z.mod_divide; lia.
  - exists (b / m + 1). lia.
Qed.

(** For a positive stride the result is the least multiple not below [b]. *)
Lemma round_up_to_stride_next (m b r : Z) :
  0 < m -> round_up_to_stride m b = Ok r -> b <= r < b + m.
Proof.
  unfold round_up_to_stride, py_mod, py_floordiv. intros Hm.
  destruct (m =? 0) eqn:Em; simpl; [lia|].
  pose proof (Z.div_mod b m ltac:(lia)) as Hdm.
  pose proof (Z.mod_pos_bound b m Hm) as Hb.
  destruct (b mod m =? 0) eqn:Er; simpl; intros H; inversion H; subst; nia.
Qed.

Lemma round_up_to_stride_fixed (m b : Z) :
  m <> 0 -> (m | b) -> round_up_to_stride m b = Ok b.
Proof.
  intros Hm Hd. unfold round_up_to_stride, py_mod.
  destruct (m =? 0) eqn:Em; [lia|]. simpl.
  apply Z.mod_divide in Hd; [|assumption]. now rewrite Hd.
Qed.

Lemma v3map_ok {A B} (f : A -> result B) (a : vec3 A) (b : vec3 B) :
  v3map f a = Ok b ->
  f (v3x a) = Ok (v3x b) /\ f (v3y a) = Ok (v3y b) /\ f (v3z a) = Ok (v3z b).
Proof.
  unfold v3map.
  destruct (f (v3x a)); simpl; [|discriminate].
  destruct (f (v3y a)); simpl; [|discriminate].
  destruct (f (v3z a)); simpl; [|discriminate].
  intros H; inversion H; subst. auto.
Qed.

Lemma box_size_of_divides (sp ps : vec3 Q) (m : Z) (box : vec3 Z) :
  box_size_of sp ps m = Ok box -> v3divides m box.
Proof.
  unfold box_size_of. destruct (v3zip physical_to_voxel ps sp); simpl;
    [|discriminate].
  intros H. apply v3map_ok in H. destruct H as [Hx [Hy Hz]].
  repeat split; eapply round_up_to_stride_divides; eassumption.
Qed.

Lemma box_size_of_next (sp ps : vec3 Q) (m : Z) (box : vec3 Z) :
  0 < m -> box_size_of sp ps m = Ok box ->
  exists raw, v3zip physical_to_voxel ps sp = Ok raw /\
    v3le raw box /\ v3le box (v3x raw + m - 1, v3y raw + m - 1, v3z raw + m - 1).
Proof.
  unfold box_size_of. intros Hm.
  destruct (v3zip physical_to_voxel ps sp) as [raw|]; simpl; [|discriminate].
  intros H. apply v3map_ok in H. destruct H as [Hx [Hy Hz]].
  apply (round_up_to_stride_next _ _ _ Hm) in Hx, Hy, Hz.
  exists raw. unfold v3le, v3x, v3y, v3z in *. simpl.
  repeat split; try reflexivity; lia.
Qed.

Lemma window_extent (size box stride : vec3 Z) (idx idy idz : Z) :
  v3sub (snd (window size box stride idx idy idz))
        (fst (window size box stride idx idy idz)) = box.
Proof.
  unfold window, v3sub, v3x, v3y, v3z. cbv zeta. simpl.
  rewrite !clamp_axis_extent. now destruct box as [[bx by_] bz].
Qed.

(** C3: every window returned by [image_partition_by_fixed_size] has, on
    every axis, the extent of the derived voxel tile size; that size is an
    exact multiple of [max_stride], and for a positive [max_stride] it is the
    least multiple not below the rounded physical size.  The two returned
    lists are parallel. *)
Theorem partition_window_extent_multiple_of_stride
    {T} (image : Image T) (partition_size partition_stride : vec3 Q)
    (max_stride : Z) (starts ends : list (vec3 Z)) :
  image_partition_by_fixed_size image partition_size partition_stride
    max_stride = Ok (starts, ends) ->
  exists box,
    box_size_of (GetSpacing image) partition_size max_stride = Ok box /\
    v3divides max_stride box /\
    (0 < max_stride ->
     exists raw,
       v3zip physical_to_voxel partition_size (GetSpacing image) = Ok raw /\
       v3le raw box /\
       v3le box (v3x raw + max_stride - 1, v3y raw + max_stride - 1,
                 v3z raw + max_stride - 1)) /\
    length starts = length ends /\
    forall w, In w (combine starts ends) -> v3sub (snd w) (fst w) = box.
Proof.
  unfold image_partition_by_fixed_size. cbv zeta.
  destruct (box_size_of (GetSpacing image) partition_size max_stride)
    as [box|] eqn:Hbox; simpl; [|discriminate].
  destruct (stride_size_of (GetSpacing image) partition_stride)
    as [stride|]; simpl; [|discriminate].
  destruct (num_partitions_of (GetSize image) box stride) as [num|]; simpl;
    [|discriminate].
  intros H. inversion H; subst. clear H.
  exists box. split; [reflexivity|].
  split; [eapply box_size_of_divides; eassumption|].
  split; [intros Hm; eapply box_size_of_next; eassumption|].
  split; [now rewrite !length_map|].
  intros w Hw. rewrite combine_fst_snd in Hw.
  apply in_windows in Hw. destruct Hw as [idx [idy [idz [_ [_ [_ ->]]]]]].
  apply window_extent.
Qed.

Lemma partition_window_extent_multiple_of_stride_witness :
  image_partition_by_fixed_size demo_image demo_size demo_size 4
  = Ok (map fst demo_windows, map snd demo_windows) /\
  exists box,
    box_size_of (GetSpacing demo_image) demo_size 4 = Ok box /\
    v3divides 4 box /\
    (0 < 4 ->
     exists raw,
       v3zip physical_to_voxel demo_size (GetSpacing demo_image) = Ok raw /\
       v3le raw box /\
       v3le box (v3x raw + 4 - 1, v3y raw + 4 - 1, v3z raw + 4 - 1)) /\
    length (map fst demo_windows) = length (map snd demo_windows) /\
    forall w, In w (combine (map fst demo_windows) (map snd demo_windows)) ->
              v3sub (snd w) (fst w) = box.
Proof.
  split; [reflexivity|].
  apply (partition_window_extent_multiple_of_stride
           demo_image demo_size demo_size 4). reflexivity.
Defined.

Lemma py_ceil_div_plus1_ok (n s : Z) :
  s <> 0 -> py_ceil_div_plus1 n s = Ok (- ((- n) / s) + 1).
Proof.
  intros Hs. unfold py_ceil_div_plus1.
  destruct (Z.eqb_spec s 0); [contradiction|reflexivity].
Qed.

Lemma num_partitions_of_ok (size box stride : vec3 Z) :
  v3le (1, 1, 1) stride ->
  num_partitions_of size box stride
  = Ok (- ((- (v3x size - v3x box)) / v3x stride) + 1,
        - ((- (v3y size - v3y box)) / v3y stride) + 1,
        - ((- (v3z size - v3z box)) / v3z stride) + 1).
Proof.
  intros [Hx [Hy Hz]]. cbn in Hx, Hy, Hz.
  unfold num_partitions_of.
  rewrite !py_ceil_div_plus1_ok by lia. reflexivity.
Qed.

Lemma window_covers (size box stride : vec3 Z) (v : vec3 Z) :
  v3le (1, 1, 1) stride -> v3le stride box -> v3le box size ->
  in_grid v size ->
  exists num, num_partitions_of size box stride = Ok num /\
    exists w, In w (windows size box stride num) /\ in_window v w.
Proof.
  intros H1 H2 H3 Hv.
  rewrite (num_partitions_of_ok size box stride H1).
  destruct H1 as [Hx1 [Hy1 Hz1]]. cbn in Hx1, Hy1, Hz1.
  destruct H2 as [Hx2 [Hy2 Hz2]], H3 as [Hx3 [Hy3 Hz3]], Hv as [Hvx [Hvy Hvz]].
  eexists. split; [reflexivity|].
  destruct (axis_cover (v3x size) (v3x box) (v3x stride) (v3x v))
    as [idx [Hix Hwx]]; try assumption.
  destruct (axis_cover (v3y size) (v3y box) (v3y stride) (v3y v))
    as [idy [Hiy Hwy]]; try assumption.
  destruct (axis_cover (v3z size) (v3z box) (v3z stride) (v3z v))
    as [idz [Hiz Hwz]]; try assumption.
  exists (window size box stride idx idy idz). split.
  - apply in_windows. exists idx, idy, idz. auto.
  - unfold in_window, window. cbv zeta. simpl. auto.
Qed.

Lemma partition_covering
    {T} (image : Image T) (partition_size partition_stride : vec3 Q)
    (max_stride : Z) (box stride : vec3 Z) :
  box_size_of (GetSpacing image) partition_size max_stride = Ok box ->
  stride_size_of (GetSpacing image) partition_stride = Ok stride ->
  v3le (1, 1, 1) stride -> v3le stride box -> v3le box (GetSize image) ->
  exists starts ends,
    image_partition_by_fixed_size image partition_size partition_stride
      max_stride = Ok (starts, ends) /\
    forall v, in_grid v (GetSize image) -> covers starts ends v.
Proof.
  intros Hbox Hstride H1 H2 H3.
  unfold image_partition_by_fixed_size. cbv zeta.
  rewrite Hbox, Hstride. simpl.
  assert (Hnum : exists num,
             num_partitions_of (GetSize image) box stride = Ok num).
  { eexists. apply num_partitions_of_ok. assumption. }
  destruct Hnum as [num Hnum]. rewrite Hnum. simpl.
  eexists. eexists. split; [reflexivity|].
  intros v Hv.
  destruct (window_covers (GetSize image) box stride v H1 H2 H3 Hv)
    as [num' [Hnum' [w [Hin Hw]]]].
  rewrite Hnum in Hnum'. inversion Hnum'; subst num'.
  exists w. split; [|assumption]. now rewrite combine_fst_snd.
Qed.

(** C1 (amended): when the voxel stride is at least one voxel and at most
    the voxel tile size on every axis, and the voxel tile size is at most the
    grid size, [image_partition_by_fixed_size] returns windows whose union
    covers every voxel index of the grid. *)
Theorem partition_covers_grid
    {T} (image : Image T) (partition_size partition_stride : vec3 Q)
    (max_stride : Z) (box stride : vec3 Z) :
  box_size_of (GetSpacing image) partition_size max_stride = Ok box ->
  stride_size_of (GetSpacing image) partition_stride = Ok stride ->
  v3le (1, 1, 1) stride -> v3le stride box -> v3le box (GetSize image) ->
  exists starts ends,
    image_partition_by_fixed_size image partition_size partition_stride
      max_stride = Ok (starts, ends) /\
    forall v, in_grid v (GetSize image) -> covers starts ends v.
Proof.
  apply partition_covering.
Qed.

Lemma partition_covers_grid_witness :
  (box_size_of (GetSpacing demo_image) demo_size 4 = Ok (4, 4, 4) /\
   stride_size_of (GetSpacing demo_image) demo_size = Ok (3, 3, 3)) /\
  exists starts ends,
    image_partition_by_fixed_size demo_image demo_size demo_size 4
    = Ok (starts, ends) /\
    forall v, in_grid v (GetSize demo_image) -> covers starts ends v.
Proof.
  split; [split; reflexivity|].
  apply (partition_covers_grid demo_image demo_size demo_size 4
           (4, 4, 4) (3, 3, 3)).
  - reflexivity.
  - reflexivity.
  - v3_arith.
  - v3_arith.
  - v3_arith.
Defined.

(** C1 (as stated) fails: on a grid of 10 x 1 x 1 voxels with a tile of 2
    voxels and a stride of 4 voxels along x, every precondition of the claim
    holds, and the voxel of index 2 lies in no returned window. *)
Lemma partition_stride_beyond_tile_leaves_gap :
  v3le (1, 1, 1) (GetSize gap_image) /\
  v3positive_Q gap_size /\ v3positive_Q gap_stride /\
  box_size_of (GetSpacing gap_image) gap_size 1 = Ok (2, 1, 1) /\
  v3le (2, 1, 1) (GetSize gap_image) /\
  image_partition_by_fixed_size gap_image gap_size gap_stride 1
  = Ok ([(0, 0, 0); (4, 0, 0); (8, 0, 0)], [(2, 1, 1); (6, 1, 1); (10, 1, 1)]) /\
  in_grid (2, 0, 0) (GetSize gap_image) /\
  ~ covers [(0, 0, 0); (4, 0, 0); (8, 0, 0)] [(2, 1, 1); (6, 1, 1); (10, 1, 1)]
      (2, 0, 0).
Proof.
  split; [v3_arith|].
  split; [repeat split|].
  split; [repeat split|].
  split; [reflexivity|].
  split; [v3_arith|].
  split; [reflexivity|].
  split; [v3_arith|].
  intros [w [Hin Hw]]. simpl in Hin.
  destruct Hin as [<-|[<-|[<-|[]]]]; v3_arith.
Qed.

(** C2 (amended): on a 100 x 100 x 100 grid of 1 mm spacing, with tile size
    and stride 51.2 mm and [max_stride = 16], the voxel tile size is 64 and
    the voxel stride is 51; the planner returns two windows per axis,
    [[0, 64)] and the clamped [[36, 100)], eight windows in all, which
    together cover the grid. *)
Theorem partition_scenario_two_windows_per_axis {T} (image : Image T) :
  GetSize image = (100, 100, 100) ->
  GetSpacing image = (1, 1, 1)%Q ->
  box_size_of (GetSpacing image) scenario_size 16 = Ok (64, 64, 64) /\
  stride_size_of (GetSpacing image) scenario_size = Ok (51, 51, 51) /\
  image_partition_by_fixed_size image scenario_size scenario_size 16
  = Ok ([(0, 0, 0); (0, 0, 36); (0, 36, 0); (0, 36, 36);
         (36, 0, 0); (36, 0, 36); (36, 36, 0); (36, 36, 36)],
        [(64, 64, 64); (64, 64, 100); (64, 100, 64); (64, 100, 100);
         (100, 64, 64); (100, 64, 100); (100, 100, 64); (100, 100, 100)]) /\
  forall starts ends,
    image_partition_by_fixed_size image scenario_size scenario_size 16
    = Ok (starts, ends) ->
    forall v, in_grid v (100, 100, 100) -> covers starts ends v.
Proof.
  intros Hsize Hsp.
  unfold image_partition_by_fixed_size. cbv zeta. rewrite Hsize, Hsp.
  split; [reflexivity|]. split; [reflexivity|]. split; [reflexivity|].
  intros starts ends H v Hv.
  destruct (@partition_covering T image scenario_size scenario_size 16
              (64, 64, 64) (51, 51, 51)) as [s' [e' [H' Hc]]].
  - now rewrite Hsp.
  - now rewrite Hsp.
  - v3_arith.
  - v3_arith.
  - rewrite Hsize. v3_arith.
  - unfold image_partition_by_fixed_size in H'. cbv zeta in H'.
    rewrite Hsize, Hsp in H'. rewrite H' in H. inversion H; subst.
    apply Hc. now rewrite Hsize.
Qed.

Lemma partition_scenario_two_windows_per_axis_witness :
  (GetSize scenario_image = (100, 100, 100) /\
   GetSpacing scenario_image = (1, 1, 1)%Q) /\
  box_size_of (GetSpacing scenario_image) scenario_size 16 = Ok (64, 64, 64).
Proof.
  split; [split; reflexivity|].
  apply (partition_scenario_two_windows_per_axis scenario_image);
    reflexivity.
Defined.

(** C2 (as stated) fails: the planner does not return the single window
    [[36, 100)] per axis, and that window alone would leave the voxel of
    index 0 uncovered. *)
Lemma partition_scenario_not_a_single_window :
  image_partition_by_fixed_size scenario_image scenario_size scenario_size 16
  <> Ok ([(36, 36, 36)], [(100, 100, 100)]) /\
  in_grid (0, 0, 0) (GetSize scenario_image) /\
  ~ covers [(36, 36, 36)] [(100, 100, 100)] (0, 0, 0).
Proof.
  split; [|split].
  - vm_compute. discriminate.
  - v3_arith.
  - intros [w [Hin Hw]]. simpl in Hin. destruct Hin as [<-|[]].
    v3_arith.
Qed.

(** ** Voxel buffers *)

Lemma nth_error_imap_from {A B} (f : Z -> A -> B) (l : list A) :
  forall (i : Z) (n : nat),
    nth_error (imap_from i f l) n
    = option_map (f (i + Z.of_nat n)) (nth_error l n).
Proof.
  induction l as [|a l IH]; intros i n.
  - destruct n; reflexivity.
  - destruct n as [|n]; simpl.
    + now rewrite Z.add_0_r.
    + rewrite IH. f_equal. f_equal. lia.
Qed.

Lemma nth_Z_imap_from {A B} (f : Z -> A -> B) (l : list A) (k : Z) :
  nth_Z (imap_from 0 f l) k = option_map (f k) (nth_Z l k).
Proof.
  unfold nth_Z. destruct (k <? 0) eqn:E; [reflexivity|].
  rewrite nth_error_imap_from. f_equal. f_equal.
  apply Z.ltb_ge in E. lia.
Qed.

Lemma length_imap_from {A B} (f : Z -> A -> B) (l : list A) :
  forall i, length (imap_from i f l) = length l.
Proof.
  induction l as [|a l IH]; intros i; simpl; [reflexivity|]. now rewrite IH.
Qed.

Lemma vol_get_imap {A B} (f : vec3 Z -> A -> B) (v : volume A) (c : vec3 Z) :
  vol_get (vol_imap f v) c = option_map (f c) (vol_get v c).
Proof.
  destruct c as [[x y] z]. unfold vol_get, vol_imap, v3x, v3y, v3z. simpl.
  rewrite nth_Z_imap_from. destruct (nth_Z v z) as [plane|]; simpl;
    [|reflexivity].
  rewrite nth_Z_imap_from. destruct (nth_Z plane y) as [row|]; simpl;
    [|reflexivity].
  now rewrite nth_Z_imap_from.
Qed.

Lemma vol_size_imap {A B} (f : vec3 Z -> A -> B) (v : volume A) :
  vol_size (vol_imap f v) = vol_size v.
Proof.
  unfold vol_size, vol_imap. rewrite length_imap_from.
  destruct v as [|plane v]; simpl; [reflexivity|].
  rewrite length_imap_from.
  destruct plane as [|row plane]; simpl; [reflexivity|].
  now rewrite length_imap_from.
Qed.

Lemma nth_Z_Some {A} (l : list A) (k : Z) :
  0 <= k < Z.of_nat (length l) -> exists a, nth_Z l k = Some a /\ In a l.
Proof.
  intros Hk. unfold nth_Z. destruct (k <? 0) eqn:E; [lia|].
  destruct (nth_error l (Z.to_nat k)) as [a|] eqn:En.
  - exists a. split; [reflexivity|]. eapply nth_error_In; eassumption.
  - apply nth_error_None in En. lia.
Qed.

Lemma nth_Z_bounds {A} (l : list A) (k : Z) (a : A) :
  nth_Z l k = Some a -> 0 <= k < Z.of_nat (length l) /\ In a l.
Proof.
  unfold nth_Z. destruct (k <? 0) eqn:E; [discriminate|].
  intros H. apply Z.ltb_ge in E. split.
  - assert (Hn : (Z.to_nat k < length l)%nat)
      by (apply nth_error_Some; congruence). lia.
  - eapply nth_error_In; eassumption.
Qed.

(** In a rectangular buffer the voxels are exactly the indices of the grid. *)
Lemma rectangular_get {A} (v : volume A) (c : vec3 Z) :
  rectangular v -> in_grid c (vol_size v) -> exists p, vol_get v c = Some p.
Proof.
  intros Hr [Hx [Hy Hz]]. unfold vol_get.
  destruct (nth_Z_Some v (v3z c)) as [plane [-> Hp]]; [exact Hz|].
  unfold rectangular in Hr. rewrite Forall_forall in Hr.
  destruct (Hr plane Hp) as [Hlen Hrows].
  destruct (nth_Z_Some plane (v3y c)) as [row [-> Hrow]]; [lia|].
  rewrite Forall_forall in Hrows. specialize (Hrows row Hrow).
  destruct (nth_Z_Some row (v3x c)) as [p [-> _]]; [lia|].
  now exists p.
Qed.

Lemma rectangular_in_grid {A} (v : volume A) (c : vec3 Z) (p : A) :
  rectangular v -> vol_get v c = Some p -> in_grid c (vol_size v).
Proof.
  intros Hr. unfold vol_get.
  destruct (nth_Z v (v3z c)) as [plane|] eqn:Ez; [|discriminate].
  destruct (nth_Z plane (v3y c)) as [row|] eqn:Ey; [|discriminate].
  intros Ex.
  apply nth_Z_bounds in Ez, Ey, Ex.
  destruct Ez as [Hz Hp], Ey as [Hy Hrow], Ex as [Hx _].
  unfold rectangular in Hr. rewrite Forall_forall in Hr.
  destruct (Hr plane Hp) as [Hlen Hrows].
  rewrite Forall_forall in Hrows. specialize (Hrows row Hrow).
  unfold in_grid. repeat split; try lia.
  unfold vol_size, v3z in *. simpl. lia.
Qed.

Lemma rectangularb_spec {A} (v : volume A) :
  rectangularb v = true <-> rectangular v.
Proof.
  unfold rectangularb, rectangular.
  rewrite forallb_forall, Forall_forall. split; intros H plane Hp.
  - specialize (H plane Hp). apply andb_true_iff in H. destruct H as [H1 H2].
    apply Z.eqb_eq in H1. split; [assumption|].
    rewrite Forall_forall. rewrite forallb_forall in H2.
    intros row Hrow. apply Z.eqb_eq. auto.
  - destruct (H plane Hp) as [H1 H2]. apply andb_true_iff. split.
    + now apply Z.eqb_eq.
    + rewrite forallb_forall. rewrite Forall_forall in H2.
      intros row Hrow. apply Z.eqb_eq. auto.
Qed.

Lemma rectangular_imap {A B} (f : vec3 Z -> A -> B) (v : volume A) :
  rectangular v -> rectangular (vol_imap f v).
Proof.
  unfold rectangular. rewrite vol_size_imap.
  set (sz := vol_size v). clearbody sz. unfold vol_imap.
  generalize 0 at 1. induction v as [|plane v IH]; intros i Hr; simpl.
  - constructor.
  - inversion Hr as [|? ? [Hlen Hrows] Hrest]; subst. constructor.
    + split; [now rewrite length_imap_from|].
      clear - Hrows. generalize 0 at 1.
      induction plane as [|row plane IHp]; intros j; simpl; constructor.
      * inversion Hrows; subst. now rewrite length_imap_from.
      * inversion Hrows; subst. now apply IHp.
    + now apply IH.
Qed.

(** ** The additive paste *)

Section PasteProperties.

Variable T : Type.
Variable padd : T -> T -> T.

Lemma in_slice_spec (lo hi c : vec3 Z) :
  in_slice lo hi c = true <-> in_window c (lo, hi).
Proof.
  unfold in_slice, in_window. simpl.
  rewrite !andb_true_iff, !Z.leb_le, !Z.ltb_lt. tauto.
Qed.

Lemma py_slice_index_nonneg (n i : Z) :
  0 <= i -> py_slice_index n i = Z.min i n.
Proof.
  intros Hi. unfold py_slice_index.
  destruct (i <? 0) eqn:E; [apply Z.ltb_lt in E; lia|reflexivity].
Qed.

Lemma slice_lo_start (shape start c : vec3 Z) :
  v3le (0, 0, 0) start -> in_grid c shape -> v3le start c ->
  slice_lo shape start = start.
Proof.
  destruct start as [[sx sy] sz]. unfold slice_lo.
  intros H0 Hg Hs. v3_arith.
  rewrite !py_slice_index_nonneg by lia.
  rewrite !Z.min_l by lia. reflexivity.
Qed.

Lemma in_slice_of_window (shape start stop c : vec3 Z) :
  v3le (0, 0, 0) start -> in_grid c shape -> in_window c (start, stop) ->
  in_slice (slice_lo shape start) (slice_lo shape stop) c = true.
Proof.
  intros H0 Hg Hw. apply in_slice_spec. unfold slice_lo. v3_arith.
  rewrite !(py_slice_index_nonneg _ (fst (fst start))),
          !(py_slice_index_nonneg _ (snd (fst start))),
          !(py_slice_index_nonneg _ (snd start)),
          !(py_slice_index_nonneg _ (fst (fst stop))),
          !(py_slice_index_nonneg _ (snd (fst stop))),
          !(py_slice_index_nonneg _ (snd stop)) by lia.
  lia.
Qed.

Lemma window_of_in_slice (shape start stop c : vec3 Z) :
  v3le (0, 0, 0) start -> v3le (0, 0, 0) stop ->
  in_slice (slice_lo shape start) (slice_lo shape stop) c = true ->
  in_window c (start, stop).
Proof.
  intros H0 H1 Hs. apply in_slice_spec in Hs. unfold slice_lo in Hs.
  v3_arith.
  rewrite !(py_slice_index_nonneg _ (fst (fst start))),
          !(py_slice_index_nonneg _ (snd (fst start))),
          !(py_slice_index_nonneg _ (snd start)),
          !(py_slice_index_nonneg _ (fst (fst stop))),
          !(py_slice_index_nonneg _ (snd (fst stop))),
          !(py_slice_index_nonneg _ (snd stop)) in Hs by lia.
  lia.
Qed.

(** What [iadd_slice] leaves at each voxel. *)
Lemma iadd_slice_get (v arr : volume T) (start stop : vec3 Z)
    (value : operand T) (c : vec3 Z) :
  iadd_slice padd v start stop value = Ok arr ->
  vol_get arr c
  = option_map
      (fun p =>
         if in_slice (slice_lo (vol_size v) start)
                     (slice_lo (vol_size v) stop) c
         then match operand_at value (slice_lo (vol_size v) start) c with
              | Some s => padd p s
              | None => p
              end
         else p)
      (vol_get v c).
Proof.
  unfold iadd_slice. cbv zeta.
  match goal with |- (if ?b then _ else _) = _ -> _ => destruct b end;
    [|discriminate].
  intros H. inversion H; subst. now rewrite vol_get_imap.
Qed.

Lemma iadd_slice_shape (v arr : volume T) (start stop : vec3 Z)
    (value : operand T) :
  iadd_slice padd v start stop value = Ok arr ->
  vol_size arr = vol_size v /\ (rectangular v -> rectangular arr).
Proof.
  unfold iadd_slice. cbv zeta.
  match goal with |- (if ?b then _ else _) = _ -> _ => destruct b end;
    [|discriminate].
  intros H. inversion H; subst. split.
  - apply vol_size_imap.
  - apply rectangular_imap.
Qed.

Lemma broadcast_index_in_grid (op lo hi c : vec3 Z) :
  broadcastable op (slice_shape lo hi) = true -> in_window c (lo, hi) ->
  in_grid (broadcast_index (v3x op) (v3x c - v3x lo),
           broadcast_index (v3y op) (v3y c - v3y lo),
           broadcast_index (v3z op) (v3z c - v3z lo)) op.
Proof.
  unfold broadcastable, broadcast_axis, slice_shape, broadcast_index.
  rewrite !andb_true_iff, !orb_true_iff, !Z.eqb_eq.
  intros Hb Hs. v3_arith.
  destruct (Z.eqb_spec (fst (fst op)) 1), (Z.eqb_spec (snd (fst op)) 1),
           (Z.eqb_spec (snd op) 1); lia.
Qed.

(** An operand accepted by the broadcast has an element for every voxel
    of the slice. *)
Lemma operand_at_defined (v arr : volume T) (start stop : vec3 Z)
    (value : operand T) (c : vec3 Z) :
  iadd_slice padd v start stop value = Ok arr ->
  in_slice (slice_lo (vol_size v) start) (slice_lo (vol_size v) stop) c
  = true ->
  exists s, operand_at value (slice_lo (vol_size v) start) c = Some s.
Proof.
  unfold iadd_slice. cbv zeta. destruct value as [s|a].
  - intros _ _. now exists s.
  - destruct (rectangularb a) eqn:Hr; simpl; [|discriminate].
    destruct (broadcastable _ _) eqn:Hb; [|discriminate].
    intros _ Hs. apply in_slice_spec in Hs.
    apply rectangularb_spec in Hr.
    apply rectangular_get; [assumption|].
    eapply broadcast_index_in_grid; eassumption.
Qed.

Lemma add_image_value_inv (image image' : Image T) (start stop : vec3 Z)
    (value : operand T) :
  add_image_value padd image start stop value = Ok image' ->
  exists arr,
    iadd_slice padd (pixels image) start stop value = Ok arr /\
    image' = mkImage arr (spacing image) (origin image) (direction image)
                     (pixel_id image).
Proof.
  unfold add_image_value, GetArrayFromImage. cbv zeta.
  destruct (iadd_slice padd (pixels image) start stop value) as [arr|] eqn:E;
    simpl; [|discriminate].
  unfold CopyInformation.
  destruct (v3eqb _ _); [|discriminate].
  intros H. inversion H; subst. now exists arr.
Qed.

Lemma v3eqb_refl (a : vec3 Z) : v3eqb a a = true.
Proof. unfold v3eqb. now rewrite !Z.eqb_refl. Qed.

Lemma add_image_value_get_inside (image image' : Image T)
    (start stop : vec3 Z) (value : operand T) (c : vec3 Z) :
  rectangular (pixels image) -> v3le (0, 0, 0) start ->
  add_image_value padd image start stop value = Ok image' ->
  in_grid c (GetSize image) -> in_window c (start, stop) ->
  exists p s, GetPixel image c = Some p /\
              operand_at value start c = Some s /\
              GetPixel image' c = Some (padd p s).
Proof.
  intros Hr H0 Hadd Hg Hw.
  apply add_image_value_inv in Hadd. destruct Hadd as [arr [Hi ->]].
  destruct (rectangular_get _ c Hr Hg) as [p Hp].
  pose proof (in_slice_of_window _ start stop c H0 Hg Hw) as Hs.
  destruct (operand_at_defined _ _ _ _ _ c Hi Hs) as [s Hop].
  exists p, s. unfold GetPixel. simpl.
  rewrite (iadd_slice_get _ _ _ _ _ c Hi).
  unfold GetSize in *. rewrite Hp. simpl. rewrite Hs, Hop.
  rewrite (slice_lo_start (vol_size (pixels image)) start c) in Hop;
    try assumption.
  - auto.
  - destruct Hw as [Hx [Hy Hz]]. simpl in *. unfold v3le. lia.
Qed.

Lemma add_image_value_frame (image image' : Image T) (start stop : vec3 Z)
    (value : operand T) :
  add_image_value padd image start stop value = Ok image' ->
  GetSpacing image' = GetSpacing image /\
  GetOrigin image' = GetOrigin image /\
  GetDirection image' = GetDirection image /\
  GetSize image' = GetSize image /\
  (rectangular (pixels image) -> rectangular (pixels image')).
Proof.
  intros Hadd. apply add_image_value_inv in Hadd.
  destruct Hadd as [arr [Hi ->]].
  apply iadd_slice_shape in Hi. destruct Hi as [Hsz Hrect].
  unfold GetSize. simpl. auto.
Qed.

End PasteProperties.

(** C6: [add_image_value] is additive over the window.  Whenever the paste
    returns, every voxel of the grid inside the window holds its prior value
    plus the pasted element, and after a second paste every voxel inside
    both windows holds the prior value plus the first and then the second
    pasted element: the contributions are summed, none is overwritten. *)
Theorem add_image_value_sums_over_window
    {T} (padd : T -> T -> T) (image : Image T) (start1 end1 : vec3 Z) :
  rectangular (pixels image) -> v3le (0, 0, 0) start1 ->
  forall value1 image1,
    add_image_value padd image start1 end1 value1 = Ok image1 ->
    (forall c, in_grid c (GetSize image) -> in_window c (start1, end1) ->
       exists p s1, GetPixel image c = Some p /\
                    operand_at value1 start1 c = Some s1 /\
                    GetPixel image1 c = Some (padd p s1)) /\
    forall start2 end2 value2 image2,
      v3le (0, 0, 0) start2 ->
      add_image_value padd image1 start2 end2 value2 = Ok image2 ->
      forall c, in_grid c (GetSize image) ->
        in_window c (start1, end1) -> in_window c (start2, end2) ->
        exists p s1 s2,
          GetPixel image c = Some p /\
          operand_at value1 start1 c = Some s1 /\
          operand_at value2 start2 c = Some s2 /\
          GetPixel image2 c = Some (padd (padd p s1) s2).
Proof.
  intros Hr H0 value1 image1 Hadd1. split.
  - intros c Hg Hw.
    eapply add_image_value_get_inside; eassumption.
  - intros start2 end2 value2 image2 H02 Hadd2 c Hg Hw1 Hw2.
    destruct (add_image_value_get_inside T padd image image1 start1 end1
                value1 c Hr H0 Hadd1 Hg Hw1) as [p [s1 [Hp [Hs1 Hp1]]]].
    destruct (add_image_value_frame T padd image image1 start1 end1 value1
                Hadd1) as [_ [_ [_ [Hsz Hr1]]]].
    destruct (add_image_value_get_inside T padd image1 image2 start2 end2
                value2 c (Hr1 Hr) H02 Hadd2) as [p1 [s2 [Hp1' [Hs2 Hp2]]]];
      [now rewrite Hsz|assumption|].
    exists p, s1, s2. rewrite Hp1 in Hp1'. inversion Hp1'; subst p1. auto.
Qed.

Lemma add_image_value_sums_over_window_witness :
  (rectangular (pixels paste_image) /\
   add_image_value Z.add paste_image (0, 0, 0) (3, 1, 1) (Scalar 5)
   = Ok paste_once /\
   add_image_value Z.add paste_once (1, 0, 0) (4, 1, 1) (Array [[[7]]])
   = Ok paste_twice) /\
  exists p s1 s2,
    GetPixel paste_image (1, 0, 0) = Some p /\
    operand_at (Scalar 5) (0, 0, 0) (1, 0, 0) = Some s1 /\
    operand_at (Array [[[7]]]) (1, 0, 0) (1, 0, 0) = Some s2 /\
    GetPixel paste_twice (1, 0, 0) = Some (p + s1 + s2).
Proof.
  assert (Hr : rectangular (pixels paste_image)).
  { apply rectangularb_spec. reflexivity. }
  split; [split; [exact Hr|split; reflexivity]|].
  assert (H0 : v3le (0, 0, 0) (0, 0, 0)) by v3_arith.
  destruct (add_image_value_sums_over_window Z.add paste_image
              (0, 0, 0) (3, 1, 1) Hr H0 (Scalar 5) paste_once eq_refl)
    as [_ H2].
  apply (H2 (1, 0, 0) (4, 1, 1) (Array [[[7]]]) paste_twice);
    try reflexivity; v3_arith.
Defined.

(** C10: the image returned by [add_image_value] for a window of
    non-negative bounds leaves every voxel outside the window as it was, and
    keeps the spacing, origin, direction and size of the input image. *)
Theorem add_image_value_frame_effect
    {T} (padd : T -> T -> T) (image image' : Image T)
    (start_voxel end_voxel : vec3 Z) (value : operand T) :
  v3le (0, 0, 0) start_voxel -> v3le (0, 0, 0) end_voxel ->
  add_image_value padd image start_voxel end_voxel value = Ok image' ->
  (forall c, ~ in_window c (start_voxel, end_voxel) ->
             GetPixel image' c = GetPixel image c) /\
  GetSpacing image' = GetSpacing image /\
  GetOrigin image' = GetOrigin image /\
  GetDirection image' = GetDirection image /\
  GetSize image' = GetSize image.
Proof.
  intros H0 H1 Hadd.
  destruct (add_image_value_frame T padd image image' start_voxel end_voxel
              value Hadd) as [Hsp [Ho [Hd [Hsz _]]]].
  split; [|auto].
  intros c Hout.
  apply add_image_value_inv in Hadd. destruct Hadd as [arr [Hi ->]].
  unfold GetPixel. simpl. rewrite (iadd_slice_get T padd _ _ _ _ _ c Hi).
  destruct (in_slice _ _ c) eqn:Hs.
  - exfalso. apply Hout. eapply window_of_in_slice; eassumption.
  - now destruct (vol_get (pixels image) c).
Qed.

Lemma add_image_value_frame_effect_witness :
  add_image_value Z.add paste_image (0, 0, 0) (3, 1, 1) (Scalar 5)
  = Ok paste_once /\
  (forall c, ~ in_window c ((0, 0, 0), (3, 1, 1)) ->
             GetPixel paste_once c = GetPixel paste_image c) /\
  GetSpacing paste_once = GetSpacing paste_image /\
  GetOrigin paste_once = GetOrigin paste_image /\
  GetDirection paste_once = GetDirection paste_image /\
  GetSize paste_once = GetSize paste_image.
Proof.
  split; [reflexivity|].
  apply (add_image_value_frame_effect Z.add paste_image paste_once
           (0, 0, 0) (3, 1, 1) (Scalar 5)); try reflexivity; v3_arith.
Defined.

(** ** Resampling and cropping *)

Lemma select_interpolator_supported (m : string) :
  supported_mode m -> exists interp, select_interpolator m = Ok interp.
Proof.
  intros [->| ->]; eexists; reflexivity.
Qed.

Lemma select_interpolator_unsupported (m : string) :
  ~ supported_mode m ->
  select_interpolator m = Raise (ValueError "Unsupported interpolation type.").
Proof.
  intros Hm. unfold select_interpolator.
  destruct (String.eqb_spec m "LINEAR") as [->|_].
  - exfalso. apply Hm. now right.
  - destruct (String.eqb_spec m "NN") as [->|_]; [|reflexivity].
    exfalso. apply Hm. now left.
Qed.

Lemma length_py_range (n : Z) : length (py_range n) = Z.to_nat n.
Proof. unfold py_range. now rewrite length_map, length_seq. Qed.

Lemma vol_size_tabulate {A} (size : vec3 Z) (f : vec3 Z -> A) :
  v3le (1, 1, 1) size -> vol_size (vol_tabulate size f) = size.
Proof.
  destruct size as [[nx ny] nz]. intros H. v3_arith.
  unfold vol_size, vol_tabulate, v3x, v3y, v3z. simpl.
  rewrite length_map, length_py_range.
  unfold py_range.
  destruct (Z.to_nat nz) as [|kz] eqn:Ez; [lia|]. simpl.
  rewrite length_map, length_map, length_seq.
  destruct (Z.to_nat ny) as [|ky] eqn:Ey; [lia|]. simpl.
  rewrite length_map, length_map, length_seq.
  f_equal; [f_equal|]; lia.
Qed.

Lemma resampled_extent_ok (n : Z) (s t : Q) :
  ~ (t == 0)%Q ->
  resampled_extent n s t = Ok (py_int (inject_Z n * s / t + (1 # 2))%Q).
Proof.
  intros Ht. unfold resampled_extent, py_truediv.
  destruct (Qeq_bool t 0) eqn:E; [|reflexivity].
  apply Qeq_bool_eq in E. contradiction.
Qed.

Lemma round_up_to_stride_ok (m b : Z) :
  m <> 0 -> exists r, round_up_to_stride m b = Ok r.
Proof.
  intros Hm. unfold round_up_to_stride, py_mod, py_floordiv.
  destruct (Z.eqb_spec m 0); [contradiction|]. simpl.
  destruct (b mod m =? 0); eexists; reflexivity.
Qed.

Lemma resample_out_size_ok {T} (image : Image T) (sp : vec3 Q) (m : Z) :
  m <> 0 -> ~ (v3x sp == 0)%Q -> ~ (v3y sp == 0)%Q -> ~ (v3z sp == 0)%Q ->
  exists out_size, resample_out_size image sp m = Ok out_size.
Proof.
  intros Hm Hx Hy Hz. unfold resample_out_size. cbv zeta.
  rewrite !resampled_extent_ok by assumption. simpl. unfold v3map.
  unfold v3x at 1, v3y at 1, v3z at 1. simpl.
  match goal with |- context [round_up_to_stride m ?b] =>
    destruct (round_up_to_stride_ok m b Hm) as [rx ->] end. simpl.
  match goal with |- context [round_up_to_stride m ?b] =>
    destruct (round_up_to_stride_ok m b Hm) as [ry ->] end. simpl.
  match goal with |- context [round_up_to_stride m ?b] =>
    destruct (round_up_to_stride_ok m b Hm) as [rz ->] end. simpl.
  eexists. reflexivity.
Qed.

Lemma resampled_extent_raises (n : Z) (s t : Q) (e : exn) :
  resampled_extent n s t = Raise e -> e = ZeroDivisionError.
Proof.
  unfold resampled_extent, py_truediv.
  destruct (Qeq_bool t 0); simpl; intros H; inversion H; reflexivity.
Qed.

Lemma round_up_to_stride_raises (m b : Z) (e : exn) :
  round_up_to_stride m b = Raise e -> e = ZeroDivisionError.
Proof.
  unfold round_up_to_stride, py_mod, py_floordiv.
  destruct (m =? 0); simpl; [intros H; inversion H; reflexivity|].
  destruct (b mod m =? 0); discriminate.
Qed.

Lemma resample_out_size_raises {T} (image : Image T) (sp : vec3 Q) (m : Z)
    (e : exn) :
  resample_out_size image sp m = Raise e -> e = ZeroDivisionError.
Proof.
  unfold resample_out_size, v3map. cbv zeta.
  repeat match goal with
  | |- bind ?r _ = _ -> _ =>
      let H := fresh "H" in
      destruct r eqn:?; simpl;
      [|intros H; inversion H; subst;
        first [eapply resampled_extent_raises; eassumption
              |eapply round_up_to_stride_raises; eassumption]]
  end.
  discriminate.
Qed.

Lemma resampled_extent_inv (n : Z) (s t : Q) (r : Z) :
  resampled_extent n s t = Ok r -> ~ (t == 0)%Q.
Proof.
  unfold resampled_extent, py_truediv.
  destruct (Qeq_bool t 0) eqn:E; [discriminate|].
  intros _ H. apply Qeq_eq_bool in H. congruence.
Qed.

Lemma round_up_to_stride_inv (m b r : Z) :
  round_up_to_stride m b = Ok r -> m <> 0.
Proof.
  unfold round_up_to_stride, py_mod.
  destruct (Z.eqb_spec m 0); [discriminate|auto].
Qed.

Lemma resample_out_size_inv {T} (image : Image T) (sp : vec3 Q) (m : Z)
    (out_size : vec3 Z) :
  resample_out_size image sp m = Ok out_size -> m <> 0 /\ v3nonzero_Q sp.
Proof.
  unfold resample_out_size, v3nonzero_Q. cbv zeta.
  destruct (resampled_extent (v3x (GetSize image)) (v3x (GetSpacing image))
              (v3x sp)) as [rx|] eqn:Ex; cbn [bind]; [|discriminate].
  destruct (resampled_extent (v3y (GetSize image)) (v3y (GetSpacing image))
              (v3y sp)) as [ry|] eqn:Ey; cbn [bind]; [|discriminate].
  destruct (resampled_extent (v3z (GetSize image)) (v3z (GetSpacing image))
              (v3z sp)) as [rz|] eqn:Ez; cbn [bind]; [|discriminate].
  intros H. apply v3map_ok in H. destruct H as [Hx _].
  apply round_up_to_stride_inv in Hx.
  apply resampled_extent_inv in Ex, Ey, Ez. auto.
Qed.




Lemma resample_out_size_rounding {T} (image : Image T) (sp : vec3 Q) (m : Z)
    (out_size : vec3 Z) :
  0 < m -> resample_out_size image sp m = Ok out_size ->
  exists raw : vec3 Z,
    resampled_extent (v3x (GetSize image)) (v3x (GetSpacing image)) (v3x sp)
    = Ok (v3x raw) /\
    resampled_extent (v3y (GetSize image)) (v3y (GetSpacing image)) (v3y sp)
    = Ok (v3y raw) /\
    resampled_extent (v3z (GetSize image)) (v3z (GetSpacing image)) (v3z sp)
    = Ok (v3z raw) /\
    v3le raw out_size /\
    v3le out_size (v3x raw + m - 1, v3y raw + m - 1, v3z raw + m - 1) /\
    v3divides m out_size /\
    (v3divides m raw -> out_size = raw).
Proof.
  intros Hm. unfold resample_out_size. cbv zeta.
  destruct (resampled_extent (v3x (GetSize image)) (v3x (GetSpacing image))
              (v3x sp)) as [rx|]; cbn [bind]; [|discriminate].
  destruct (resampled_extent (v3y (GetSize image)) (v3y (GetSpacing image))
              (v3y sp)) as [ry|]; cbn [bind]; [|discriminate].
  destruct (resampled_extent (v3z (GetSize image)) (v3z (GetSpacing image))
              (v3z sp)) as [rz|]; cbn [bind]; [|discriminate].
  intros H. apply v3map_ok in H. destruct H as [Hx [Hy Hz]].
  cbn in Hx, Hy, Hz.
  exists (rx, ry, rz).
  pose proof (round_up_to_stride_next _ _ _ Hm Hx) as Bx.
  pose proof (round_up_to_stride_next _ _ _ Hm Hy) as By.
  pose proof (round_up_to_stride_next _ _ _ Hm Hz) as Bz.
  pose proof (round_up_to_stride_divides _ _ _ Hx) as Dx.
  pose proof (round_up_to_stride_divides _ _ _ Hy) as Dy.
  pose proof (round_up_to_stride_divides _ _ _ Hz) as Dz.
  repeat split; try reflexivity; try assumption; try (v3_arith; fail).
  intros [Fx [Fy Fz]].
  cbn in Fx, Fy, Fz.
  rewrite (round_up_to_stride_fixed m rx) in Hx by (lia || assumption).
  rewrite (round_up_to_stride_fixed m ry) in Hy by (lia || assumption).
  rewrite (round_up_to_stride_fixed m rz) in Hz by (lia || assumption).
  destruct out_size as [[ox oy] oz]. unfold v3x, v3y, v3z in *. simpl in *.
  congruence.
Qed.



(** ** Voxel-wise filters *)

Lemma GetPixel_pixelwise (f : Z -> Z) (id : PixelID) (image : Image Z)
    (c : vec3 Z) :
  GetPixel (pixelwise f id image) c = option_map f (GetPixel image c).
Proof. unfold GetPixel, pixelwise. simpl. apply vol_get_imap. Qed.

Lemma GetPixel_sitk_Add (a b : Image Z) (c : vec3 Z) :
  GetPixel (sitk_Add a b) c
  = option_map (fun p => match GetPixel b c with
                         | Some q => cast_pixel (GetPixelID a) (p + q)
                         | None => p
                         end) (GetPixel a c).
Proof. unfold GetPixel at 1, sitk_Add. simpl. apply vol_get_imap. Qed.

Lemma map_result_total {A B} (f : A -> result B) (g : A -> B) (l : list A) :
  (forall a, In a l -> f a = Ok (g a)) -> map_result f l = Ok (map g l).
Proof.
  induction l as [|a l IH]; intros H; simpl; [reflexivity|].
  rewrite (H a) by now left. simpl.
  rewrite IH by (intros a' Ha'; apply H; now right). reflexivity.
Qed.

Lemma combine_map_self {A B} (g : A -> B) (l : list A) :
  combine l (map g l) = map (fun a => (a, g a)) l.
Proof.
  induction l as [|a l IH]; simpl; [reflexivity|]. now rewrite IH.
Qed.

(** The loop of [recombine], voxel by voxel, for masks built per label. *)
Lemma recombine_fold_get (g : Z -> Image Z) (c : vec3 Z) :
  forall (rest : list Z) (first : Image Z),
    GetPixelID first = sitkUInt8 ->
    (forall l, GetPixelID (g l) = sitkUInt8) ->
    GetPixel
      (fold_left (fun multi lb =>
                    sitk_Add multi (sitk_MultiplyConstant (fst lb) (snd lb)))
                 (map (fun l => (l, g l)) rest) first) c
    = option_map
        (fun v0 =>
           fold_left (fun acc l =>
                        match GetPixel (g l) c with
                        | Some q =>
                            cast_pixel sitkUInt8
                              (acc + cast_pixel sitkUInt8 (l * q))
                        | None => acc
                        end) rest v0)
        (GetPixel first c).
Proof.
  induction rest as [|l rest IH]; intros first Hid Hg; simpl.
  - now destruct (GetPixel first c).
  - rewrite IH; [|exact Hid|assumption].
    rewrite GetPixel_sitk_Add. unfold sitk_MultiplyConstant.
    rewrite GetPixel_pixelwise, Hid, Hg.
    destruct (GetPixel first c) as [v0|]; simpl; [|reflexivity].
    now destruct (GetPixel (g l) c).
Qed.

Lemma cast_uint8_small (z : Z) : 0 <= z <= 255 -> cast_pixel sitkUInt8 z = z.
Proof.
  intros Hz. unfold cast_pixel, wrap_unsigned.
  change (2 ^ 8) with 256. apply Z.mod_small. lia.
Qed.

Lemma cast_pixel_bit (id : PixelID) (z : Z) :
  z = 0 \/ z = 1 -> cast_pixel id z = z.
Proof.
  intros [->| ->]; destruct id; reflexivity.
Qed.

(** ** Enumerating a buffer *)

Lemma in_imap_from {A B} (f : Z -> A -> B) (l : list A) (b : B) :
  In b (imap_from 0 f l) <-> exists k a, nth_Z l k = Some a /\ b = f k a.
Proof.
  split.
  - intros H. apply In_nth_error in H. destruct H as [n Hn].
    rewrite nth_error_imap_from in Hn.
    destruct (nth_error l n) as [a|] eqn:E; [|discriminate].
    exists (Z.of_nat n), a. unfold nth_Z.
    destruct (Z.of_nat n <? 0) eqn:E0; [apply Z.ltb_lt in E0; lia|].
    rewrite Nat2Z.id. split; [assumption|]. simpl in Hn. congruence.
  - intros [k [a [Hk ->]]].
    assert (Hn : nth_Z (imap_from 0 f l) k = Some (f k a))
      by (rewrite nth_Z_imap_from, Hk; reflexivity).
    apply nth_Z_bounds in Hn. tauto.
Qed.

Lemma in_vol_enum {A} (v : volume A) (c : vec3 Z) (p : A) :
  In (c, p) (vol_enum v) <-> vol_get v c = Some p.
Proof.
  unfold vol_enum, vol_imap, vol_get. rewrite in_concat. split.
  - intros [row' [Hrow' Hin]]. apply in_concat in Hrow'.
    destruct Hrow' as [plane' [Hplane' Hrow']].
    apply in_imap_from in Hplane'. destruct Hplane' as [z [plane [Hz ->]]].
    apply in_imap_from in Hrow'. destruct Hrow' as [y [row [Hy ->]]].
    apply in_imap_from in Hin. destruct Hin as [x [q [Hx Heq]]].
    inversion Heq; subst. unfold v3x, v3y, v3z. simpl.
    now rewrite Hz, Hy.
  - destruct c as [[x y] z]. unfold v3x, v3y, v3z. simpl.
    destruct (nth_Z v z) as [plane|] eqn:Hz; [|discriminate].
    destruct (nth_Z plane y) as [row|] eqn:Hy; [|discriminate].
    intros Hx.
    exists (imap_from 0 (fun x p => ((x, y, z), p)) row). split.
    + apply in_concat.
      exists (imap_from 0 (fun y row =>
                imap_from 0 (fun x p => ((x, y, z), p)) row) plane).
      split; apply in_imap_from; eauto.
    + apply in_imap_from. eauto.
Qed.

Lemma map_imap_from_id {A B} (h : B -> A) (f : Z -> A -> B) (l : list A) :
  (forall k a, h (f k a) = a) -> forall i, map h (imap_from i f l) = l.
Proof.
  intros Hh. induction l as [|a l IH]; intros i; simpl; [reflexivity|].
  now rewrite Hh, IH.
Qed.

Lemma map_snd_vol_enum {A} (v : volume A) :
  map snd (vol_enum v) = concat (concat v).
Proof.
  unfold vol_enum, vol_imap. rewrite !concat_map. do 2 f_equal.
  apply map_imap_from_id. intros z plane.
  apply map_imap_from_id. intros y row.
  apply map_imap_from_id. reflexivity.
Qed.

Lemma in_imap_from_index {A B} (f : Z -> A -> B) (l : list A) (b : B) :
  forall i, In b (imap_from i f l) -> exists k a, i <= k /\ b = f k a.
Proof.
  induction l as [|a l IH]; intros i H; simpl in H; [contradiction|].
  destruct H as [<-|H].
  - exists i, a. split; [lia|reflexivity].
  - destruct (IH _ H) as [k [a' [Hk ->]]]. exists k, a'. split; [lia|reflexivity].
Qed.

Lemma NoDup_row_enum {A} (row : list A) (y z : Z) :
  forall i, NoDup (map fst (imap_from i (fun x p => ((x, y, z), p)) row)).
Proof.
  induction row as [|p row IH]; intros i; simpl; constructor; [|apply IH].
  intros H. apply in_map_iff in H. destruct H as [[c q] [Hc Hin]].
  apply in_imap_from_index in Hin. destruct Hin as [k [a [Hk Heq]]].
  injection Heq as -> ->. simpl in Hc. injection Hc as Hi. lia.
Qed.

Lemma NoDup_plane_enum {A} (plane : list (list A)) (z : Z) :
  forall j,
    NoDup (map fst (concat (imap_from j (fun y row =>
             imap_from 0 (fun x p => ((x, y, z), p)) row) plane))).
Proof.
  induction plane as [|row plane IH]; intros j; simpl; [constructor|].
  rewrite map_app. apply NoDup_app; [apply NoDup_row_enum|apply IH|].
  intros c Hc Hc'.
  apply in_map_iff in Hc. destruct Hc as [[c1 q1] [E1 H1]].
  apply in_map_iff in Hc'. destruct Hc' as [[c2 q2] [E2 H2]].
  simpl in E1, E2. subst c1 c2.
  apply in_imap_from_index in H1. destruct H1 as [x1 [a1 [_ Heq1]]].
  apply in_concat in H2. destruct H2 as [row' [Hrow' H2]].
  apply in_imap_from_index in Hrow'. destruct Hrow' as [y2 [r2 [Hy2 ->]]].
  apply in_imap_from_index in H2. destruct H2 as [x2 [a2 [_ Heq2]]].
  inversion Heq1; subst. inversion Heq2. lia.
Qed.

Lemma NoDup_vol_enum {A} (v : volume A) : NoDup (map fst (vol_enum v)).
Proof.
  unfold vol_enum, vol_imap. generalize 0 at 1.
  induction v as [|plane v IH]; intros k; simpl; [constructor|].
  rewrite concat_app, map_app.
  apply NoDup_app; [apply NoDup_plane_enum|apply IH|].
  intros c Hc Hc'.
  apply in_map_iff in Hc. destruct Hc as [[c1 q1] [E1 H1]].
  apply in_map_iff in Hc'. destruct Hc' as [[c2 q2] [E2 H2]].
  simpl in E1, E2. subst c1 c2.
  apply in_concat in H1. destruct H1 as [row1 [Hrow1 H1]].
  apply in_imap_from_index in Hrow1. destruct Hrow1 as [y1 [r1 [_ ->]]].
  apply in_imap_from_index in H1. destruct H1 as [x1 [a1 [_ Heq1]]].
  apply in_concat in H2. destruct H2 as [row2 [Hrow2 H2]].
  apply in_concat in Hrow2. destruct Hrow2 as [plane2 [Hplane2 Hrow2]].
  apply in_imap_from_index in Hplane2. destruct Hplane2 as [z2 [p2 [Hz2 ->]]].
  apply in_imap_from_index in Hrow2. destruct Hrow2 as [y2 [r2 [_ ->]]].
  apply in_imap_from_index in H2. destruct H2 as [x2 [a2 [_ Heq2]]].
  inversion Heq1; subst. inversion Heq2. lia.
Qed.

Lemma in_vol_flatten (v : volume Z) (p : Z) :
  In p (vol_flatten v) <-> exists c, vol_get v c = Some p.
Proof.
  unfold vol_flatten. rewrite <- map_snd_vol_enum, in_map_iff. split.
  - intros [[c q] [E H]]. simpl in E. subst q. exists c.
    now apply in_vol_enum.
  - intros [c H]. exists (c, p). split; [reflexivity|now apply in_vol_enum].
Qed.

Lemma in_voxels_of (L : volume Z) (l : Z) (c : vec3 Z) :
  In c (voxels_of L l) <-> vol_get L c = Some l.
Proof.
  unfold voxels_of. rewrite in_map_iff. split.
  - intros [[c' q] [E H]]. simpl in E. subst c'.
    apply filter_In in H. destruct H as [H Hq]. simpl in Hq.
    apply Z.eqb_eq in Hq. subst q. now apply in_vol_enum.
  - intros H. exists (c, l). split; [reflexivity|].
    apply filter_In. split; [now apply in_vol_enum|]. simpl. apply Z.eqb_refl.
Qed.

Lemma NoDup_map_fst_filter {A B} (f : A * B -> bool) (l : list (A * B)) :
  NoDup (map fst l) -> NoDup (map fst (filter f l)).
Proof.
  induction l as [|a l IH]; simpl; intros H; [constructor|].
  inversion H as [|? ? Hn Hd]; subst.
  destruct (f a); simpl; [|now apply IH].
  constructor; [|now apply IH].
  intros Hin. apply Hn. apply in_map_iff in Hin.
  destruct Hin as [x [E Hx]]. apply filter_In in Hx.
  apply in_map_iff. exists x. tauto.
Qed.

Lemma NoDup_voxels_of (L : volume Z) (l : Z) : NoDup (voxels_of L l).
Proof. apply NoDup_map_fst_filter, NoDup_vol_enum. Qed.

Lemma count_occ_filter_eqb (l : list Z) (x : Z) :
  count_occ Z.eq_dec l x = length (filter (fun y => y =? x) l).
Proof.
  induction l as [|y l IH]; simpl; [reflexivity|].
  destruct (Z.eq_dec y x) as [->|Hn].
  - rewrite Z.eqb_refl. simpl. now rewrite IH.
  - destruct (Z.eqb_spec y x); [contradiction|assumption].
Qed.

Lemma filter_map_swap {A B} (f : B -> bool) (g : A -> B) (l : list A) :
  filter f (map g l) = map g (filter (fun a => f (g a)) l).
Proof.
  induction l as [|a l IH]; simpl; [reflexivity|].
  destruct (f (g a)); simpl; now rewrite IH.
Qed.

Lemma object_size_voxels (L : volume Z) (l : Z) :
  object_size L l = Z.of_nat (length (voxels_of L l)).
Proof.
  unfold object_size, voxels_of, vol_flatten.
  rewrite count_occ_filter_eqb, <- map_snd_vol_enum, filter_map_swap.
  now rewrite !length_map.
Qed.

(** ** Label propagation *)

Lemma in_unit_offsets (k : Z) : In k [-1; 0; 1] <-> -1 <= k <= 1.
Proof. simpl. lia. Qed.

Lemma in_offsets26 (d : vec3 Z) :
  In d offsets26 <->
  -1 <= v3x d <= 1 /\ -1 <= v3y d <= 1 /\ -1 <= v3z d <= 1.
Proof.
  unfold offsets26. rewrite in_flat_map. split.
  - intros [dz [Hz H]]. apply in_flat_map in H. destruct H as [dy [Hy H]].
    apply in_map_iff in H. destruct H as [dx [<- Hx]].
    apply in_unit_offsets in Hx, Hy, Hz. unfold v3x, v3y, v3z. simpl. lia.
  - destruct d as [[dx dy] dz]. unfold v3x, v3y, v3z. cbn [fst snd].
    intros H.
    exists dz. split; [apply in_unit_offsets; lia|]. apply in_flat_map.
    exists dy. split; [apply in_unit_offsets; lia|]. apply in_map_iff.
    exists dx. split; [reflexivity|apply in_unit_offsets; lia].
Qed.

Lemma adjacent26_offset (u w : vec3 Z) :
  adjacent26 u w <-> exists d, In d offsets26 /\ w = v3add u d.
Proof.
  destruct u as [[ux uy] uz], w as [[wx wy] wz]. unfold adjacent26. split.
  - intros H. exists (wx - ux, wy - uy, wz - uz). split.
    + apply in_offsets26. v3_arith.
    + unfold v3add. v3_arith. f_equal; [f_equal|]; lia.
  - intros [d [Hd Hw]]. apply in_offsets26 in Hd.
    unfold v3add in Hw. v3_arith. injection Hw as -> -> ->. lia.
Qed.

Lemma adjacent26_sym (u w : vec3 Z) : adjacent26 u w -> adjacent26 w u.
Proof. unfold adjacent26. lia. Qed.

Section NeighbourMin.

Variable L : volume Z.
Variable c : vec3 Z.

Let step (acc : Z) (d : vec3 Z) : Z :=
  match vol_get L (v3add c d) with
  | Some q => if q =? 0 then acc else Z.min acc q
  | None => acc
  end.

Lemma fold_min_le (ds : list (vec3 Z)) :
  forall acc, fold_left step ds acc <= acc.
Proof.
  induction ds as [|d ds IH]; intros acc; simpl; [lia|].
  specialize (IH (step acc d)). unfold step in *.
  destruct (vol_get L (v3add c d)) as [q|]; [|assumption].
  destruct (q =? 0); lia.
Qed.

Lemma fold_min_lower (ds : list (vec3 Z)) :
  forall acc d q,
    In d ds -> vol_get L (v3add c d) = Some q -> q <> 0 ->
    fold_left step ds acc <= q.
Proof.
  induction ds as [|d0 ds IH]; intros acc d q Hd Hq Hq0; simpl;
    [contradiction|].
  destruct Hd as [->|Hd].
  - pose proof (fold_min_le ds (step acc d)) as Hle.
    assert (Hs : step acc d <= q).
    { unfold step. rewrite Hq.
      destruct (Z.eqb_spec q 0); [contradiction|]. lia. }
    lia.
  - eapply IH; eassumption.
Qed.

Lemma fold_min_attained (ds : list (vec3 Z)) :
  forall acc,
    fold_left step ds acc = acc \/
    exists d q, In d ds /\ vol_get L (v3add c d) = Some q /\ q <> 0 /\
                fold_left step ds acc = q.
Proof.
  induction ds as [|d0 ds IH]; intros acc; simpl; [now left|].
  destruct (IH (step acc d0)) as [H|[d [q [Hd [Hq [Hq0 H]]]]]].
  - rewrite H. unfold step.
    destruct (vol_get L (v3add c d0)) as [q|] eqn:Eq; [|now left].
    destruct (Z.eqb_spec q 0); [now left|].
    destruct (Z.min_spec acc q) as [[_ ->]|[_ ->]]; [now left|].
    right. exists d0, q. auto.
  - right. exists d, q. auto.
Qed.

End NeighbourMin.

Lemma neighbour_min_le (L : volume Z) (c : vec3 Z) (l : Z) :
  neighbour_min L c l <= l.
Proof. apply fold_min_le. Qed.

Lemma neighbour_min_lower (L : volume Z) (c w : vec3 Z) (l q : Z) :
  adjacent26 c w -> vol_get L w = Some q -> q <> 0 ->
  neighbour_min L c l <= q.
Proof.
  intros Ha Hq Hq0. apply adjacent26_offset in Ha.
  destruct Ha as [d [Hd ->]]. eapply fold_min_lower; eassumption.
Qed.

Lemma neighbour_min_attained (L : volume Z) (c : vec3 Z) (l : Z) :
  neighbour_min L c l = l \/
  exists w q, adjacent26 c w /\ vol_get L w = Some q /\ q <> 0 /\
              neighbour_min L c l = q.
Proof.
  destruct (fold_min_attained L c offsets26 l) as [H|[d [q [Hd [Hq [Hq0 H]]]]]].
  - now left.
  - right. exists (v3add c d), q. split; [|auto].
    apply adjacent26_offset. eauto.
Qed.

Lemma connected26_foreground (b : volume Z) (u w : vec3 Z) :
  connected26 b u w -> foreground b u /\ foreground b w.
Proof. induction 1; tauto. Qed.

Lemma connected26_trans (b : volume Z) (u v w : vec3 Z) :
  connected26 b u v -> connected26 b v w -> connected26 b u w.
Proof.
  intros Huv Hvw. induction Hvw as [v Hv|v v' w Hvv' IH Hw Ha].
  - assumption.
  - eapply connected26_step; [apply IH; assumption|assumption|assumption].
Qed.

Lemma connected26_sym (b : volume Z) (u w : vec3 Z) :
  connected26 b u w -> connected26 b w u.
Proof.
  induction 1 as [u Hu|u v w Huv IH Hw Ha].
  - now constructor.
  - apply connected26_trans with v; [|assumption].
    apply connected26_step with w.
    + now constructor.
    + apply (connected26_foreground _ _ _ Huv).
    + now apply adjacent26_sym.
Qed.

Lemma vol_get_nonneg {A} (v : volume A) (c : vec3 Z) (p : A) :
  vol_get v c = Some p -> 0 <= v3x c /\ 0 <= v3y c /\ 0 <= v3z c.
Proof.
  unfold vol_get.
  destruct (nth_Z v (v3z c)) as [plane|] eqn:Ez; [|discriminate].
  destruct (nth_Z plane (v3y c)) as [row|] eqn:Ey; [|discriminate].
  intros Ex. apply nth_Z_bounds in Ez, Ey, Ex. lia.
Qed.

Lemma vol_size_nonneg {A} (v : volume A) :
  0 <= v3x (vol_size v) /\ 0 <= v3y (vol_size v) /\ 0 <= v3z (vol_size v).
Proof. unfold vol_size, v3x, v3y, v3z. simpl. lia. Qed.

Lemma raster_id_pos (size c : vec3 Z) :
  0 <= v3x size -> 0 <= v3y size ->
  0 <= v3x c -> 0 <= v3y c -> 0 <= v3z c -> 0 < raster_id size c.
Proof. unfold raster_id. nia. Qed.

Lemma vol_get_seed_labels (b : volume Z) (c : vec3 Z) :
  vol_get (seed_labels b) c
  = option_map (fun p => if p =? 0 then 0 else raster_id (vol_size b) c)
               (vol_get b c).
Proof. unfold seed_labels. apply vol_get_imap. Qed.

Lemma vol_get_propagate_step (L : volume Z) (c : vec3 Z) :
  vol_get (propagate_step L) c
  = option_map (fun l => if l =? 0 then 0 else neighbour_min L c l)
               (vol_get L c).
Proof. unfold propagate_step. apply vol_get_imap. Qed.

Lemma seed_labels_inv (b : volume Z) : labelling_inv b (seed_labels b).
Proof.
  split.
  - intros c. rewrite vol_get_seed_labels.
    destruct (vol_get b c); simpl; split; congruence.
  - intros c l. rewrite vol_get_seed_labels.
    destruct (vol_get b c) as [p|] eqn:Ep; simpl; [|discriminate].
    intros H. injection H as <-.
    pose proof (vol_get_nonneg _ _ _ Ep) as [Hx [Hy Hz]].
    pose proof (vol_size_nonneg b) as [Sx [Sy _]].
    pose proof (raster_id_pos (vol_size b) c Sx Sy Hx Hy Hz) as Hpos.
    destruct (Z.eqb_spec p 0) as [->|Hp].
    + split; [reflexivity|congruence].
    + split; [lia|]. intros _. split; [assumption|].
      exists c. split; [|reflexivity]. constructor. exists p. auto.
Qed.

Lemma propagate_step_inv (b L : volume Z) :
  labelling_inv b L -> labelling_inv b (propagate_step L).
Proof.
  intros [Hdom Hlab]. split.
  - intros c. rewrite vol_get_propagate_step, <- Hdom.
    destruct (vol_get L c); simpl; split; congruence.
  - intros c l'. rewrite vol_get_propagate_step.
    destruct (vol_get L c) as [l|] eqn:El; simpl; [|discriminate].
    intros H. injection H as <-.
    destruct (Hlab c l El) as [H0 H1].
    destruct (Z.eqb_spec l 0) as [->|Hl].
    + split; [auto|congruence].
    + destruct (H1 Hl) as [Hpos [u [Hu Hid]]].
      destruct (neighbour_min_attained L c l) as [->|[w [q [Ha [Hq [Hq0 ->]]]]]].
      * split; [congruence|]. intros _. split; [assumption|]. eauto.
      * destruct (Hlab w q Hq) as [_ Hw]. destruct (Hw Hq0) as [Hqpos [a [Hcon Ha']]].
        split; [congruence|]. intros _. split; [assumption|].
        exists a. split; [|assumption].
        apply connected26_step with w; [assumption| |now apply adjacent26_sym].
        apply (connected26_foreground _ _ _ Hu).
Qed.

Lemma propagate_inv (b : volume Z) (fuel : nat) :
  forall L, labelling_inv b L -> labelling_inv b (propagate fuel L).
Proof.
  induction fuel as [|fuel IH]; intros L HL; simpl; [assumption|].
  destruct (vol_eq_dec (propagate_step L) L); [assumption|].
  apply IH. now apply propagate_step_inv.
Qed.

(** *** Propagation reaches a fixed point *)

Lemma list_sum_app (l1 l2 : list Z) :
  list_sum (l1 ++ l2) = list_sum l1 + list_sum l2.
Proof. induction l1 as [|a l1 IH]; simpl; lia. Qed.

Lemma list_sum_concat (ll : list (list Z)) :
  list_sum (concat ll) = list_sum (map list_sum ll).
Proof.
  induction ll as [|l ll IH]; simpl; [reflexivity|].
  now rewrite list_sum_app, IH.
Qed.

Lemma imap_from_measure {A} (eq_dec : forall x y : A, {x = y} + {x <> y})
    (m : A -> Z) (f : Z -> A -> A) (l : list A) :
  (forall k a, In a l -> m (f k a) <= m a /\ (f k a <> a -> m (f k a) < m a)) ->
  forall i,
    list_sum (map m (imap_from i f l)) <= list_sum (map m l) /\
    (imap_from i f l <> l ->
     list_sum (map m (imap_from i f l)) < list_sum (map m l)).
Proof.
  induction l as [|a l IH]; intros Hf i; simpl.
  - split; [lia|congruence].
  - destruct (Hf i a (or_introl eq_refl)) as [Hle Hlt].
    destruct (IH (fun k a' Ha' => Hf k a' (or_intror Ha')) (i + 1))
      as [IHle IHlt].
    split; [lia|]. intros Hne.
    destruct (eq_dec (f i a) a) as [Ea|Na].
    + rewrite Ea in *.
      assert (Ht : imap_from (i + 1) f l <> l) by congruence.
      specialize (IHlt Ht). lia.
    + specialize (Hlt Na). lia.
Qed.

Lemma vol_sum_planes (v : volume Z) :
  vol_sum v = list_sum (map (fun plane => list_sum (map list_sum plane)) v).
Proof.
  unfold vol_sum, vol_flatten.
  induction v as [|plane v IH]; simpl; [reflexivity|].
  now rewrite concat_app, list_sum_app, IH, list_sum_concat.
Qed.

Lemma vol_imap_sum (g : vec3 Z -> Z -> Z) (v : volume Z) :
  (forall c l, g c l <= l) ->
  vol_sum (vol_imap g v) <= vol_sum v /\
  (vol_imap g v <> v -> vol_sum (vol_imap g v) < vol_sum v).
Proof.
  intros Hg. rewrite !vol_sum_planes. unfold vol_imap.
  apply (imap_from_measure (list_eq_dec (list_eq_dec Z.eq_dec))).
  intros z plane _.
  apply (imap_from_measure (list_eq_dec Z.eq_dec)).
  intros y row _.
  assert (Hrow : forall x l, In l row ->
             g (x, y, z) l <= l /\ (g (x, y, z) l <> l -> g (x, y, z) l < l)).
  { intros x l _. specialize (Hg (x, y, z) l). lia. }
  pose proof (imap_from_measure Z.eq_dec (fun l => l)
                (fun x l => g (x, y, z) l) row Hrow 0) as H.
  rewrite !map_id in H. exact H.
Qed.

Lemma propagate_step_sum (L : volume Z) :
  propagate_step L <> L -> vol_sum (propagate_step L) < vol_sum L.
Proof.
  apply vol_imap_sum. intros c l.
  destruct (l =? 0) eqn:E; [apply Z.eqb_eq in E; lia|].
  apply neighbour_min_le.
Qed.

Lemma list_sum_nonneg (l : list Z) :
  (forall x, In x l -> 0 <= x) -> 0 <= list_sum l.
Proof.
  induction l as [|a l IH]; intros H; simpl; [lia|].
  pose proof (H a (or_introl eq_refl)).
  pose proof (IH (fun x Hx => H x (or_intror Hx))). lia.
Qed.

Lemma labelling_inv_sum_nonneg (b L : volume Z) :
  labelling_inv b L -> 0 <= vol_sum L.
Proof.
  intros [_ Hlab]. apply list_sum_nonneg. intros l Hl.
  apply in_vol_flatten in Hl. destruct Hl as [c Hc].
  destruct (Hlab c l Hc) as [_ H].
  destruct (Z.eq_dec l 0) as [->|Hn]; [lia|]. destruct (H Hn). lia.
Qed.

Lemma propagate_fixpoint (b : volume Z) (fuel : nat) :
  forall L,
    labelling_inv b L -> vol_sum L < Z.of_nat fuel ->
    propagate_step (propagate fuel L) = propagate fuel L.
Proof.
  induction fuel as [|fuel IH]; intros L HL Hsum; simpl.
  - pose proof (labelling_inv_sum_nonneg b L HL). lia.
  - destruct (vol_eq_dec (propagate_step L) L) as [E|N]; [assumption|].
    apply IH; [now apply propagate_step_inv|].
    pose proof (propagate_step_sum L N). lia.
Qed.

Lemma component_labels_inv (b : volume Z) :
  labelling_inv b (component_labels b).
Proof. apply propagate_inv, seed_labels_inv. Qed.

Lemma component_labels_fixpoint (b : volume Z) :
  propagate_step (component_labels b) = component_labels b.
Proof.
  unfold component_labels. cbv zeta.
  apply (propagate_fixpoint b); [apply seed_labels_inv|].
  pose proof (labelling_inv_sum_nonneg b _ (seed_labels_inv b)). lia.
Qed.

(** *** Labels and connectivity *)

Lemma raster_id_inj (size c c' : vec3 Z) :
  in_grid c size -> in_grid c' size ->
  raster_id size c = raster_id size c' -> c = c'.
Proof.
  destruct c as [[x y] z], c' as [[x' y'] z'], size as [[nx ny] nz].
  unfold in_grid, raster_id, v3x, v3y, v3z. cbn [fst snd].
  intros [Hx [Hy Hz]] [Hx' [Hy' Hz']] H.
  destruct (Z.div_mod_unique nx (y + ny * z) (y' + ny * z') x x')
    as [E1 ->]; [lia|lia|lia|].
  destruct (Z.div_mod_unique ny z z' y y') as [-> ->]; [lia|lia|lia|].
  reflexivity.
Qed.

Lemma labelling_inv_foreground (b L : volume Z) (c : vec3 Z) :
  labelling_inv b L ->
  (foreground b c <-> exists l, vol_get L c = Some l /\ l <> 0).
Proof.
  intros [Hdom Hlab]. split.
  - intros [p [Hp Hp0]].
    destruct (vol_get L c) as [l|] eqn:El.
    + exists l. split; [reflexivity|]. intros ->.
      destruct (Hlab c 0 El) as [H _]. specialize (H eq_refl). congruence.
    + apply Hdom in El. congruence.
  - intros [l [Hl Hl0]]. destruct (Hlab c l Hl) as [_ H].
    destruct (H Hl0) as [_ [u [Hu _]]].
    apply (connected26_foreground _ _ _ Hu).
Qed.

Lemma fixpoint_adjacent_le (L : volume Z) (v w : vec3 Z) (lv lw : Z) :
  propagate_step L = L ->
  vol_get L v = Some lv -> lv <> 0 -> vol_get L w = Some lw -> lw <> 0 ->
  adjacent26 v w -> lv <= lw.
Proof.
  intros Hfix Hv Hv0 Hw Hw0 Ha.
  pose proof (vol_get_propagate_step L v) as H.
  rewrite Hfix, Hv in H. simpl in H.
  destruct (Z.eqb_spec lv 0); [contradiction|].
  injection H as H. rewrite H.
  eapply neighbour_min_lower; eassumption.
Qed.

Lemma component_labels_connected (b : volume Z) (u w : vec3 Z) :
  connected26 b u w ->
  label_at (component_labels b) u = label_at (component_labels b) w.
Proof.
  pose proof (component_labels_inv b) as Hinv.
  pose proof (component_labels_fixpoint b) as Hfix.
  induction 1 as [u Hu|u v w Huv IH Hw Ha]; [reflexivity|].
  rewrite IH.
  destruct (connected26_foreground _ _ _ Huv) as [_ Hv].
  apply (labelling_inv_foreground _ _ _ Hinv) in Hv, Hw.
  destruct Hv as [lv [Hv Hv0]], Hw as [lw [Hw Hw0]].
  unfold label_at. rewrite Hv, Hw.
  pose proof (fixpoint_adjacent_le _ v w lv lw Hfix Hv Hv0 Hw Hw0 Ha).
  pose proof (fixpoint_adjacent_le _ w v lw lv Hfix Hw Hw0 Hv Hv0
                (adjacent26_sym _ _ Ha)).
  lia.
Qed.

Lemma component_labels_same (b : volume Z) (u w : vec3 Z) :
  rectangular b ->
  label_at (component_labels b) u <> 0 ->
  label_at (component_labels b) u = label_at (component_labels b) w ->
  connected26 b u w.
Proof.
  intros Hr Hu0 Heq.
  destruct (component_labels_inv b) as [Hdom Hlab].
  unfold label_at in *.
  destruct (vol_get (component_labels b) u) as [lu|] eqn:Eu; [|congruence].
  destruct (vol_get (component_labels b) w) as [lw|] eqn:Ew; [|congruence].
  subst lw.
  destruct (Hlab u lu Eu) as [_ Hu]. destruct (Hu Hu0) as [_ [a [Hau Ha]]].
  destruct (Hlab w lu Ew) as [_ Hw]. destruct (Hw Hu0) as [_ [a' [Haw Ha']]].
  assert (a = a').
  { apply (raster_id_inj (vol_size b)); [| |congruence].
    - destruct (connected26_foreground _ _ _ Hau) as [[p [Hp _]] _].
      eapply rectangular_in_grid; eassumption.
    - destruct (connected26_foreground _ _ _ Haw) as [[p [Hp _]] _].
      eapply rectangular_in_grid; eassumption. }
  subst a'. apply connected26_trans with a; [|assumption].
  now apply connected26_sym.
Qed.

(** ** Numbering and sorting objects *)

Lemma in_insert_sorted (x y : Z) (l : list Z) :
  In y (insert_sorted x l) <-> y = x \/ In y l.
Proof.
  induction l as [|a l IH]; simpl; [intuition|].
  destruct (x <? a); simpl; [intuition|].
  destruct (Z.eqb_spec x a) as [->|Hn]; simpl; intuition.
Qed.

Lemma in_label_set (L : volume Z) (l : Z) :
  In l (label_set L) <-> l <> 0 /\ exists c, vol_get L c = Some l.
Proof.
  unfold label_set. rewrite <- in_vol_flatten.
  induction (vol_flatten L) as [|a fl IH]; simpl; [tauto|].
  destruct (Z.eqb_spec a 0) as [->|Ha]; simpl.
  - rewrite IH. intuition congruence.
  - rewrite in_insert_sorted, IH. intuition congruence.
Qed.

Lemma index_of_nonneg (x : Z) (l : list Z) (i : Z) :
  index_of x l = Some i -> 0 <= i.
Proof.
  revert i. induction l as [|a l IH]; intros i; simpl; [discriminate|].
  destruct (x =? a); [intros H; injection H as <-; lia|].
  destruct (index_of x l) as [j|]; simpl; [|discriminate].
  intros H. injection H as <-. specialize (IH j eq_refl). lia.
Qed.

Lemma index_of_in (x : Z) (l : list Z) :
  In x l <-> exists i, index_of x l = Some i.
Proof.
  induction l as [|a l IH]; simpl.
  - split; [contradiction|intros [i H]; discriminate].
  - destruct (Z.eqb_spec x a) as [->|Hn].
    + split; [eauto|auto].
    + rewrite IH. split.
      * intros [H|[i H]]; [congruence|]. rewrite H. simpl. eauto.
      * intros [i H]. right.
        destruct (index_of x l) as [j|]; [eauto|discriminate].
Qed.

Lemma index_of_inj (x y : Z) (l : list Z) (i : Z) :
  index_of x l = Some i -> index_of y l = Some i -> x = y.
Proof.
  revert i. induction l as [|a l IH]; intros i; simpl; [discriminate|].
  destruct (Z.eqb_spec x a) as [->|Hx], (Z.eqb_spec y a) as [->|Hy].
  - reflexivity.
  - intros H1 H2. injection H1 as <-.
    destruct (index_of y l) as [j|] eqn:E; [|discriminate].
    apply index_of_nonneg in E. simpl in H2. injection H2 as H2. lia.
  - intros H1 H2. injection H2 as <-.
    destruct (index_of x l) as [j|] eqn:E; [|discriminate].
    apply index_of_nonneg in E. simpl in H1. injection H1 as H1. lia.
  - destruct (index_of x l) as [j|]; [|discriminate].
    destruct (index_of y l) as [k|]; [|discriminate].
    simpl. intros H1 H2. injection H1 as <-. injection H2 as H2.
    apply (IH j); [reflexivity|f_equal; lia].
Qed.

Lemma rank_in_zero (objects : list Z) (l : Z) :
  rank_in objects l = 0 <-> ~ In l objects.
Proof.
  unfold rank_in. rewrite index_of_in.
  destruct (index_of l objects) as [i|] eqn:E.
  - apply index_of_nonneg in E. split; [lia|]. intros H. exfalso. eauto.
  - split; [intros _ [i H]; discriminate|reflexivity].
Qed.

Lemma rank_in_nonneg (objects : list Z) (l : Z) : 0 <= rank_in objects l.
Proof.
  unfold rank_in. destruct (index_of l objects) as [i|] eqn:E; [|lia].
  apply index_of_nonneg in E. lia.
Qed.

Lemma rank_in_inj (objects : list Z) (x y : Z) :
  rank_in objects x <> 0 -> rank_in objects x = rank_in objects y -> x = y.
Proof.
  unfold rank_in.
  destruct (index_of x objects) as [i|] eqn:Ex; [|congruence].
  destruct (index_of y objects) as [j|] eqn:Ey.
  - intros _ H. apply (index_of_inj x y objects i); [assumption|].
    rewrite Ey. f_equal. lia.
  - apply index_of_nonneg in Ex. lia.
Qed.

Lemma rank_in_one (objects : list Z) (l : Z) :
  rank_in objects l = 1 <-> hd_error objects = Some l.
Proof.
  unfold rank_in. destruct objects as [|a objects]; cbn [hd_error index_of].
  - split; [lia|discriminate].
  - destruct (Z.eqb_spec l a) as [->|Hn].
    + split; [reflexivity|lia].
    + destruct (index_of l objects) as [i|] eqn:E; cbn [option_map].
      * apply index_of_nonneg in E. split; [lia|congruence].
      * split; [lia|congruence].
Qed.

Lemma in_insert_object (L : volume Z) (a y : Z) (l : list Z) :
  In y (insert_object L a l) <-> y = a \/ In y l.
Proof.
  induction l as [|b l IH]; simpl; [intuition|].
  destruct (object_before L a b); simpl; intuition.
Qed.

Lemma in_objects_by_size (L : volume Z) (l : Z) :
  In l (objects_by_size L) <-> In l (label_set L).
Proof.
  unfold objects_by_size.
  induction (label_set L) as [|a ls IH]; simpl; [tauto|].
  rewrite in_insert_object, IH. intuition.
Qed.

(** The first object of the sorted list is a largest one. *)
Lemma insert_object_head (L : volume Z) (a : Z) (l : list Z) :
  (forall h, hd_error l = Some h ->
             forall y, In y l -> object_size L y <= object_size L h) ->
  forall h, hd_error (insert_object L a l) = Some h ->
            forall y, In y (insert_object L a l) ->
                      object_size L y <= object_size L h.
Proof.
  intros Hd h Hh y Hy. apply in_insert_object in Hy.
  destruct l as [|b l]; simpl in *.
  - injection Hh as <-. destruct Hy as [->|[]]. lia.
  - specialize (Hd b eq_refl).
    unfold object_before in Hh.
    destruct (object_size L a >? object_size L b) eqn:E1; simpl in Hh.
    + injection Hh as <-. apply Z.gtb_lt in E1.
      destruct Hy as [->|Hy]; [lia|]. specialize (Hd y Hy). lia.
    + assert (Hle : object_size L a <= object_size L b).
      { destruct (Z.gtb_spec (object_size L a) (object_size L b));
          [discriminate|lia]. }
      destruct ((object_size L a =? object_size L b) && (a <? b)) eqn:E2.
      * injection Hh as <-. apply andb_true_iff in E2.
        destruct E2 as [E2 _]. apply Z.eqb_eq in E2.
        destruct Hy as [->|Hy]; [lia|]. specialize (Hd y Hy). lia.
      * injection Hh as <-.
        destruct Hy as [->|Hy]; [lia|]. now apply Hd.
Qed.

Lemma objects_by_size_head (L : volume Z) (h : Z) :
  hd_error (objects_by_size L) = Some h ->
  forall y, In y (label_set L) -> object_size L y <= object_size L h.
Proof.
  intros Hh y Hy. apply in_objects_by_size in Hy. revert h Hh y Hy.
  unfold objects_by_size.
  induction (label_set L) as [|a ls IH]; simpl.
  - discriminate.
  - apply insert_object_head. exact IH.
Qed.

Lemma object_size_nonneg (L : volume Z) (l : Z) : 0 <= object_size L l.
Proof. unfold object_size. lia. Qed.

Lemma filter_all {A} (f : A -> bool) (l : list A) :
  (forall a, In a l -> f a = true) -> filter f l = l.
Proof.
  induction l as [|a l IH]; intros H; simpl; [reflexivity|].
  rewrite (H a) by now left. f_equal. apply IH. intros; apply H; now right.
Qed.

(** ** The connected-component filters of SimpleITK *)

Lemma label_at_some (L : volume Z) (c : vec3 Z) (l : Z) :
  l <> 0 -> (label_at L c = l <-> vol_get L c = Some l).
Proof.
  intros Hl. unfold label_at.
  destruct (vol_get L c); split; intros H; congruence.
Qed.

Lemma ConnectedComponent_get (B : Image Z) (c : vec3 Z) :
  GetPixel (ConnectedComponent B) c
  = option_map (rank_in (label_set (component_labels (pixels B))))
               (vol_get (component_labels (pixels B)) c).
Proof. unfold ConnectedComponent. cbv zeta. apply GetPixel_pixelwise. Qed.

Lemma ConnectedComponent_label (B : Image Z) (c : vec3 Z) :
  label_at (pixels (ConnectedComponent B)) c
  = rank_in (label_set (component_labels (pixels B)))
            (label_at (component_labels (pixels B)) c).
Proof.
  unfold label_at. fold (GetPixel (ConnectedComponent B) c).
  rewrite ConnectedComponent_get.
  destruct (vol_get (component_labels (pixels B)) c) as [l|]; simpl;
    [reflexivity|].
  symmetry. apply rank_in_zero. intros H. apply in_label_set in H. tauto.
Qed.

Lemma rank_in_nonzero (objects : list Z) (l : Z) :
  rank_in objects l <> 0 <-> In l objects.
Proof.
  rewrite rank_in_zero.
  destruct (In_dec Z.eq_dec l objects); tauto.
Qed.

Lemma ConnectedComponent_foreground (B : Image Z) (c : vec3 Z) :
  label_at (pixels (ConnectedComponent B)) c <> 0 <-> foreground (pixels B) c.
Proof.
  rewrite ConnectedComponent_label, rank_in_nonzero.
  rewrite (labelling_inv_foreground _ _ c (component_labels_inv (pixels B))).
  split.
  - intros H. apply in_label_set in H. destruct H as [H0 _].
    exists (label_at (component_labels (pixels B)) c).
    split; [|assumption]. now apply label_at_some.
  - intros [l [Hl Hl0]].
    assert (E : label_at (component_labels (pixels B)) c = l)
      by now apply label_at_some.
    rewrite E. apply in_label_set. eauto.
Qed.

Lemma ConnectedComponent_same_label (B : Image Z) (u w : vec3 Z) :
  rectangular (pixels B) ->
  label_at (pixels (ConnectedComponent B)) u <> 0 ->
  (label_at (pixels (ConnectedComponent B)) u
   = label_at (pixels (ConnectedComponent B)) w
   <-> connected26 (pixels B) u w).
Proof.
  intros Hr Hu. rewrite !ConnectedComponent_label in *. split.
  - intros H. apply component_labels_same; [assumption| |].
    + apply rank_in_nonzero, in_label_set in Hu. tauto.
    + eapply rank_in_inj; eassumption.
  - intros H. now rewrite (component_labels_connected _ _ _ H).
Qed.

Lemma RelabelComponent_get (I : Image Z) (t : Z) (c : vec3 Z) :
  GetPixel (sitk_RelabelComponent I t) c
  = option_map (rank_in (filter (fun l => t <=? object_size (pixels I) l)
                                (objects_by_size (pixels I))))
               (GetPixel I c).
Proof. unfold sitk_RelabelComponent. cbv zeta. apply GetPixel_pixelwise. Qed.

Lemma RelabelComponent_label (I : Image Z) (t : Z) (c : vec3 Z) :
  label_at (pixels (sitk_RelabelComponent I t)) c
  = rank_in (filter (fun l => t <=? object_size (pixels I) l)
                    (objects_by_size (pixels I)))
            (label_at (pixels I) c).
Proof.
  unfold label_at. fold (GetPixel (sitk_RelabelComponent I t) c).
  rewrite RelabelComponent_get. unfold GetPixel.
  destruct (vol_get (pixels I) c) as [l|]; simpl; [reflexivity|].
  symmetry. apply rank_in_zero. intros H. apply filter_In in H.
  destruct H as [H _]. apply in_objects_by_size, in_label_set in H. tauto.
Qed.

Lemma kept_objects_all (L : volume Z) (t : Z) :
  t <= 0 ->
  filter (fun l => t <=? object_size L l) (objects_by_size L)
  = objects_by_size L.
Proof.
  intros Ht. apply filter_all. intros l _. apply Z.leb_le.
  pose proof (object_size_nonneg L l). lia.
Qed.

Lemma in_label_set_label_at (L : volume Z) (c : vec3 Z) :
  label_at L c <> 0 -> In (label_at L c) (label_set L).
Proof.
  intros H. apply in_label_set. split; [assumption|].
  exists c. now apply label_at_some.
Qed.

(** With no minimum size, relabelling removes nothing. *)
Lemma RelabelComponent_zero_foreground (I : Image Z) (c : vec3 Z) :
  label_at (pixels (sitk_RelabelComponent I 0)) c <> 0
  <-> label_at (pixels I) c <> 0.
Proof.
  rewrite RelabelComponent_label, kept_objects_all by lia.
  rewrite rank_in_nonzero, in_objects_by_size. split.
  - intros H. apply in_label_set in H. tauto.
  - apply in_label_set_label_at.
Qed.

Lemma RelabelComponent_zero_one (I : Image Z) (c : vec3 Z) :
  label_at (pixels (sitk_RelabelComponent I 0)) c = 1
  <-> hd_error (objects_by_size (pixels I)) = Some (label_at (pixels I) c).
Proof.
  rewrite RelabelComponent_label, kept_objects_all by lia.
  apply rank_in_one.
Qed.

(** ** The largest component *)

Section LargestComponent.

Variable B : Image Z.
Hypothesis B_rectangular : rectangular (pixels B).

Let CC : volume Z := pixels (ConnectedComponent B).

Lemma objects_head_nonzero (h : Z) :
  hd_error (objects_by_size CC) = Some h ->
  h <> 0 /\ exists c, vol_get CC c = Some h.
Proof.
  intros Hh. apply in_label_set, in_objects_by_size.
  destruct (objects_by_size CC); simpl in Hh; [discriminate|].
  injection Hh as ->. now left.
Qed.

Lemma in_largest_component (c : vec3 Z) :
  In c (largest_component B)
  <-> label_at (pixels (sitk_RelabelComponent (ConnectedComponent B) 0)) c
      = 1.
Proof.
  rewrite RelabelComponent_zero_one. unfold largest_component. fold CC.
  destruct (hd_error (objects_by_size CC)) as [h|] eqn:Eh.
  - destruct (objects_head_nonzero h Eh) as [Hh _].
    rewrite in_voxels_of, <- (label_at_some CC c h Hh).
    split; congruence.
  - split; [contradiction|discriminate].
Qed.

Lemma NoDup_largest_component : NoDup (largest_component B).
Proof.
  unfold largest_component.
  destruct (hd_error _); [apply NoDup_voxels_of|constructor].
Qed.

Lemma largest_component_label (c : vec3 Z) :
  In c (largest_component B) ->
  exists h, hd_error (objects_by_size CC) = Some h /\ h <> 0 /\
            label_at CC c = h.
Proof.
  unfold largest_component. fold CC.
  destruct (hd_error (objects_by_size CC)) as [h|] eqn:Eh; [|contradiction].
  intros H. apply in_voxels_of in H.
  destruct (objects_head_nonzero h Eh) as [Hh _].
  exists h. split; [reflexivity|]. split; [assumption|].
  now apply label_at_some.
Qed.

Lemma largest_component_foreground (c : vec3 Z) :
  In c (largest_component B) -> foreground (pixels B) c.
Proof.
  intros H. destruct (largest_component_label c H) as [h [_ [Hh Hc]]].
  apply ConnectedComponent_foreground. fold CC. congruence.
Qed.

Lemma largest_component_connected (u v : vec3 Z) :
  In u (largest_component B) -> In v (largest_component B) ->
  connected26 (pixels B) u v.
Proof.
  intros Hu Hv.
  destruct (largest_component_label u Hu) as [h [Eh [Hh Hlu]]].
  destruct (largest_component_label v Hv) as [h' [Eh' [_ Hlv]]].
  apply ConnectedComponent_same_label; [assumption| |]; fold CC; congruence.
Qed.

Lemma largest_component_closed (u v : vec3 Z) :
  In u (largest_component B) -> connected26 (pixels B) u v ->
  In v (largest_component B).
Proof.
  intros Hu Huv.
  destruct (largest_component_label u Hu) as [h [Eh [Hh Hlu]]].
  assert (Hlv : label_at CC v = h).
  { rewrite <- Hlu. symmetry.
    apply ConnectedComponent_same_label; [assumption| |assumption].
    fold CC. congruence. }
  unfold largest_component. fold CC. rewrite Eh.
  apply in_voxels_of. now apply label_at_some.
Qed.

Lemma largest_component_largest (w : vec3 Z) (ws : list (vec3 Z)) :
  NoDup ws -> (forall c, In c ws -> connected26 (pixels B) w c) ->
  (length ws <= length (largest_component B))%nat.
Proof.
  intros Hnd Hws. destruct ws as [|c0 ws']; [simpl; lia|].
  set (ws := c0 :: ws') in *.
  assert (Hw : foreground (pixels B) w).
  { apply (connected26_foreground _ _ _ (Hws c0 (or_introl eq_refl))). }
  apply ConnectedComponent_foreground in Hw. fold CC in Hw.
  set (x := label_at CC w) in *.
  assert (Hx : In x (label_set CC)) by now apply in_label_set_label_at.
  assert (Hincl : incl ws (voxels_of CC x)).
  { intros c Hc. apply in_voxels_of. apply label_at_some; [assumption|].
    symmetry.
    apply ConnectedComponent_same_label; [assumption|assumption|].
    now apply Hws. }
  pose proof (NoDup_incl_length Hnd Hincl) as Hlen.
  unfold largest_component. fold CC.
  destruct (hd_error (objects_by_size CC)) as [h|] eqn:Eh.
  - pose proof (objects_by_size_head CC h Eh x Hx) as Hsz.
    rewrite !object_size_voxels in Hsz. lia.
  - apply in_objects_by_size in Hx.
    destruct (objects_by_size CC); [contradiction|discriminate].
Qed.

Lemma largest_component_nonempty :
  (exists c, foreground (pixels B) c) -> largest_component B <> [].
Proof.
  intros [c Hc]. apply ConnectedComponent_foreground in Hc. fold CC in Hc.
  apply in_label_set_label_at, in_objects_by_size in Hc.
  unfold largest_component. fold CC.
  destruct (hd_error (objects_by_size CC)) as [h|] eqn:Eh.
  - destruct (objects_head_nonzero h Eh) as [_ [c' Hc']].
    apply in_voxels_of in Hc'. intros E. rewrite E in Hc'. contradiction.
  - destruct (objects_by_size CC); [contradiction|discriminate].
Qed.

End LargestComponent.

(** ** Recombining the per-label masks *)

Lemma cast_uint8_zero_term (acc l : Z) :
  0 <= acc <= 255 ->
  cast_pixel sitkUInt8 (acc + cast_pixel sitkUInt8 (l * 0)) = acc.
Proof.
  intros H. rewrite Z.mul_0_r. rewrite (cast_uint8_small 0) by lia.
  rewrite Z.add_0_r. now apply cast_uint8_small.
Qed.

Section Recombine.

(** At one voxel, whose label in the mask is [p]: [beta l] is the value of
    the mask built for the label [l], which is 0 or 1, and 1 only where
    the voxel carries [l]. *)
Variable beta : Z -> Z.
Variable p : Z.
Hypothesis beta_bit : forall l, beta l = 0 \/ beta l = 1.
Hypothesis beta_label : forall l, beta l = 1 -> l = p.

Let step (acc l : Z) : Z :=
  cast_pixel sitkUInt8 (acc + cast_pixel sitkUInt8 (l * beta l)).

Lemma fold_other_labels (rest : list Z) :
  ~ In p rest ->
  forall acc, 0 <= acc <= 255 -> fold_left step rest acc = acc.
Proof.
  induction rest as [|l rest IH]; intros Hp acc Hacc; simpl;
    [reflexivity|].
  assert (Hl : beta l = 0).
  { destruct (beta_bit l) as [H|H]; [assumption|].
    exfalso. apply Hp. left. now apply beta_label. }
  unfold step at 2. rewrite Hl, cast_uint8_zero_term by assumption.
  apply IH; [|assumption]. intros H. apply Hp. now right.
Qed.

Lemma fold_own_label (rest : list Z) :
  NoDup rest -> In p rest -> 0 <= p <= 255 ->
  fold_left step rest 0 = p * beta p.
Proof.
  induction rest as [|l rest IH]; intros Hnd Hin Hp; simpl;
    [contradiction|].
  inversion Hnd as [|? ? Hnl Hnd']; subst.
  destruct (Z.eq_dec l p) as [->|Hne].
  - assert (Hv : 0 <= p * beta p <= 255)
      by (destruct (beta_bit p) as [-> | ->]; lia).
    unfold step at 2. rewrite Z.add_0_l.
    rewrite !(cast_uint8_small (p * beta p)) by assumption.
    now apply fold_other_labels.
  - assert (Hl : beta l = 0).
    { destruct (beta_bit l) as [H|H]; [assumption|].
      exfalso. apply Hne. now apply beta_label. }
    unfold step at 2. rewrite Hl, cast_uint8_zero_term by lia.
    apply IH; [assumption| |assumption].
    destruct Hin as [H|H]; [contradiction|assumption].
Qed.

End Recombine.

Lemma fold_left_ext {A B} (f f' : A -> B -> A) (l : list B) :
  (forall a b, In b l -> f a b = f' a b) ->
  forall a, fold_left f l a = fold_left f' l a.
Proof.
  induction l as [|b l IH]; intros H a; simpl; [reflexivity|].
  rewrite (H a b) by now left. apply IH. intros; apply H; now right.
Qed.

Lemma recombine_fold_frame (lbs : list (Z * Image Z)) :
  forall first : Image Z,
    let multi :=
      fold_left (fun multi lb =>
                   sitk_Add multi (sitk_MultiplyConstant (fst lb) (snd lb)))
                lbs first in
    spacing multi = spacing first /\ origin multi = origin first /\
    direction multi = direction first.
Proof.
  induction lbs as [|lb lbs IH]; intros first; simpl; [auto|].
  destruct (IH (sitk_Add first (sitk_MultiplyConstant (fst lb) (snd lb))))
    as [H1 [H2 H3]].
  cbv zeta in *. rewrite H1, H2, H3. auto.
Qed.

Section RecombineImages.

(** [g l] is the mask built for the label [l], and [bit l c] its value at
    the voxel [c]. *)
Variable mask : Image Z.
Variable g : Z -> Image Z.
Variable bit : Z -> vec3 Z -> Z.
Hypothesis g_id : forall l, GetPixelID (g l) = sitkUInt8.
Hypothesis g_get :
  forall l c, GetPixel (g l) c = option_map (fun _ => bit l c) (GetPixel mask c).
Hypothesis bit_bit : forall l c, bit l c = 0 \/ bit l c = 1.
Hypothesis bit_label : forall l c, bit l c = 1 -> GetPixel mask c = Some l.

Lemma recombine_masks (l0 : Z) (rest : list Z) :
  recombine (l0 :: rest) (map g (l0 :: rest))
  = Ok (fold_left (fun multi lb =>
                     sitk_Add multi (sitk_MultiplyConstant (fst lb) (snd lb)))
                  (map (fun l => (l, g l)) rest) (g l0)).
Proof. unfold recombine. simpl. now rewrite combine_map_self. Qed.

Lemma recombined_pixel (l0 : Z) (rest : list Z) (id : PixelID)
    (c : vec3 Z) (p : Z) :
  NoDup (l0 :: rest) -> (forall l, In l rest -> 0 <= l <= 255) ->
  GetPixel mask c = Some p ->
  let out :=
    sitk_Cast
      (fold_left (fun multi lb =>
                    sitk_Add multi (sitk_MultiplyConstant (fst lb) (snd lb)))
                 (map (fun l => (l, g l)) rest) (g l0)) id in
  (In p rest -> GetPixel out c = Some (cast_pixel id (p * bit p c))) /\
  (p = l0 -> GetPixel out c = Some (cast_pixel id (bit l0 c))) /\
  (~ In p (l0 :: rest) -> GetPixel out c = Some (cast_pixel id 0)).
Proof.
  intros Hnd Hrange Hp out. subst out.
  inversion Hnd as [|? ? Hn0 Hnd']; subst.
  unfold sitk_Cast. rewrite GetPixel_pixelwise.
  rewrite recombine_fold_get by (apply g_id).
  rewrite g_get, Hp. cbn [option_map].
  rewrite (fold_left_ext _
             (fun acc l =>
                cast_pixel sitkUInt8
                  (acc + cast_pixel sitkUInt8 (l * bit l c))))
    by (intros a l _; now rewrite g_get, Hp).
  assert (Hlab : forall l, bit l c = 1 -> l = p).
  { intros l Hl. apply bit_label in Hl. congruence. }
  assert (Hbit : forall l, bit l c = 0 \/ bit l c = 1)
    by (intros l; apply bit_bit).
  assert (Hv0 : 0 <= bit l0 c <= 255)
    by (destruct (Hbit l0) as [-> | ->]; lia).
  split; [|split].
  - intros Hin.
    assert (H0 : bit l0 c = 0).
    { destruct (Hbit l0) as [H|H]; [assumption|].
      apply Hlab in H. subst l0. contradiction. }
    rewrite H0.
    rewrite (fold_own_label (fun l => bit l c) p Hbit Hlab rest Hnd' Hin
               (Hrange p Hin)).
    reflexivity.
  - intros ->.
    rewrite (fold_other_labels (fun l => bit l c) l0 Hbit Hlab rest Hn0 _ Hv0).
    reflexivity.
  - intros Hout.
    assert (H0 : bit l0 c = 0).
    { destruct (Hbit l0) as [H|H]; [assumption|].
      apply Hlab in H. subst l0. exfalso. apply Hout. now left. }
    rewrite H0.
    rewrite (fold_other_labels (fun l => bit l c) p Hbit Hlab rest);
      [reflexivity| |lia].
    intros H. apply Hout. now right.
Qed.

Lemma recombined_outside (l0 : Z) (rest : list Z) (id : PixelID)
    (c : vec3 Z) :
  GetPixel mask c = None ->
  GetPixel
    (sitk_Cast
       (fold_left (fun multi lb =>
                     sitk_Add multi (sitk_MultiplyConstant (fst lb) (snd lb)))
                  (map (fun l => (l, g l)) rest) (g l0)) id) c = None.
Proof.
  intros Hc. unfold sitk_Cast. rewrite GetPixel_pixelwise.
  rewrite recombine_fold_get by (apply g_id).
  now rewrite g_get, Hc.
Qed.

End RecombineImages.

(** ** The masks built per label *)

Lemma itk_Equal_foreground (mask : Image Z) (l : Z) (c : vec3 Z) :
  foreground (pixels (itk_Equal mask l)) c <-> GetPixel mask c = Some l.
Proof.
  unfold foreground. fold (GetPixel (itk_Equal mask l) c).
  unfold itk_Equal. rewrite GetPixel_pixelwise. split.
  - intros [q [Hq Hq0]]. revert Hq.
    destruct (GetPixel mask c) as [p|]; simpl; [|discriminate].
    destruct (Z.eqb_spec p l) as [->|Hn]; [reflexivity|].
    intros Hq. injection Hq as <-. contradiction.
  - intros ->. simpl. rewrite Z.eqb_refl. exists 1. split; [reflexivity|lia].
Qed.

Lemma itk_Equal_rectangular (mask : Image Z) (l : Z) :
  rectangular (pixels mask) -> rectangular (pixels (itk_Equal mask l)).
Proof. apply rectangular_imap. Qed.

Lemma relabelled_components_get (B : Image Z) (t : Z) (c : vec3 Z) :
  GetPixel (sitk_RelabelComponent (ConnectedComponent B) t) c
  = option_map
      (fun _ => label_at
                  (pixels (sitk_RelabelComponent (ConnectedComponent B) t)) c)
      (GetPixel B c).
Proof.
  unfold label_at.
  fold (GetPixel (sitk_RelabelComponent (ConnectedComponent B) t) c).
  rewrite RelabelComponent_get, ConnectedComponent_get.
  destruct (component_labels_inv (pixels B)) as [Hdom _].
  unfold GetPixel.
  destruct (vol_get (component_labels (pixels B)) c) as [l|] eqn:El;
    destruct (vol_get (pixels B) c) as [q|] eqn:Eq; simpl; try reflexivity.
  - apply Hdom in Eq. congruence.
  - apply Hdom in El. congruence.
Qed.

Lemma itk_Equal_get (mask : Image Z) (l : Z) (c : vec3 Z) :
  GetPixel (itk_Equal mask l) c
  = option_map (fun p => if p =? l then 1 else 0) (GetPixel mask c).
Proof. apply GetPixel_pixelwise. Qed.

Lemma largest_cc_binary_get (mask : Image Z) (l : Z) (c : vec3 Z) :
  GetPixel (largest_cc_binary mask l) c
  = option_map (fun _ => largest_bit mask l c) (GetPixel mask c).
Proof.
  unfold largest_cc_binary. rewrite itk_Equal_get, relabelled_components_get.
  rewrite itk_Equal_get. now destruct (GetPixel mask c).
Qed.

Lemma kept_cc_binary_get (mask : Image Z) (t l : Z) (c : vec3 Z) :
  GetPixel (kept_cc_binary mask t l) c
  = option_map (fun _ => kept_bit mask t l c) (GetPixel mask c).
Proof.
  unfold kept_cc_binary, itk_Greater.
  rewrite GetPixel_pixelwise, relabelled_components_get.
  rewrite itk_Equal_get. now destruct (GetPixel mask c).
Qed.

Lemma largest_bit_bit (mask : Image Z) (l : Z) (c : vec3 Z) :
  largest_bit mask l c = 0 \/ largest_bit mask l c = 1.
Proof. unfold largest_bit. destruct (_ =? 1); auto. Qed.

Lemma kept_bit_bit (mask : Image Z) (t l : Z) (c : vec3 Z) :
  kept_bit mask t l c = 0 \/ kept_bit mask t l c = 1.
Proof. unfold kept_bit. destruct (_ >? 0); auto. Qed.

Lemma largest_bit_component (mask : Image Z) (l : Z) (c : vec3 Z) :
  largest_bit mask l c = 1 <-> In c (largest_component (itk_Equal mask l)).
Proof.
  rewrite in_largest_component. unfold largest_bit.
  destruct (Z.eqb_spec
              (label_at
                 (pixels (sitk_RelabelComponent
                            (ConnectedComponent (itk_Equal mask l)) 0)) c) 1);
    split; intros H; try assumption; try reflexivity; try discriminate.
  contradiction.
Qed.

Lemma largest_bit_label (mask : Image Z) (l : Z) (c : vec3 Z) :
  largest_bit mask l c = 1 -> GetPixel mask c = Some l.
Proof.
  intros H. apply largest_bit_component in H.
  apply largest_component_foreground in H.
  now apply itk_Equal_foreground.
Qed.

Lemma kept_bit_zero (mask : Image Z) (l : Z) (c : vec3 Z) :
  kept_bit mask 0 l c = 1 <-> GetPixel mask c = Some l.
Proof.
  rewrite <- itk_Equal_foreground, <- ConnectedComponent_foreground.
  rewrite <- RelabelComponent_zero_foreground. unfold kept_bit.
  rewrite RelabelComponent_label.
  match goal with |- context [rank_in ?o ?x] =>
    pose proof (rank_in_nonneg o x) as Hn; set (r := rank_in o x) in * end.
  destruct (Z.gtb_spec r 0) as [Hgt|Hle]; split; intros Hx;
    try reflexivity; try discriminate; lia.
Qed.

(** ** The two filters *)

Lemma sitk_Equal_pixel_value (mask : Image Z) (l : Z) :
  pixel_value mask l -> sitk_Equal mask l = itk_Equal mask l.
Proof. unfold sitk_Equal, pixel_value. now intros ->. Qed.

Lemma pixel_value_labels (mask : Image Z) (l0 : Z) (rest : list Z) :
  pixel_value mask l0 -> (forall l, In l rest -> representable mask l) ->
  forall l, In l (l0 :: rest) -> pixel_value mask l.
Proof.
  intros H0 Hrep l [<-|Hl]; [exact H0|]. exact (proj2 (Hrep l Hl)).
Qed.

Lemma pixel_value_one (mask : Image Z) : pixel_value mask 1.
Proof. unfold pixel_value. now destruct (GetPixelID mask). Qed.

Lemma pick_largest_connected_component_eq (mask : Image Z) (l0 : Z)
    (rest : list Z) :
  (forall l, In l (l0 :: rest) -> pixel_value mask l) ->
  pick_largest_connected_component mask (l0 :: rest)
  = Ok (sitk_Cast
          (fold_left (fun multi lb =>
                        sitk_Add multi
                                 (sitk_MultiplyConstant (fst lb) (snd lb)))
                     (map (fun l => (l, largest_cc_binary mask l)) rest)
                     (largest_cc_binary mask l0))
          (GetPixelID mask)).
Proof.
  intros Hpv. unfold pick_largest_connected_component.
  rewrite (map_result_total _ (largest_cc_binary mask)).
  - cbn [bind]. rewrite recombine_masks. reflexivity.
  - intros l Hl. rewrite (sitk_Equal_pixel_value mask l (Hpv l Hl)).
    reflexivity.
Qed.

Lemma remove_small_connected_component_eq (mask : Image Z) (l0 : Z)
    (rest : list Z) (threshold : Z) :
  0 <= threshold < 2 ^ 64 ->
  (forall l, In l (l0 :: rest) -> pixel_value mask l) ->
  remove_small_connected_component mask (l0 :: rest) threshold
  = Ok (sitk_Cast
          (fold_left (fun multi lb =>
                        sitk_Add multi
                                 (sitk_MultiplyConstant (fst lb) (snd lb)))
                     (map (fun l => (l, kept_cc_binary mask threshold l)) rest)
                     (kept_cc_binary mask threshold l0))
          (GetPixelID mask)).
Proof.
  intros Ht Hpv. unfold remove_small_connected_component.
  rewrite (map_result_total _ (kept_cc_binary mask threshold)).
  - cbn [bind]. rewrite recombine_masks. reflexivity.
  - intros l Hl. rewrite (sitk_Equal_pixel_value mask l (Hpv l Hl)).
    unfold RelabelComponent.
    destruct (Z.ltb_spec threshold 0); [lia|].
    destruct (Z.leb_spec (2 ^ 64) threshold); [lia|reflexivity].
Qed.

Lemma designates_never_empty_label_set (e : exn) :
  designates e <> Some EmptyLabelSet.
Proof.
  destruct e; simpl; try discriminate.
  destruct (String.eqb _ _); discriminate.
Qed.

(** C9 (amended): with an empty label list both filters fail, and the
    failure is the [IndexError] of [largest_cc_binaries[0]], which is none of
    the designated errors: the code has no [EmptyLabelSet] error. *)
Theorem empty_label_list_raises_index_error (mask : Image Z) (threshold : Z) :
  pick_largest_connected_component mask [] = Raise IndexError /\
  remove_small_connected_component mask [] threshold = Raise IndexError /\
  designates IndexError = None /\
  ~ fails_with (pick_largest_connected_component mask []) EmptyLabelSet /\
  ~ fails_with (remove_small_connected_component mask [] threshold)
      EmptyLabelSet.
Proof.
  split; [reflexivity|]. split; [reflexivity|]. split; [reflexivity|].
  split; intros [e [_ He]]; exact (designates_never_empty_label_set e He).
Qed.

(** C9 (as stated) fails: on a mask of two voxels and an empty label list
    neither filter fails with [EmptyLabelSet]. *)
Lemma empty_label_list_not_designated_error :
  ~ fails_with (pick_largest_connected_component two_label_mask [])
      EmptyLabelSet /\
  ~ fails_with (remove_small_connected_component two_label_mask [] 0)
      EmptyLabelSet.
Proof.
  split; intros [e [He Hd]]; vm_compute in He; injection He as <-;
    discriminate.
Qed.

Lemma recombined_frame (g : Z -> Image Z) (mask : Image Z) (l0 : Z)
    (rest : list Z) (id : PixelID) :
  spacing (g l0) = spacing mask -> origin (g l0) = origin mask ->
  direction (g l0) = direction mask ->
  let out :=
    sitk_Cast
      (fold_left (fun multi lb =>
                    sitk_Add multi (sitk_MultiplyConstant (fst lb) (snd lb)))
                 (map (fun l => (l, g l)) rest) (g l0)) id in
  GetSpacing out = GetSpacing mask /\ GetOrigin out = GetOrigin mask /\
  GetDirection out = GetDirection mask /\ GetPixelID out = id.
Proof.
  intros Hs Ho Hd out. subst out.
  destruct (recombine_fold_frame (map (fun l => (l, g l)) rest) (g l0))
    as [H1 [H2 H3]]. cbv zeta in *.
  unfold GetSpacing, GetOrigin, GetDirection, GetPixelID, sitk_Cast, pixelwise.
  simpl. rewrite H1, H2, H3. auto.
Qed.

(** C5 (amended): with [threshold = 0] and distinct labels which are all
    values of the pixel type of the mask, and of which all but the first
    fit [sitkUInt8], [remove_small_connected_component] returns a volume
    with the frame and pixel type of the input in which every voxel of a
    listed label other than the first keeps its label, so does every voxel
    of the first label when that label is 1, and every voxel of an unlisted
    label is 0.  The output equals the input voxel for voxel when the first
    label is 1 and every non-zero label of the volume is listed. *)
Theorem remove_small_threshold_zero_keeps_listed_labels
    (mask : Image Z) (l0 : Z) (rest : list Z) :
  NoDup (l0 :: rest) -> pixel_value mask l0 ->
  (forall l, In l rest -> representable mask l) ->
  exists out,
    remove_small_connected_component mask (l0 :: rest) 0 = Ok out /\
    GetSpacing out = GetSpacing mask /\ GetOrigin out = GetOrigin mask /\
    GetDirection out = GetDirection mask /\
    GetPixelID out = GetPixelID mask /\
    (forall c p, GetPixel mask c = Some p ->
       (In p rest -> GetPixel out c = Some p) /\
       (p = l0 -> l0 = 1 -> GetPixel out c = Some p) /\
       (~ In p (l0 :: rest) -> GetPixel out c = Some 0)) /\
    (l0 = 1 ->
     (forall c p, GetPixel mask c = Some p -> p = 0 \/ In p (l0 :: rest)) ->
     forall c, GetPixel out c = GetPixel mask c).
Proof.
  intros Hnd Hpv0 Hrep.
  rewrite remove_small_connected_component_eq
    by (lia || now apply pixel_value_labels).
  eexists. split; [reflexivity|].
  destruct (recombined_frame (kept_cc_binary mask 0) mask l0 rest
              (GetPixelID mask) eq_refl eq_refl eq_refl)
    as [Hs [Ho [Hd Hid]]].
  cbv zeta in *.
  split; [exact Hs|]. split; [exact Ho|]. split; [exact Hd|].
  split; [exact Hid|].
  assert (Hpix : forall c p, GetPixel mask c = Some p ->
            (In p rest -> GetPixel
               (sitk_Cast
                  (fold_left (fun multi lb =>
                     sitk_Add multi (sitk_MultiplyConstant (fst lb) (snd lb)))
                     (map (fun l => (l, kept_cc_binary mask 0 l)) rest)
                     (kept_cc_binary mask 0 l0)) (GetPixelID mask)) c
               = Some p) /\
            (p = l0 -> l0 = 1 -> GetPixel
               (sitk_Cast
                  (fold_left (fun multi lb =>
                     sitk_Add multi (sitk_MultiplyConstant (fst lb) (snd lb)))
                     (map (fun l => (l, kept_cc_binary mask 0 l)) rest)
                     (kept_cc_binary mask 0 l0)) (GetPixelID mask)) c
               = Some p) /\
            (~ In p (l0 :: rest) -> GetPixel
               (sitk_Cast
                  (fold_left (fun multi lb =>
                     sitk_Add multi (sitk_MultiplyConstant (fst lb) (snd lb)))
                     (map (fun l => (l, kept_cc_binary mask 0 l)) rest)
                     (kept_cc_binary mask 0 l0)) (GetPixelID mask)) c
               = Some 0)).
  { intros c p Hp.
    destruct (recombined_pixel mask (kept_cc_binary mask 0) (kept_bit mask 0)
                (fun _ => eq_refl) (kept_cc_binary_get mask 0)
                (kept_bit_bit mask 0)
                (fun l c' H => proj1 (kept_bit_zero mask l c') H)
                l0 rest (GetPixelID mask) c p Hnd
                (fun l Hl => proj1 (Hrep l Hl)) Hp) as [H1 [H2 H3]].
    cbv zeta in *.
    assert (Hbit : kept_bit mask 0 p c = 1) by now apply kept_bit_zero.
    split; [|split].
    - intros Hin. rewrite (H1 Hin), Hbit, Z.mul_1_r.
      now rewrite (proj2 (Hrep p Hin)).
    - intros -> E1. rewrite (H2 eq_refl), Hbit.
      rewrite cast_pixel_bit by now right. now rewrite E1.
    - intros Hout. rewrite (H3 Hout).
      rewrite cast_pixel_bit by now left. reflexivity. }
  split; [exact Hpix|].
  intros E1 Hall c.
  destruct (GetPixel mask c) as [p|] eqn:Hp.
  - destruct (Hpix c p Hp) as [H1 [H2 H3]].
    destruct (In_dec Z.eq_dec p rest) as [Hin|Hnin]; [now apply H1|].
    destruct (Z.eq_dec p l0) as [E|N]; [now apply H2|].
    assert (Hout : ~ In p (l0 :: rest))
      by (intros [H|H]; [congruence|contradiction]).
    destruct (Hall c p Hp) as [->|Hin]; [now apply H3|contradiction].
  - apply (recombined_outside mask (kept_cc_binary mask 0) (kept_bit mask 0)
             (fun _ => eq_refl) (kept_cc_binary_get mask 0)).
    assumption.
Qed.

Lemma remove_small_threshold_zero_keeps_listed_labels_witness :
  (NoDup [1; 2; 3] /\ pixel_value multi_label_mask 1 /\
   forall l, In l [2; 3] -> representable multi_label_mask l) /\
  exists out,
    remove_small_connected_component multi_label_mask [1; 2; 3] 0 = Ok out /\
    GetPixelID out = GetPixelID multi_label_mask.
Proof.
  assert (Hnd : NoDup [1; 2; 3]).
  { repeat constructor; simpl; intuition lia. }
  assert (Hrep : forall l, In l [2; 3] -> representable multi_label_mask l).
  { intros l [<-|[<-|[]]]; split; try reflexivity; lia. }
  split; [split; [assumption|split; [reflexivity|assumption]]|].
  destruct (remove_small_threshold_zero_keeps_listed_labels
              multi_label_mask 1 [2; 3] Hnd eq_refl Hrep)
    as [out [Hout [_ [_ [_ [Hid _]]]]]].
  exists out. split; assumption.
Defined.

(** C5 (as stated) fails: on the row of labels 1 and 2, with the label list
    [[1]] and [threshold = 0], the voxel labelled 2 comes out 0. *)
Lemma remove_small_threshold_zero_drops_unlisted_label :
  [1] <> [] /\
  exists out,
    remove_small_connected_component two_label_mask [1] 0 = Ok out /\
    GetPixel two_label_mask (1, 0, 0) = Some 2 /\
    GetPixel out (1, 0, 0) = Some 0 /\
    pixels out <> pixels two_label_mask.
Proof.
  split; [discriminate|]. eexists. split; [vm_compute; reflexivity|].
  split; [reflexivity|]. split; [reflexivity|]. discriminate.
Qed.

(** C4 (amended): for a rectangular mask and distinct labels which are all
    values of the pixel type of the mask, and of which all but the first
    fit [sitkUInt8],
    [pick_largest_connected_component] returns a volume with the frame and
    pixel type of the mask in which every voxel of an unlisted label is 0
    (unlisted labels are not carried over), and in which every non-zero
    listed label other than the first (and the first one when it is 1)
    keeps, with its own value, exactly the voxels [ks] of one of its
    26-connected components, the rest of that label being 0; [ks] is
    connected, closed under connection, non-empty when the label occurs,
    and no set of connected voxels of that label has more voxels. *)
Theorem pick_largest_keeps_largest_component_of_listed_labels
    (mask : Image Z) (l0 : Z) (rest : list Z) :
  rectangular (pixels mask) -> NoDup (l0 :: rest) ->
  pixel_value mask l0 ->
  (forall l, In l rest -> representable mask l) ->
  exists out,
    pick_largest_connected_component mask (l0 :: rest) = Ok out /\
    GetSpacing out = GetSpacing mask /\ GetOrigin out = GetOrigin mask /\
    GetDirection out = GetDirection mask /\
    GetPixelID out = GetPixelID mask /\
    (forall c p, GetPixel mask c = Some p -> ~ In p (l0 :: rest) ->
                 GetPixel out c = Some 0) /\
    forall l, In l (l0 :: rest) -> l <> 0 -> (l = l0 -> l0 = 1) ->
      exists ks : list (vec3 Z),
        NoDup ks /\
        (forall c, In c ks ->
                   GetPixel mask c = Some l /\ GetPixel out c = Some l) /\
        (forall c, GetPixel mask c = Some l -> ~ In c ks ->
                   GetPixel out c = Some 0) /\
        (forall u v, In u ks -> In v ks -> label_connected mask l u v) /\
        (forall u v, In u ks -> label_connected mask l u v -> In v ks) /\
        (forall w ws, NoDup ws ->
           (forall c, In c ws -> label_connected mask l w c) ->
           (length ws <= length ks)%nat) /\
        ((exists c, GetPixel mask c = Some l) -> ks <> []).
Proof.
  intros Hr Hnd Hpv0 Hrep.
  rewrite pick_largest_connected_component_eq
    by now apply pixel_value_labels.
  eexists. split; [reflexivity|].
  destruct (recombined_frame (largest_cc_binary mask) mask l0 rest
              (GetPixelID mask) eq_refl eq_refl eq_refl)
    as [Hs [Ho [Hd Hid]]].
  cbv zeta in *.
  split; [exact Hs|]. split; [exact Ho|]. split; [exact Hd|].
  split; [exact Hid|].
  set (out := sitk_Cast _ _) in *.
  assert (Hpix : forall c p, GetPixel mask c = Some p ->
            (In p rest ->
             GetPixel out c
             = Some (cast_pixel (GetPixelID mask) (p * largest_bit mask p c))) /\
            (p = l0 ->
             GetPixel out c
             = Some (cast_pixel (GetPixelID mask) (largest_bit mask l0 c))) /\
            (~ In p (l0 :: rest) ->
             GetPixel out c = Some (cast_pixel (GetPixelID mask) 0))).
  { intros c p Hp.
    exact (recombined_pixel mask (largest_cc_binary mask) (largest_bit mask)
             (fun _ => eq_refl) (largest_cc_binary_get mask)
             (largest_bit_bit mask) (largest_bit_label mask)
             l0 rest (GetPixelID mask) c p Hnd
             (fun l Hl => proj1 (Hrep l Hl)) Hp). }
  split.
  { intros c p Hp Hout. destruct (Hpix c p Hp) as [_ [_ H3]].
    rewrite (H3 Hout). now rewrite cast_pixel_bit by now left. }
  intros l Hl Hl0 Hfirst.
  pose proof (itk_Equal_rectangular mask l Hr) as HrB.
  assert (Hval : forall c, GetPixel mask c = Some l ->
            GetPixel out c = Some (l * largest_bit mask l c)).
  { intros c Hc. destruct (Hpix c l Hc) as [H1 [H2 _]].
    destruct Hl as [<-|Hin].
    - rewrite (H2 eq_refl). f_equal.
      rewrite cast_pixel_bit by (destruct (largest_bit_bit mask l0 c); auto).
      pose proof (Hfirst eq_refl) as E1. lia.
    - rewrite (H1 Hin). f_equal.
      destruct (largest_bit_bit mask l c) as [-> | ->].
      + rewrite Z.mul_0_r. now apply cast_pixel_bit; left.
      + rewrite Z.mul_1_r. apply (proj2 (Hrep l Hin)). }
  exists (largest_component (itk_Equal mask l)).
  split; [apply NoDup_largest_component|].
  split.
  { intros c Hc.
    assert (Hm : GetPixel mask c = Some l).
    { apply itk_Equal_foreground.
      now apply largest_component_foreground. }
    split; [assumption|].
    rewrite (Hval c Hm).
    apply largest_bit_component in Hc. rewrite Hc. f_equal. lia. }
  split.
  { intros c Hm Hc. rewrite (Hval c Hm).
    destruct (largest_bit_bit mask l c) as [-> |H1]; [f_equal; lia|].
    apply largest_bit_component in H1. contradiction. }
  split.
  { intros u v. now apply largest_component_connected. }
  split.
  { intros u v. now apply largest_component_closed. }
  split.
  { intros w ws. now apply largest_component_largest. }
  intros [c Hc]. apply largest_component_nonempty.
  exists c. now apply itk_Equal_foreground.
Qed.

Lemma pick_largest_keeps_largest_component_of_listed_labels_witness :
  (rectangular (pixels multi_label_mask) /\ NoDup [1; 2] /\
   pixel_value multi_label_mask 1 /\
   forall l, In l [2] -> representable multi_label_mask l) /\
  exists out,
    pick_largest_connected_component multi_label_mask [1; 2] = Ok out /\
    pixels out = [[[0; 0; 0; 0; 2; 2];
                   [0; 0; 0; 0; 0; 2];
                   [0; 0; 1; 1; 1; 2]]] /\
    GetPixelID out = GetPixelID multi_label_mask.
Proof.
  assert (Hr : rectangular (pixels multi_label_mask)).
  { apply rectangularb_spec. reflexivity. }
  assert (Hnd : NoDup [1; 2]).
  { repeat constructor; simpl; intuition lia. }
  assert (Hrep : forall l, In l [2] -> representable multi_label_mask l).
  { intros l [<-|[]]; split; try reflexivity; lia. }
  split; [split; [assumption|split; [assumption|split;
    [reflexivity|assumption]]]|].
  destruct (pick_largest_keeps_largest_component_of_listed_labels
              multi_label_mask 1 [2] Hr Hnd eq_refl Hrep)
    as [out [Hout [_ [_ [_ [Hid _]]]]]].
  exists out. split; [assumption|]. split; [|assumption].
  vm_compute in Hout. injection Hout as <-. reflexivity.
Defined.

(** C4 (as stated) fails: on the row of labels 1 and 2, with the label list
    [[1]], the voxel labelled 2, a label not in the list, comes out 0
    instead of being carried over. *)
Lemma pick_largest_drops_unlisted_label :
  [1] <> [] /\ ~ In 2 [1] /\
  exists out,
    pick_largest_connected_component two_label_mask [1] = Ok out /\
    GetPixel two_label_mask (1, 0, 0) = Some 2 /\
    GetPixel out (1, 0, 0) = Some 0.
Proof.
  split; [discriminate|]. split; [simpl; intuition lia|].
  eexists. split; [vm_compute; reflexivity|].
  split; reflexivity.
Qed.

(** * Further properties of the planner *)

Lemma clamp_axis_cases (size box start : Z) :
  (start + box <= size /\ clamp_axis size box start = (start, start + box)) \/
  (size < start + box /\ clamp_axis size box start = (size - box, size)).
Proof.
  unfold clamp_axis. cbv zeta.
  destruct (Z.gtb_spec (start + box) size); [right|left]; split;
    try reflexivity; lia.
Qed.

Lemma clamp_axis_inside (size box start : Z) :
  0 <= start -> box <= size ->
  0 <= fst (clamp_axis size box start) /\
  snd (clamp_axis size box start) <= size.
Proof.
  intros Hs Hb.
  destruct (clamp_axis_cases size box start) as [[H ->]|[H ->]]; simpl; lia.
Qed.

Lemma clamp_axis_reaches_end (size box start : Z) :
  size <= start + box -> snd (clamp_axis size box start) = size.
Proof.
  intros H.
  destruct (clamp_axis_cases size box start) as [[? ->]|[? ->]]; simpl; lia.
Qed.

Lemma partition_ok_inv {T} (image : Image T) (ps pstr : vec3 Q) (ms : Z)
    (starts ends : list (vec3 Z)) :
  image_partition_by_fixed_size image ps pstr ms = Ok (starts, ends) ->
  exists box stride num,
    box_size_of (GetSpacing image) ps ms = Ok box /\
    stride_size_of (GetSpacing image) pstr = Ok stride /\
    num_partitions_of (GetSize image) box stride = Ok num /\
    combine starts ends = windows (GetSize image) box stride num.
Proof.
  unfold image_partition_by_fixed_size. cbv zeta.
  destruct (box_size_of (GetSpacing image) ps ms) as [box|] eqn:Eb; cbn [bind];
    [|discriminate].
  destruct (stride_size_of (GetSpacing image) pstr) as [stride|] eqn:Es; cbn [bind];
    [|discriminate].
  destruct (num_partitions_of (GetSize image) box stride) as [num|] eqn:En;
    cbn [bind]; [|discriminate].
  intros H. injection H as <- <-.
  exists box, stride, num. rewrite combine_fst_snd. auto.
Qed.

Lemma py_ceil_div_plus1_inv (n s r : Z) :
  py_ceil_div_plus1 n s = Ok r -> s <> 0 /\ r = - ((- n) / s) + 1.
Proof.
  unfold py_ceil_div_plus1. destruct (Z.eqb_spec s 0); [discriminate|].
  intros H. injection H as <-. auto.
Qed.

Lemma num_partitions_of_inv (size box stride num : vec3 Z) :
  num_partitions_of size box stride = Ok num ->
  (v3x stride <> 0 /\ v3y stride <> 0 /\ v3z stride <> 0) /\
  v3x num = - ((- (v3x size - v3x box)) / v3x stride) + 1 /\
  v3y num = - ((- (v3y size - v3y box)) / v3y stride) + 1 /\
  v3z num = - ((- (v3z size - v3z box)) / v3z stride) + 1.
Proof.
  unfold num_partitions_of.
  destruct (py_ceil_div_plus1 (v3x size - v3x box) (v3x stride)) as [nx|]
    eqn:Ex; cbn [bind]; [|discriminate].
  destruct (py_ceil_div_plus1 (v3y size - v3y box) (v3y stride)) as [ny|]
    eqn:Ey; cbn [bind]; [|discriminate].
  destruct (py_ceil_div_plus1 (v3z size - v3z box) (v3z stride)) as [nz|]
    eqn:Ez; cbn [bind]; [|discriminate].
  intros H. injection H as <-.
  apply py_ceil_div_plus1_inv in Ex, Ey, Ez. unfold v3x, v3y, v3z in *.
  cbn [fst snd]. tauto.
Qed.

Lemma py_range_cons (n : Z) :
  1 <= n -> exists l, py_range n = 0 :: l.
Proof.
  intros Hn. unfold py_range.
  destruct (Z.to_nat n) as [|k] eqn:E; [lia|]. simpl. eauto.
Qed.

Lemma windows_hd (size box stride num : vec3 Z) :
  v3le (1, 1, 1) num ->
  hd_error (windows size box stride num)
  = Some (window size box stride 0 0 0).
Proof.
  intros [Hx [Hy Hz]]. cbn in Hx, Hy, Hz. unfold windows.
  destruct (py_range_cons _ Hx) as [lx ->].
  destruct (py_range_cons _ Hy) as [ly ->].
  destruct (py_range_cons _ Hz) as [lz ->].
  reflexivity.
Qed.



Lemma length_flat_map_const {A B} (f : A -> list B) (l : list A) (m : nat) :
  (forall a, In a l -> length (f a) = m) ->
  length (flat_map f l) = (length l * m)%nat.
Proof.
  induction l as [|a l IH]; intros H; simpl; [reflexivity|].
  rewrite length_app, (H a) by now left.
  rewrite IH by (intros; apply H; now right). lia.
Qed.

Lemma length_windows (size box stride num : vec3 Z) :
  length (windows size box stride num)
  = (Z.to_nat (v3x num) * (Z.to_nat (v3y num) * Z.to_nat (v3z num)))%nat.
Proof.
  unfold windows.
  rewrite (length_flat_map_const _ _
             (Z.to_nat (v3y num) * Z.to_nat (v3z num))).
  - now rewrite length_py_range.
  - intros idx _.
    rewrite (length_flat_map_const _ _ (Z.to_nat (v3z num))).
    + now rewrite length_py_range.
    + intros idy _. now rewrite length_map, length_py_range.
Qed.



Lemma tile_count_not_positive (size box stride : Z) :
  0 < stride <= box - size ->
  Z.to_nat (- ((- (size - box)) / stride) + 1) = 0%nat.
Proof.
  intros [Hs Hb].
  assert (H : 1 <= (- (size - box)) / stride)
    by (apply Z.div_le_lower_bound; lia).
  lia.
Qed.



Lemma physical_to_voxel_cases (p s : Q) :
  (~ (s == 0)%Q /\ physical_to_voxel p s = Ok (py_int (p / s + (1 # 2))%Q)) \/
  ((s == 0)%Q /\ physical_to_voxel p s = Raise ZeroDivisionError).
Proof.
  unfold physical_to_voxel, py_truediv.
  destruct (Qeq_bool s 0) eqn:E.
  - right. split; [now apply Qeq_bool_eq|reflexivity].
  - left. split; [|reflexivity]. intros H. apply Qeq_eq_bool in H. congruence.
Qed.

Lemma v3zip_physical_to_voxel_cases (a sp : vec3 Q) :
  (v3nonzero_Q sp /\ exists r, v3zip physical_to_voxel a sp = Ok r) \/
  (~ v3nonzero_Q sp /\ v3zip physical_to_voxel a sp = Raise ZeroDivisionError).
Proof.
  unfold v3zip, v3nonzero_Q.
  destruct (physical_to_voxel_cases (v3x a) (v3x sp)) as [[Nx ->]|[Zx ->]];
    cbn [bind]; [|right; split; [tauto|reflexivity]].
  destruct (physical_to_voxel_cases (v3y a) (v3y sp)) as [[Ny ->]|[Zy ->]];
    cbn [bind]; [|right; split; [tauto|reflexivity]].
  destruct (physical_to_voxel_cases (v3z a) (v3z sp)) as [[Nz ->]|[Zz ->]];
    cbn [bind]; [|right; split; [tauto|reflexivity]].
  left. split; [tauto|]. eexists. reflexivity.
Qed.

Lemma round_up_to_stride_cases (m b : Z) :
  (m <> 0 /\ exists r, round_up_to_stride m b = Ok r) \/
  (m = 0 /\ round_up_to_stride m b = Raise ZeroDivisionError).
Proof.
  destruct (Z.eq_dec m 0) as [->|Hm].
  - right. split; reflexivity.
  - left. split; [assumption|]. now apply round_up_to_stride_ok.
Qed.

Lemma box_size_of_cases (sp ps : vec3 Q) (m : Z) :
  (v3nonzero_Q sp /\ m <> 0 /\ exists box, box_size_of sp ps m = Ok box) \/
  (~ (v3nonzero_Q sp /\ m <> 0) /\
   box_size_of sp ps m = Raise ZeroDivisionError).
Proof.
  unfold box_size_of.
  destruct (v3zip_physical_to_voxel_cases ps sp) as [[Hsp [raw ->]]|[Hsp ->]];
    cbn [bind]; [|right; split; [tauto|reflexivity]].
  unfold v3map.
  destruct (round_up_to_stride_cases m (v3x raw)) as [[Hm [rx ->]]|[Hm ->]];
    cbn [bind]; [|right; split; [tauto|reflexivity]].
  destruct (round_up_to_stride_ok m (v3y raw) Hm) as [ry ->].
  destruct (round_up_to_stride_ok m (v3z raw) Hm) as [rz ->].
  cbn [bind]. left. split; [assumption|]. split; [assumption|].
  eexists. reflexivity.
Qed.

Lemma num_partitions_of_cases (size box stride : vec3 Z) :
  (v3nonzero stride /\ exists num, num_partitions_of size box stride = Ok num) \/
  (~ v3nonzero stride /\
   num_partitions_of size box stride = Raise ZeroDivisionError).
Proof.
  unfold num_partitions_of, py_ceil_div_plus1, v3nonzero.
  destruct (Z.eqb_spec (v3x stride) 0); cbn [bind];
    [right; split; [tauto|reflexivity]|].
  destruct (Z.eqb_spec (v3y stride) 0); cbn [bind];
    [right; split; [tauto|reflexivity]|].
  destruct (Z.eqb_spec (v3z stride) 0); cbn [bind];
    [right; split; [tauto|reflexivity]|].
  left. split; [tauto|]. eexists. reflexivity.
Qed.


Lemma exact_tile_count (size b : Z) :
  1 <= b -> (b | size) -> (- ((- (size - b)) / b) + 1) * b = size.
Proof.
  intros Hb [k ->].
  replace (- (k * b - b)) with ((1 - k) * b) by lia.
  rewrite Z.div_mul by lia. lia.
Qed.

Lemma exact_tile_unclamped (size b i : Z) :
  1 <= b -> (b | size) -> 0 <= i < - ((- (size - b)) / b) + 1 ->
  clamp_axis size b (i * b) = (i * b, i * b + b).
Proof.
  intros Hb Hd Hi. pose proof (exact_tile_count size b Hb Hd) as Hc.
  destruct (clamp_axis_cases size b (i * b)) as [[_ ->]|[H _]];
    [reflexivity|]. nia.
Qed.

Lemma tile_index_unique (b v i j : Z) :
  i * b <= v < i * b + b -> j * b <= v < j * b + b -> i = j.
Proof. nia. Qed.

(** X5: when the voxel stride equals the voxel tile size, which is at least
    1 and divides the grid size on every axis, the windows returned by the
    planner tile the grid without overlap: every voxel index of the grid
    lies in exactly one window. *)
Theorem partition_exact_tiling_has_no_overlap
    {T} (image : Image T) (partition_size partition_stride : vec3 Q)
    (max_stride : Z) (box : vec3 Z) :
  box_size_of (GetSpacing image) partition_size max_stride = Ok box ->
  stride_size_of (GetSpacing image) partition_stride = Ok box ->
  v3le (1, 1, 1) box ->
  (v3x box | v3x (GetSize image)) -> (v3y box | v3y (GetSize image)) ->
  (v3z box | v3z (GetSize image)) ->
  exists starts ends,
    image_partition_by_fixed_size image partition_size partition_stride
      max_stride = Ok (starts, ends) /\
    forall v, in_grid v (GetSize image) ->
      (exists w, In w (combine starts ends) /\ in_window v w) /\
      (forall w1 w2,
         In w1 (combine starts ends) -> In w2 (combine starts ends) ->
         in_window v w1 -> in_window v w2 -> w1 = w2).
Proof.
  intros Hbox Hstride H1 Dx Dy Dz.
  unfold image_partition_by_fixed_size. cbv zeta.
  rewrite Hbox. cbn [bind]. rewrite Hstride. cbn [bind].
  set (size := GetSize image) in *. clearbody size.
  rewrite (num_partitions_of_ok size box box H1). cbn [bind].
  eexists. eexists. split; [reflexivity|].
  rewrite combine_fst_snd.
  destruct H1 as [Bx [By Bz]]. cbn in Bx, By, Bz.
  intros v Hv. split.
  - assert (Hfit : v3le box size).
    { destruct Hv as [Vx [Vy Vz]].
      repeat split; apply Z.divide_pos_le; (assumption || lia). }
    destruct (window_covers size box box v) as [num [Hnum Hw]];
      try assumption; try (unfold v3le; cbn; lia).
    rewrite (num_partitions_of_ok size box box) in Hnum
      by (unfold v3le; cbn; lia).
    injection Hnum as <-. exact Hw.
  - intros w1 w2 Hw1 Hw2 Hin1 Hin2.
    apply in_windows in Hw1, Hw2.
    destruct Hw1 as [i1 [j1 [k1 [Hi1 [Hj1 [Hk1 ->]]]]]].
    destruct Hw2 as [i2 [j2 [k2 [Hi2 [Hj2 [Hk2 ->]]]]]].
    apply in_py_range in Hi1, Hj1, Hk1, Hi2, Hj2, Hk2.
    cbn [v3x v3y v3z fst snd] in Hi1, Hj1, Hk1, Hi2, Hj2, Hk2.
    unfold in_window, window in Hin1, Hin2. cbv zeta in Hin1, Hin2.
    cbn [fst snd v3x v3y v3z] in Hin1, Hin2.
    rewrite !exact_tile_unclamped in Hin1, Hin2 by assumption.
    cbn [fst snd] in Hin1, Hin2.
    destruct Hin1 as [X1 [Y1 Z1]], Hin2 as [X2 [Y2 Z2]].
    rewrite (tile_index_unique _ _ _ _ X1 X2),
            (tile_index_unique _ _ _ _ Y1 Y2),
            (tile_index_unique _ _ _ _ Z1 Z2).
    reflexivity.
Qed.

Lemma partition_exact_tiling_has_no_overlap_witness :
  (box_size_of (GetSpacing demo_image) tiling_size 4 = Ok (4, 4, 4) /\
   stride_size_of (GetSpacing demo_image) tiling_size = Ok (4, 4, 4)) /\
  exists starts ends,
    image_partition_by_fixed_size demo_image tiling_size tiling_size 4
    = Ok (starts, ends) /\
    length starts = 8%nat.
Proof.
  split; [split; reflexivity|].
  destruct (partition_exact_tiling_has_no_overlap demo_image tiling_size
              tiling_size 4 (4, 4, 4) eq_refl eq_refl)
    as [starts [ends [Hres _]]]; try (exists 2; reflexivity); [v3_arith|].
  exists starts, ends. split; [exact Hres|].
  vm_compute in Hres. injection Hres as <- <-. reflexivity.
Defined.

(** * Further properties of the additive paste *)

Lemma imap_from_ext {A B} (f g : Z -> A -> B) (l : list A) :
  (forall k a, f k a = g k a) -> forall i, imap_from i f l = imap_from i g l.
Proof.
  intros H. induction l as [|a l IH]; intros i; simpl; [reflexivity|].
  now rewrite H, IH.
Qed.

Lemma imap_from_compose {A B C} (f : Z -> B -> C) (g : Z -> A -> B)
    (l : list A) :
  forall i,
    imap_from i f (imap_from i g l) = imap_from i (fun k a => f k (g k a)) l.
Proof.
  induction l as [|a l IH]; intros i; simpl; [reflexivity|]. now rewrite IH.
Qed.

Lemma vol_imap_ext {A B} (f g : vec3 Z -> A -> B) (v : volume A) :
  (forall c a, f c a = g c a) -> vol_imap f v = vol_imap g v.
Proof.
  intros H. unfold vol_imap.
  apply imap_from_ext. intros z plane.
  apply imap_from_ext. intros y row.
  apply imap_from_ext. intros x p. apply H.
Qed.

Lemma vol_imap_compose {A B C} (f : vec3 Z -> B -> C) (g : vec3 Z -> A -> B)
    (v : volume A) :
  vol_imap f (vol_imap g v) = vol_imap (fun c a => f c (g c a)) v.
Proof.
  unfold vol_imap. rewrite imap_from_compose.
  apply imap_from_ext. intros z plane. rewrite imap_from_compose.
  apply imap_from_ext. intros y row. now rewrite imap_from_compose.
Qed.

Section PasteOrder.

Variable T : Type.
Variable padd : T -> T -> T.

(** The update [iadd_slice] applies to one voxel. *)
Let paste_at (shape start stop : vec3 Z) (value : operand T) (c : vec3 Z)
    (p : T) : T :=
  if in_slice (slice_lo shape start) (slice_lo shape stop) c then
    match operand_at value (slice_lo shape start) c with
    | Some s => padd p s
    | None => p
    end
  else p.

Let accepted (shape start stop : vec3 Z) (value : operand T) : bool :=
  match value with
  | Scalar _ => true
  | Array a =>
      rectangularb a &&
      broadcastable (vol_size a)
        (slice_shape (slice_lo shape start) (slice_lo shape stop))
  end.

Lemma iadd_slice_cases (v : volume T) (start stop : vec3 Z)
    (value : operand T) :
  (accepted (vol_size v) start stop value = true /\
   iadd_slice padd v start stop value
   = Ok (vol_imap (paste_at (vol_size v) start stop value) v)) \/
  (accepted (vol_size v) start stop value = false /\
   iadd_slice padd v start stop value
   = Raise (ValueError "operands could not be broadcast together")).
Proof.
  unfold iadd_slice, accepted, paste_at. cbv zeta.
  destruct value as [s|a]; [left; split; reflexivity|].
  destruct (rectangularb a && broadcastable _ _); [left|right];
    split; reflexivity.
Qed.

Lemma add_image_value_cases (image : Image T) (start stop : vec3 Z)
    (value : operand T) :
  (accepted (GetSize image) start stop value = true /\
   add_image_value padd image start stop value
   = Ok (mkImage
           (vol_imap (paste_at (GetSize image) start stop value)
                     (pixels image))
           (spacing image) (origin image) (direction image)
           (pixel_id image))) \/
  (accepted (GetSize image) start stop value = false /\
   add_image_value padd image start stop value
   = Raise (ValueError "operands could not be broadcast together")).
Proof.
  unfold add_image_value, GetArrayFromImage, GetSize. cbv zeta.
  destruct (iadd_slice_cases (pixels image) start stop value)
    as [[Ha ->]|[Ha ->]]; cbn [bind]; [left|right]; split;
    try assumption; try reflexivity.
  unfold CopyInformation, GetImageFromArray, GetSize. cbn [pixels].
  now rewrite vol_size_imap, v3eqb_refl.
Qed.

Lemma paste_at_swap (shape s1 e1 s2 e2 : vec3 Z) (v1 v2 : operand T)
    (c : vec3 Z) (p : T) :
  (forall q x y, padd (padd q x) y = padd (padd q y) x) ->
  paste_at shape s2 e2 v2 c (paste_at shape s1 e1 v1 c p)
  = paste_at shape s1 e1 v1 c (paste_at shape s2 e2 v2 c p).
Proof.
  intros Hc. unfold paste_at.
  destruct (in_slice (slice_lo shape s1) (slice_lo shape e1) c);
    destruct (in_slice (slice_lo shape s2) (slice_lo shape e2) c);
    try reflexivity.
  destruct (operand_at v1 (slice_lo shape s1) c);
    destruct (operand_at v2 (slice_lo shape s2) c); try reflexivity.
  apply Hc.
Qed.

Lemma add_image_value_swap (image a ab : Image T) (s1 e1 s2 e2 : vec3 Z)
    (v1 v2 : operand T) :
  (forall q x y, padd (padd q x) y = padd (padd q y) x) ->
  add_image_value padd image s1 e1 v1 = Ok a ->
  add_image_value padd a s2 e2 v2 = Ok ab ->
  exists b,
    add_image_value padd image s2 e2 v2 = Ok b /\
    add_image_value padd b s1 e1 v1 = Ok ab.
Proof.
  intros Hc H1 H2.
  destruct (add_image_value_cases image s1 e1 v1) as [[A1 E1]|[_ E1]];
    rewrite E1 in H1; [|discriminate]. injection H1 as <-.
  destruct (add_image_value_cases
              (mkImage
                 (vol_imap (paste_at (GetSize image) s1 e1 v1) (pixels image))
                 (spacing image) (origin image) (direction image)
                 (pixel_id image)) s2 e2 v2) as [[A2 E2]|[_ E2]];
    rewrite E2 in H2; [|discriminate]. injection H2 as <-.
  unfold GetSize in A2, E2 |- *. cbn [pixels spacing origin direction pixel_id]
    in A2, E2 |- *. rewrite vol_size_imap in A2 |- *.
  destruct (add_image_value_cases image s2 e2 v2) as [[B2 F2]|[B2 _]];
    [|unfold GetSize in B2; congruence].
  eexists. split; [exact F2|].
  destruct (add_image_value_cases
              (mkImage
                 (vol_imap (paste_at (GetSize image) s2 e2 v2) (pixels image))
                 (spacing image) (origin image) (direction image)
                 (pixel_id image)) s1 e1 v1) as [[B1 F1]|[B1 _]].
  - rewrite F1. unfold GetSize.
    cbn [pixels spacing origin direction pixel_id].
    rewrite !vol_size_imap, !vol_imap_compose. do 2 f_equal.
    apply vol_imap_ext. intros c p. symmetry. now apply paste_at_swap.
  - unfold GetSize in B1, A1. cbn [pixels] in B1.
    rewrite vol_size_imap in B1. congruence.
Qed.

End PasteOrder.

(** X6: two pastes commute.  When [+] satisfies [(q + x) + y = (q + y) + x],
    pasting [value1] over a first window and then [value2] over a second
    gives the very image obtained by pasting in the other order, and the
    other order is accepted whenever the first is. *)
Theorem add_image_value_order_independent
    {T} (padd : T -> T -> T) (image a ab : Image T)
    (start1 end1 start2 end2 : vec3 Z) (value1 value2 : operand T) :
  (forall q x y, padd (padd q x) y = padd (padd q y) x) ->
  add_image_value padd image start1 end1 value1 = Ok a ->
  add_image_value padd a start2 end2 value2 = Ok ab ->
  exists b,
    add_image_value padd image start2 end2 value2 = Ok b /\
    add_image_value padd b start1 end1 value1 = Ok ab.
Proof. apply add_image_value_swap. Qed.

Lemma add_image_value_order_independent_witness :
  (add_image_value Z.add paste_image (0, 0, 0) (3, 1, 1) (Scalar 5)
   = Ok paste_once /\
   add_image_value Z.add paste_once (1, 0, 0) (4, 1, 1) (Array [[[7]]])
   = Ok paste_twice) /\
  exists b,
    add_image_value Z.add paste_image (1, 0, 0) (4, 1, 1) (Array [[[7]]])
    = Ok b /\
    add_image_value Z.add b (0, 0, 0) (3, 1, 1) (Scalar 5) = Ok paste_twice.
Proof.
  split; [split; reflexivity|].
  apply (add_image_value_order_independent Z.add paste_image paste_once
           paste_twice (0, 0, 0) (3, 1, 1) (1, 0, 0) (4, 1, 1)
           (Scalar 5) (Array [[[7]]])); try reflexivity.
  intros q x y. lia.
Defined.

Lemma sticks_out_not_broadcast (n s e : Z) :
  sticks_out n s e ->
  broadcast_axis (e - s)
    (Z.max 0 (py_slice_index n e - py_slice_index n s)) = false.
Proof.
  intros [Hext Hcase]. unfold broadcast_axis, py_slice_index.
  apply orb_false_iff. split; apply Z.eqb_neq;
    destruct (Z.ltb_spec e 0), (Z.ltb_spec s 0); lia.
Qed.

(** X7: a tile is not pasted over a window that leaves the image.  When the
    pasted array has the shape [end - start] of the window, and on some axis
    the window has more than one voxel and either passes the far end of the
    image or starts below 0, [add_image_value] raises: the slice is clipped
    (or counted from the far end), and numpy does not broadcast the tile
    onto the shorter slice. *)
Theorem add_image_value_rejects_tile_over_clipped_window
    {T} (padd : T -> T -> T) (image : Image T)
    (start_voxel end_voxel : vec3 Z) (a : volume T) :
  vol_size a = v3sub end_voxel start_voxel ->
  sticks_out (v3x (GetSize image)) (v3x start_voxel) (v3x end_voxel) \/
  sticks_out (v3y (GetSize image)) (v3y start_voxel) (v3y end_voxel) \/
  sticks_out (v3z (GetSize image)) (v3z start_voxel) (v3z end_voxel) ->
  exists e,
    add_image_value padd image start_voxel end_voxel (Array a) = Raise e.
Proof.
  intros Hshape Hout.
  unfold add_image_value, GetArrayFromImage, iadd_slice. cbv zeta.
  fold (GetSize image). set (size := GetSize image) in *. clearbody size.
  rewrite Hshape.
  assert (E : broadcastable (v3sub end_voxel start_voxel)
                (slice_shape (slice_lo size start_voxel)
                             (slice_lo size end_voxel)) = false).
  { unfold broadcastable, slice_shape, slice_lo, v3sub.
    cbn [fst snd v3x v3y v3z].
    destruct Hout as [H|[H|H]];
      rewrite (sticks_out_not_broadcast _ _ _ H);
      rewrite ?andb_false_r; reflexivity. }
  rewrite E, andb_false_r. cbn [bind]. eexists. reflexivity.
Qed.

Lemma add_image_value_rejects_tile_over_clipped_window_witness :
  (vol_size oversize_scores = v3sub (4, 4, 4) (- 2, - 2, - 2) /\
   sticks_out (v3x (GetSize resample_image)) (- 2) 4) /\
  exists e,
    add_image_value Z.add resample_image (- 2, - 2, - 2) (4, 4, 4)
      (Array oversize_scores) = Raise e.
Proof.
  assert (Hs : sticks_out (v3x (GetSize resample_image)) (- 2) 4).
  { split; [lia|]. right. cbn. lia. }
  split; [split; [reflexivity|exact Hs]|].
  apply (add_image_value_rejects_tile_over_clipped_window Z.add
           resample_image (- 2, - 2, - 2) (4, 4, 4) oversize_scores);
    [reflexivity|]. left. exact Hs.
Defined.

Lemma py_slice_index_negative (n i : Z) :
  - n <= i < 0 -> py_slice_index n i = i + n.
Proof.
  intros H. unfold py_slice_index.
  destruct (Z.ltb_spec i 0); lia.
Qed.

(** X8: a negative start counts from the far end of the axis, as in any
    Python slice.  For a start [-k] along x with [1 <= k <= nx] (the other
    bounds not negative), whenever [add_image_value] returns it has added
    the pasted element to the voxels of the window that begins at [nx - k],
    and left the others as they are: the voxel [x = 0] is untouched
    whenever [k < nx]. *)
Theorem add_image_value_negative_start_wraps
    {T} (padd : T -> T -> T) (image out : Image T) (k sy sz : Z)
    (stop : vec3 Z) (value : operand T) :
  rectangular (pixels image) ->
  1 <= k <= v3x (GetSize image) -> 0 <= sy -> 0 <= sz ->
  v3le (0, 0, 0) stop ->
  add_image_value padd image (- k, sy, sz) stop value = Ok out ->
  forall c p, GetPixel image c = Some p ->
    (in_window c ((v3x (GetSize image) - k, sy, sz), stop) ->
     exists s,
       operand_at value (v3x (GetSize image) - k, sy, sz) c = Some s /\
       GetPixel out c = Some (padd p s)) /\
    (~ in_window c ((v3x (GetSize image) - k, sy, sz), stop) ->
     GetPixel out c = Some p).
Proof.
  intros Hr Hk Hsy Hsz Hstop Hout c p Hp.
  apply add_image_value_inv in Hout. destruct Hout as [arr [Hi ->]].
  unfold GetPixel in *. cbn [pixels].
  rewrite (iadd_slice_get T padd _ _ _ _ _ c Hi), Hp. cbn [option_map].
  pose proof (rectangular_in_grid _ c p Hr Hp) as Hg.
  pose proof (operand_at_defined T padd _ _ _ _ _ c Hi) as Hdef.
  fold (GetSize image) in *.
  set (size := GetSize image) in *. clearbody size.
  assert (Hiff : in_slice (slice_lo size (- k, sy, sz)) (slice_lo size stop) c
                 = true
                 <-> in_window c ((v3x size - k, sy, sz), stop)).
  { rewrite in_slice_spec. unfold slice_lo, in_window.
    destruct Hg as [Gx [Gy Gz]], Hstop as [Ex [Ey Ez]].
    cbn in Ex, Ey, Ez. cbn [fst snd v3x v3y v3z].
    rewrite py_slice_index_negative by lia.
    rewrite !py_slice_index_nonneg by lia. lia. }
  destruct (in_slice _ _ c) eqn:Hs; split; intros H.
  - destruct (Hdef eq_refl) as [s Hop]. rewrite Hop.
    exists s. split; [|reflexivity]. rewrite <- Hop. f_equal.
    unfold slice_lo. cbn [fst snd v3x v3y v3z].
    destruct Hg as [Gx [Gy Gz]], H as [Wx [Wy Wz]].
    cbn [fst snd v3x v3y v3z] in Wx, Wy, Wz.
    rewrite py_slice_index_negative by lia.
    rewrite !py_slice_index_nonneg by lia.
    rewrite !Z.min_l by lia. f_equal. f_equal. lia.
  - exfalso. apply H. now apply Hiff.
  - apply Hiff in H. discriminate.
  - reflexivity.
Qed.

Lemma add_image_value_negative_start_wraps_witness :
  (rectangular (pixels paste_image) /\ 1 <= 1 <= v3x (GetSize paste_image) /\
   add_image_value Z.add paste_image (- 1, 0, 0) (4, 1, 1) (Scalar 5)
   = Ok paste_wrapped) /\
  GetPixel paste_wrapped (0, 0, 0) = Some 10 /\
  exists s,
    operand_at (Scalar 5) (3, 0, 0) (3, 0, 0) = Some s /\
    GetPixel paste_wrapped (3, 0, 0) = Some (40 + s).
Proof.
  assert (Hr : rectangular (pixels paste_image)).
  { apply rectangularb_spec. reflexivity. }
  assert (Hk : 1 <= 1 <= v3x (GetSize paste_image)) by (cbn; lia).
  assert (H0 : v3le (0, 0, 0) (4, 1, 1)) by v3_arith.
  split; [split; [exact Hr|split; [exact Hk|reflexivity]]|].
  pose proof (add_image_value_negative_start_wraps Z.add paste_image
                paste_wrapped 1 0 0 (4, 1, 1) (Scalar 5) Hr Hk
                ltac:(lia) ltac:(lia) H0 eq_refl) as H.
  split.
  - apply (H (0, 0, 0) 10 eq_refl). v3_arith.
  - apply (H (3, 0, 0) 40 eq_refl). v3_arith.
Defined.

(** * Further properties of the component filters *)

Lemma component_of_spec (mask : Image Z) (l : Z) (c : vec3 Z) :
  rectangular (pixels mask) -> GetPixel mask c = Some l ->
  NoDup (component_of mask l c) /\
  forall v, In v (component_of mask l c) <-> label_connected mask l c v.
Proof.
  intros Hr Hc. unfold component_of. cbv zeta.
  split; [apply NoDup_voxels_of|].
  assert (Hfg : label_at (pixels (ConnectedComponent (itk_Equal mask l))) c
                <> 0).
  { apply ConnectedComponent_foreground. now apply itk_Equal_foreground. }
  intros v. rewrite in_voxels_of, <- label_at_some by assumption.
  unfold label_connected.
  rewrite <- (ConnectedComponent_same_label (itk_Equal mask l) c v)
    by (try apply itk_Equal_rectangular; assumption).
  split; congruence.
Qed.

Lemma kept_bit_one (mask : Image Z) (t l : Z) (c : vec3 Z) :
  kept_bit mask t l c = 1
  <-> GetPixel mask c = Some l /\
      t <= Z.of_nat (length (component_of mask l c)).
Proof.
  unfold kept_bit, component_of. cbv zeta.
  rewrite RelabelComponent_label.
  set (CC := pixels (ConnectedComponent (itk_Equal mask l))).
  rewrite <- object_size_voxels.
  set (x := label_at CC c).
  assert (Hin : In x (filter (fun l0 => t <=? object_size CC l0)
                             (objects_by_size CC))
                <-> GetPixel mask c = Some l /\ t <= object_size CC x).
  { rewrite filter_In, in_objects_by_size, Z.leb_le.
    rewrite <- itk_Equal_foreground, <- ConnectedComponent_foreground.
    fold CC. fold x. split.
    - intros [H Ht]. apply in_label_set in H. tauto.
    - intros [H Ht]. split; [|assumption]. now apply in_label_set_label_at. }
  rewrite <- Hin, <- rank_in_nonzero.
  match goal with |- context [rank_in ?o x] =>
    pose proof (rank_in_nonneg o x) as Hn; set (r := rank_in o x) in * end.
  destruct (Z.gtb_spec r 0) as [Hgt|Hle]; split; intros Hx;
    try reflexivity; try discriminate; lia.
Qed.

Lemma kept_bit_label (mask : Image Z) (t l : Z) (c : vec3 Z) :
  kept_bit mask t l c = 1 -> GetPixel mask c = Some l.
Proof. intros H. now apply kept_bit_one in H. Qed.

(** The value [remove_small_connected_component] leaves at a voxel. *)
Lemma remove_small_pixel (mask : Image Z) (l0 : Z) (rest : list Z)
    (threshold : Z) :
  0 <= threshold < 2 ^ 64 -> NoDup (l0 :: rest) ->
  pixel_value mask l0 -> (forall l, In l rest -> representable mask l) ->
  exists out,
    remove_small_connected_component mask (l0 :: rest) threshold = Ok out /\
    GetPixelID out = GetPixelID mask /\
    (forall c, GetPixel mask c = None -> GetPixel out c = None) /\
    forall c p, GetPixel mask c = Some p ->
      (In p rest ->
       GetPixel out c
       = Some (cast_pixel (GetPixelID mask) (p * kept_bit mask threshold p c)))
      /\
      (p = l0 ->
       GetPixel out c
       = Some (cast_pixel (GetPixelID mask) (kept_bit mask threshold l0 c))) /\
      (~ In p (l0 :: rest) -> GetPixel out c = Some 0).
Proof.
  intros Ht Hnd Hpv0 Hrep.
  assert (Hrange : forall l, In l rest -> 0 <= l <= 255)
    by (intros l Hl; exact (proj1 (Hrep l Hl))).
  rewrite remove_small_connected_component_eq
    by (assumption || now apply pixel_value_labels).
  eexists. split; [reflexivity|]. split; [reflexivity|]. split.
  - intros c Hc.
    now apply (recombined_outside mask (kept_cc_binary mask threshold)
                 (kept_bit mask threshold) (fun _ => eq_refl)
                 (kept_cc_binary_get mask threshold)).
  - intros c p Hp.
    destruct (recombined_pixel mask (kept_cc_binary mask threshold)
                (kept_bit mask threshold) (fun _ => eq_refl)
                (kept_cc_binary_get mask threshold)
                (kept_bit_bit mask threshold)
                (kept_bit_label mask threshold)
                l0 rest (GetPixelID mask) c p Hnd Hrange Hp) as [H1 [H2 H3]].
    cbv zeta in *. split; [exact H1|]. split; [exact H2|].
    intros Hout. rewrite (H3 Hout). now rewrite cast_pixel_bit by now left.
Qed.

(** The value [pick_largest_connected_component] leaves at a voxel. *)
Lemma pick_largest_pixel (mask : Image Z) (l0 : Z) (rest : list Z) :
  NoDup (l0 :: rest) -> pixel_value mask l0 ->
  (forall l, In l rest -> representable mask l) ->
  exists out,
    pick_largest_connected_component mask (l0 :: rest) = Ok out /\
    GetPixelID out = GetPixelID mask /\
    (forall c, GetPixel mask c = None -> GetPixel out c = None) /\
    forall c p, GetPixel mask c = Some p ->
      (In p rest ->
       GetPixel out c
       = Some (cast_pixel (GetPixelID mask) (p * largest_bit mask p c))) /\
      (p = l0 ->
       GetPixel out c
       = Some (cast_pixel (GetPixelID mask) (largest_bit mask l0 c))) /\
      (~ In p (l0 :: rest) -> GetPixel out c = Some 0).
Proof.
  intros Hnd Hpv0 Hrep.
  assert (Hrange : forall l, In l rest -> 0 <= l <= 255)
    by (intros l Hl; exact (proj1 (Hrep l Hl))).
  rewrite pick_largest_connected_component_eq
    by now apply pixel_value_labels.
  eexists. split; [reflexivity|]. split; [reflexivity|]. split.
  - intros c Hc.
    now apply (recombined_outside mask (largest_cc_binary mask)
                 (largest_bit mask) (fun _ => eq_refl)
                 (largest_cc_binary_get mask)).
  - intros c p Hp.
    destruct (recombined_pixel mask (largest_cc_binary mask)
                (largest_bit mask) (fun _ => eq_refl)
                (largest_cc_binary_get mask) (largest_bit_bit mask)
                (largest_bit_label mask)
                l0 rest (GetPixelID mask) c p Hnd Hrange Hp) as [H1 [H2 H3]].
    cbv zeta in *. split; [exact H1|]. split; [exact H2|].
    intros Hout. rewrite (H3 Hout). now rewrite cast_pixel_bit by now left.
Qed.

(** X9: for a threshold from 0 up to [2 ^ 64 - 1] and distinct labels which
    are values of the pixel type of the mask (all but the first fitting
    [sitkUInt8]), [remove_small_connected_component] keeps a voxel of a
    listed label (other than the first, or the first when it is 1) exactly
    when the 26-connected component of that voxel has at least [threshold]
    voxels; otherwise the voxel becomes 0. *)
Theorem remove_small_keeps_components_of_threshold_size
    (mask : Image Z) (l0 : Z) (rest : list Z) (threshold : Z) :
  rectangular (pixels mask) -> 0 <= threshold < 2 ^ 64 ->
  NoDup (l0 :: rest) -> pixel_value mask l0 ->
  (forall l, In l rest -> representable mask l) ->
  exists out,
    remove_small_connected_component mask (l0 :: rest) threshold = Ok out /\
    forall l c, In l (l0 :: rest) -> (l = l0 -> l0 = 1) ->
      GetPixel mask c = Some l ->
      exists ks : list (vec3 Z),
        NoDup ks /\
        (forall v, In v ks <-> label_connected mask l c v) /\
        (threshold <= Z.of_nat (length ks) -> GetPixel out c = Some l) /\
        (Z.of_nat (length ks) < threshold -> GetPixel out c = Some 0).
Proof.
  intros Hr Ht Hnd Hpv0 Hrep.
  destruct (remove_small_pixel mask l0 rest threshold Ht Hnd Hpv0 Hrep)
    as [out [Hout [_ [_ Hpix]]]].
  exists out. split; [exact Hout|].
  intros l c Hl Hfirst Hc.
  destruct (component_of_spec mask l c Hr Hc) as [Hnd' Hks].
  exists (component_of mask l c). split; [exact Hnd'|]. split; [exact Hks|].
  destruct (Hpix c l Hc) as [H1 [H2 _]].
  assert (Hval : GetPixel out c = Some (l * kept_bit mask threshold l c)).
  { destruct Hl as [<-|Hin].
    - rewrite (H2 eq_refl). f_equal.
      rewrite cast_pixel_bit
        by (destruct (kept_bit_bit mask threshold l0 c); auto).
      pose proof (Hfirst eq_refl). lia.
    - rewrite (H1 Hin). f_equal.
      destruct (kept_bit_bit mask threshold l c) as [-> | ->].
      + rewrite Z.mul_0_r. now apply cast_pixel_bit; left.
      + rewrite Z.mul_1_r. apply (proj2 (Hrep l Hin)). }
  rewrite Hval. split; intros Hsz.
  - assert (E : kept_bit mask threshold l c = 1)
      by (apply kept_bit_one; auto).
    rewrite E. f_equal. lia.
  - destruct (kept_bit_bit mask threshold l c) as [-> |E]; [f_equal; lia|].
    apply kept_bit_one in E. lia.
Qed.

Lemma remove_small_keeps_components_of_threshold_size_witness :
  (rectangular (pixels multi_label_mask) /\ 0 <= 2 < 2 ^ 64 /\
   NoDup [1; 2] /\ pixel_value multi_label_mask 1 /\
   forall l, In l [2] -> representable multi_label_mask l) /\
  exists out,
    remove_small_connected_component multi_label_mask [1; 2] 2 = Ok out /\
    pixels out = [[[1; 1; 0; 0; 2; 2];
                   [0; 0; 0; 0; 0; 2];
                   [0; 0; 1; 1; 1; 2]]].
Proof.
  assert (Hr : rectangular (pixels multi_label_mask)).
  { apply rectangularb_spec. reflexivity. }
  assert (Hnd : NoDup [1; 2]).
  { repeat constructor; simpl; intuition lia. }
  assert (Ht : 0 <= 2 < 2 ^ 64) by (vm_compute; split; congruence).
  assert (Hrep : forall l, In l [2] -> representable multi_label_mask l).
  { intros l [<-|[]]; split; try reflexivity; lia. }
  split; [split; [exact Hr|split; [exact Ht|split; [exact Hnd|split;
    [reflexivity|exact Hrep]]]]|].
  destruct (remove_small_keeps_components_of_threshold_size
              multi_label_mask 1 [2] 2 Hr Ht Hnd eq_refl Hrep)
    as [out [Hout _]].
  exists out. split; [exact Hout|].
  vm_compute in Hout. injection Hout as <-. reflexivity.
Defined.

Lemma kept_bit_monotone (mask : Image Z) (t1 t2 l : Z) (c : vec3 Z) :
  t1 <= t2 -> kept_bit mask t2 l c = 1 -> kept_bit mask t1 l c = 1.
Proof.
  intros Ht H. apply kept_bit_one in H. apply kept_bit_one.
  split; [tauto|lia].
Qed.

(** X10: raising the threshold of [remove_small_connected_component] only
    removes voxels.  For thresholds [0 <= t1 <= t2 < 2 ^ 64] and distinct
    labels which are values of the pixel type of the mask (all but the
    first fitting [sitkUInt8]), every voxel of the output for [t2] is
    either 0 or equal to the voxel of the output for [t1]. *)
Theorem remove_small_is_monotone_in_threshold
    (mask : Image Z) (l0 : Z) (rest : list Z) (t1 t2 : Z) :
  0 <= t1 -> t1 <= t2 -> t2 < 2 ^ 64 -> NoDup (l0 :: rest) ->
  pixel_value mask l0 -> (forall l, In l rest -> representable mask l) ->
  exists out1 out2,
    remove_small_connected_component mask (l0 :: rest) t1 = Ok out1 /\
    remove_small_connected_component mask (l0 :: rest) t2 = Ok out2 /\
    forall c, GetPixel out2 c = Some 0 \/ GetPixel out2 c = GetPixel out1 c.
Proof.
  intros H1 H12 H2 Hnd Hpv0 Hrep.
  destruct (remove_small_pixel mask l0 rest t1 ltac:(lia) Hnd Hpv0 Hrep)
    as [out1 [Hout1 [_ [Hdom1 Hpix1]]]].
  destruct (remove_small_pixel mask l0 rest t2 ltac:(lia) Hnd Hpv0 Hrep)
    as [out2 [Hout2 [_ [Hdom2 Hpix2]]]].
  exists out1, out2. split; [exact Hout1|]. split; [exact Hout2|].
  intros c. destruct (GetPixel mask c) as [p|] eqn:Hp.
  - destruct (Hpix1 c p Hp) as [A1 [A2 A3]].
    destruct (Hpix2 c p Hp) as [B1 [B2 B3]].
    destruct (In_dec Z.eq_dec p rest) as [Hin|Hnin].
    + rewrite (A1 Hin), (B1 Hin).
      destruct (kept_bit_bit mask t2 p c) as [E|E].
      * left. rewrite E, Z.mul_0_r. now rewrite cast_pixel_bit by now left.
      * right. now rewrite E, (kept_bit_monotone mask t1 t2 p c H12 E).
    + destruct (Z.eq_dec p l0) as [->|Hne].
      * rewrite (A2 eq_refl), (B2 eq_refl).
        destruct (kept_bit_bit mask t2 l0 c) as [E|E].
        -- left. rewrite E. now rewrite cast_pixel_bit by now left.
        -- right. now rewrite E, (kept_bit_monotone mask t1 t2 l0 c H12 E).
      * assert (Hout : ~ In p (l0 :: rest))
          by (intros [H|H]; [congruence|contradiction]).
        left. now apply B3.
  - right. now rewrite (Hdom1 c Hp), (Hdom2 c Hp).
Qed.

Lemma remove_small_is_monotone_in_threshold_witness :
  (3 < 2 ^ 64 /\ NoDup [1; 2] /\ pixel_value multi_label_mask 1 /\
   forall l, In l [2] -> representable multi_label_mask l) /\
  exists out1 out2,
    remove_small_connected_component multi_label_mask [1; 2] 2 = Ok out1 /\
    remove_small_connected_component multi_label_mask [1; 2] 3 = Ok out2 /\
    forall c, GetPixel out2 c = Some 0 \/ GetPixel out2 c = GetPixel out1 c.
Proof.
  assert (Hnd : NoDup [1; 2]).
  { repeat constructor; simpl; intuition lia. }
  assert (Ht : 3 < 2 ^ 64) by reflexivity.
  assert (Hrep : forall l, In l [2] -> representable multi_label_mask l).
  { intros l [<-|[]]; split; try reflexivity; lia. }
  split; [split; [exact Ht|split; [exact Hnd|split;
    [reflexivity|exact Hrep]]]|].
  apply (remove_small_is_monotone_in_threshold multi_label_mask 1 [2] 2 3);
    try lia; try assumption. reflexivity.
Defined.

(** X11: both filters write the value 1, not [labels[0]], for the first
    listed label: [largest_cc_multi] starts as the unscaled mask
    [largest_cc_binaries[0]].  For distinct labels which are values of the
    pixel type of the mask (all but the first fitting [sitkUInt8]), every
    voxel of the first label comes out 1 or 0; with
    [pick_largest_connected_component] some voxel of it comes out 1 when the
    label occurs, and with [remove_small_connected_component] at
    [threshold = 0] all of them do.  The first label is thus changed unless
    it is 1. *)
Theorem first_listed_label_is_written_as_one
    (mask : Image Z) (l0 : Z) (rest : list Z) :
  NoDup (l0 :: rest) -> pixel_value mask l0 ->
  (forall l, In l rest -> representable mask l) ->
  exists picked kept,
    pick_largest_connected_component mask (l0 :: rest) = Ok picked /\
    remove_small_connected_component mask (l0 :: rest) 0 = Ok kept /\
    (forall c, GetPixel mask c = Some l0 ->
       (GetPixel picked c = Some 1 \/ GetPixel picked c = Some 0) /\
       GetPixel kept c = Some 1) /\
    ((exists c, GetPixel mask c = Some l0) ->
     exists c, GetPixel mask c = Some l0 /\ GetPixel picked c = Some 1).
Proof.
  intros Hnd Hpv0 Hrep.
  destruct (pick_largest_pixel mask l0 rest Hnd Hpv0 Hrep)
    as [picked [Hpicked [_ [_ Hpix]]]].
  destruct (remove_small_pixel mask l0 rest 0 ltac:(lia) Hnd Hpv0 Hrep)
    as [kept [Hkept [_ [_ Hkpix]]]].
  exists picked, kept. split; [exact Hpicked|]. split; [exact Hkept|].
  split.
  - intros c Hc.
    destruct (Hpix c l0 Hc) as [_ [H2 _]].
    destruct (Hkpix c l0 Hc) as [_ [K2 _]].
    rewrite (H2 eq_refl), (K2 eq_refl). split.
    + destruct (largest_bit_bit mask l0 c) as [-> | ->];
        [right|left]; reflexivity || (now destruct (GetPixelID mask)).
    + rewrite (proj2 (kept_bit_zero mask l0 c) Hc).
      now rewrite cast_pixel_bit by now right.
  - intros [c Hc].
    assert (Hne : largest_component (itk_Equal mask l0) <> []).
    { apply largest_component_nonempty. exists c.
      now apply itk_Equal_foreground. }
    destruct (largest_component (itk_Equal mask l0)) as [|c' ks] eqn:E;
      [contradiction|].
    assert (Hin : In c' (largest_component (itk_Equal mask l0)))
      by (rewrite E; now left).
    assert (Hc' : GetPixel mask c' = Some l0).
    { apply itk_Equal_foreground.
      now apply largest_component_foreground. }
    exists c'. split; [exact Hc'|].
    destruct (Hpix c' l0 Hc') as [_ [H2 _]]. rewrite (H2 eq_refl).
    apply largest_bit_component in Hin. rewrite Hin.
    now rewrite cast_pixel_bit by now right.
Qed.

Lemma first_listed_label_is_written_as_one_witness :
  (NoDup [2; 3] /\ pixel_value multi_label_mask 2 /\
   forall l, In l [3] -> representable multi_label_mask l) /\
  exists picked,
    pick_largest_connected_component multi_label_mask [2; 3] = Ok picked /\
    pixels picked = [[[0; 0; 0; 0; 1; 1];
                      [0; 0; 0; 0; 0; 1];
                      [3; 0; 0; 0; 0; 1]]].
Proof.
  assert (Hnd : NoDup [2; 3]).
  { repeat constructor; simpl; intuition lia. }
  assert (Hrep : forall l, In l [3] -> representable multi_label_mask l).
  { intros l [<-|[]]; split; try reflexivity; lia. }
  split; [split; [exact Hnd|split; [reflexivity|exact Hrep]]|].
  destruct (first_listed_label_is_written_as_one multi_label_mask 2 [3] Hnd
              eq_refl Hrep)
    as [picked [kept [Hp _]]].
  exists picked. split; [exact Hp|].
  vm_compute in Hp. injection Hp as <-. reflexivity.
Defined.

Lemma propagate_rectangular (fuel : nat) :
  forall L, rectangular L -> rectangular (propagate fuel L).
Proof.
  induction fuel as [|fuel IH]; intros L HL; simpl; [assumption|].
  destruct (vol_eq_dec (propagate_step L) L); [assumption|].
  apply IH. now apply rectangular_imap.
Qed.

Lemma ConnectedComponent_rectangular (B : Image Z) :
  rectangular (pixels B) -> rectangular (pixels (ConnectedComponent B)).
Proof.
  intros H. unfold ConnectedComponent, pixelwise. cbn [pixels].
  apply rectangular_imap. unfold component_labels.
  apply propagate_rectangular. now apply rectangular_imap.
Qed.

Lemma largest_cc_binary_rectangular (mask : Image Z) (l : Z) :
  rectangular (pixels mask) -> rectangular (pixels (largest_cc_binary mask l)).
Proof.
  intros H. unfold largest_cc_binary, itk_Equal at 1, sitk_RelabelComponent.
  unfold pixelwise at 1 2. cbn [pixels].
  apply rectangular_imap, rectangular_imap.
  apply ConnectedComponent_rectangular. now apply itk_Equal_rectangular.
Qed.

Lemma recombine_fold_rectangular (lbs : list (Z * Image Z)) :
  forall first : Image Z,
    rectangular (pixels first) ->
    rectangular
      (pixels (fold_left (fun multi lb =>
                            sitk_Add multi
                                     (sitk_MultiplyConstant (fst lb) (snd lb)))
                         lbs first)).
Proof.
  induction lbs as [|lb lbs IH]; intros first H; simpl; [assumption|].
  apply IH. unfold sitk_Add. cbn [pixels]. now apply rectangular_imap.
Qed.

Lemma pick_largest_rectangular (mask out : Image Z) (l0 : Z) (rest : list Z) :
  (forall l, In l (l0 :: rest) -> pixel_value mask l) ->
  rectangular (pixels mask) ->
  pick_largest_connected_component mask (l0 :: rest) = Ok out ->
  rectangular (pixels out).
Proof.
  intros Hpv Hr. rewrite pick_largest_connected_component_eq by assumption.
  intros H. injection H as <-. unfold sitk_Cast, pixelwise. cbn [pixels].
  apply rectangular_imap, recombine_fold_rectangular.
  now apply largest_cc_binary_rectangular.
Qed.

Lemma pick_largest_frame (mask out : Image Z) (l0 : Z) (rest : list Z) :
  (forall l, In l (l0 :: rest) -> pixel_value mask l) ->
  pick_largest_connected_component mask (l0 :: rest) = Ok out ->
  GetSpacing out = GetSpacing mask /\ GetOrigin out = GetOrigin mask /\
  GetDirection out = GetDirection mask /\ GetPixelID out = GetPixelID mask.
Proof.
  intros Hpv. rewrite pick_largest_connected_component_eq by assumption.
  intros H. injection H as <-.
  apply (recombined_frame (largest_cc_binary mask) mask l0 rest
           (GetPixelID mask) eq_refl eq_refl eq_refl).
Qed.

(** A chain of connected voxels of one image is a chain of another image in
    which all the voxels reached from its start are foreground. *)
Lemma connected26_transfer (b b' : volume Z) (u v : vec3 Z) :
  connected26 b u v ->
  (forall w, connected26 b u w -> foreground b' w) ->
  connected26 b' u v.
Proof.
  intros Huv Hfg. induction Huv as [u Hu|u v w Huv IH Hw Ha].
  - constructor. apply Hfg. now constructor.
  - apply connected26_step with v.
    + apply IH. exact Hfg.
    + apply Hfg. eapply connected26_step; eassumption.
    + assumption.
Qed.

Lemma pick_largest_value (mask out : Image Z) (rest : list Z) :
  NoDup (1 :: rest) -> (forall l, In l rest -> representable mask l) ->
  pick_largest_connected_component mask (1 :: rest) = Ok out ->
  forall c p, GetPixel mask c = Some p ->
    (In p (1 :: rest) -> GetPixel out c = Some (p * largest_bit mask p c)) /\
    (~ In p (1 :: rest) -> GetPixel out c = Some 0).
Proof.
  intros Hnd Hrep Hout c p Hp.
  destruct (pick_largest_pixel mask 1 rest Hnd (pixel_value_one mask) Hrep)
    as [out' [Hout' [_ [_ Hpix]]]].
  rewrite Hout in Hout'. injection Hout' as <-.
  destruct (Hpix c p Hp) as [H1 [H2 H3]].
  split; [|exact H3].
  intros [<-|Hin].
  - rewrite (H2 eq_refl), Z.mul_1_l. f_equal. apply cast_pixel_bit.
    destruct (largest_bit_bit mask 1 c); auto.
  - rewrite (H1 Hin). f_equal.
    destruct (largest_bit_bit mask p c) as [-> | ->].
    + rewrite Z.mul_0_r. now apply cast_pixel_bit; left.
    + rewrite Z.mul_1_r. apply (proj2 (Hrep p Hin)).
Qed.

Lemma pick_largest_outside (mask out : Image Z) (l0 : Z) (rest : list Z)
    (c : vec3 Z) :
  (forall l, In l (l0 :: rest) -> pixel_value mask l) ->
  pick_largest_connected_component mask (l0 :: rest) = Ok out ->
  GetPixel mask c = None -> GetPixel out c = None.
Proof.
  intros Hpv. rewrite pick_largest_connected_component_eq by assumption.
  intros H. injection H as <-.
  apply (recombined_outside mask (largest_cc_binary mask) (largest_bit mask)
           (fun _ => eq_refl) (largest_cc_binary_get mask)).
Qed.

(** The voxels which keep the label [q] are those of its largest
    component. *)
Lemma pick_largest_kept_voxels (mask out : Image Z) (rest : list Z)
    (q : Z) (w : vec3 Z) :
  NoDup (1 :: rest) -> (forall l, In l rest -> representable mask l) ->
  pick_largest_connected_component mask (1 :: rest) = Ok out ->
  In q (1 :: rest) -> q <> 0 ->
  (GetPixel out w = Some q
   <-> In w (largest_component (itk_Equal mask q))).
Proof.
  intros Hnd Hrep Hout Hq Hq0. split.
  - intros Hw. destruct (GetPixel mask w) as [p|] eqn:Hp.
    + destruct (pick_largest_value mask out rest Hnd Hrep Hout w p Hp)
        as [V1 V2].
      destruct (In_dec Z.eq_dec p (1 :: rest)) as [Hin|Hnin].
      * rewrite (V1 Hin) in Hw.
        destruct (largest_bit_bit mask p w) as [E|E]; rewrite E in Hw;
          [rewrite Z.mul_0_r in Hw; congruence|].
        rewrite Z.mul_1_r in Hw. assert (p = q) by congruence. subst p.
        now apply largest_bit_component.
      * rewrite (V2 Hnin) in Hw. congruence.
    + rewrite (pick_largest_outside mask out 1 rest w
                 (pixel_value_labels mask 1 rest (pixel_value_one mask) Hrep)
                 Hout Hp) in Hw.
      discriminate.
  - intros Hw.
    assert (Hp : GetPixel mask w = Some q).
    { apply itk_Equal_foreground. now apply largest_component_foreground. }
    destruct (pick_largest_value mask out rest Hnd Hrep Hout w q Hp)
      as [V1 _].
    rewrite (V1 Hq). apply largest_bit_component in Hw. rewrite Hw.
    f_equal. lia.
Qed.

(** X12: [pick_largest_connected_component] is idempotent.  For a
    rectangular mask and distinct labels of which the first is 1 and the
    others fit [sitkUInt8] and the pixel type of the mask, filtering the
    output once more with the same labels returns the same volume voxel for
    voxel, with the same frame and pixel type. *)
Theorem pick_largest_is_idempotent (mask : Image Z) (rest : list Z) :
  rectangular (pixels mask) -> NoDup (1 :: rest) ->
  (forall l, In l rest -> representable mask l) ->
  exists out out2,
    pick_largest_connected_component mask (1 :: rest) = Ok out /\
    pick_largest_connected_component out (1 :: rest) = Ok out2 /\
    (forall c, GetPixel out2 c = GetPixel out c) /\
    GetSpacing out2 = GetSpacing out /\ GetOrigin out2 = GetOrigin out /\
    GetDirection out2 = GetDirection out /\
    GetPixelID out2 = GetPixelID out.
Proof.
  intros Hr Hnd Hrep.
  destruct (pick_largest_pixel mask 1 rest Hnd (pixel_value_one mask) Hrep)
    as [out [Hout [Hid _]]].
  assert (Hrep' : forall l, In l rest -> representable out l).
  { intros l Hl. unfold representable. rewrite Hid. now apply Hrep. }
  destruct (pick_largest_pixel out 1 rest Hnd (pixel_value_one out) Hrep')
    as [out2 [Hout2 _]].
  pose proof (pixel_value_labels mask 1 rest (pixel_value_one mask) Hrep)
    as Hpv.
  pose proof (pixel_value_labels out 1 rest (pixel_value_one out) Hrep')
    as Hpv'.
  pose proof (pick_largest_rectangular mask out 1 rest Hpv Hr Hout) as Hr'.
  exists out, out2. split; [exact Hout|]. split; [exact Hout2|].
  split; [|exact (pick_largest_frame out out2 1 rest Hpv' Hout2)].
  intros c. destruct (GetPixel out c) as [q|] eqn:Hq.
  2:{ exact (pick_largest_outside out out2 1 rest c Hpv' Hout2 Hq). }
  destruct (pick_largest_value out out2 rest Hnd Hrep' Hout2 c q Hq)
    as [W1 W2].
  destruct (In_dec Z.eq_dec q (1 :: rest)) as [Hin|Hnin].
  2:{ rewrite (W2 Hnin).
      (* an unlisted value of the output can only be 0 *)
      destruct (GetPixel mask c) as [p|] eqn:Hp.
      - destruct (pick_largest_value mask out rest Hnd Hrep Hout c p Hp)
          as [V1 V2].
        destruct (In_dec Z.eq_dec p (1 :: rest)) as [Hp1|Hp1].
        + rewrite (V1 Hp1) in Hq.
          destruct (largest_bit_bit mask p c) as [E|E]; rewrite E in Hq.
          * rewrite Z.mul_0_r in Hq. congruence.
          * rewrite Z.mul_1_r in Hq. congruence.
        + rewrite (V2 Hp1) in Hq. congruence.
      - rewrite (pick_largest_outside mask out 1 rest c Hpv Hout Hp) in Hq.
        discriminate. }
  rewrite (W1 Hin).
  destruct (Z.eq_dec q 0) as [->|Hq0]; [reflexivity|].
  assert (Hc : In c (largest_component (itk_Equal mask q)))
    by (apply (pick_largest_kept_voxels mask out rest q c); assumption).
  assert (Hbit : largest_bit out q c = 1).
  { apply largest_bit_component.
    assert (Hne : largest_component (itk_Equal out q) <> []).
    { apply largest_component_nonempty. exists c.
      now apply itk_Equal_foreground. }
    destruct (largest_component (itk_Equal out q)) as [|u ks] eqn:E;
      [contradiction|]. rewrite <- E.
    assert (Hu : In u (largest_component (itk_Equal out q)))
      by (rewrite E; now left).
    apply (largest_component_closed (itk_Equal out q)
             (itk_Equal_rectangular out q Hr') u c Hu).
    assert (Hu' : In u (largest_component (itk_Equal mask q))).
    { apply (pick_largest_kept_voxels mask out rest q u); try assumption.
      apply itk_Equal_foreground.
      now apply largest_component_foreground. }
    apply connected26_transfer with (pixels (itk_Equal mask q)).
    - apply largest_component_connected;
        [now apply itk_Equal_rectangular|assumption|assumption].
    - intros w Hw. apply itk_Equal_foreground.
      apply (pick_largest_kept_voxels mask out rest q w); try assumption.
      eapply largest_component_closed;
        [now apply itk_Equal_rectangular|exact Hu'|exact Hw]. }
  rewrite Hbit. f_equal. lia.
Qed.

Lemma pick_largest_is_idempotent_witness :
  (rectangular (pixels multi_label_mask) /\ NoDup [1; 2]) /\
  exists out out2,
    pick_largest_connected_component multi_label_mask [1; 2] = Ok out /\
    pick_largest_connected_component out [1; 2] = Ok out2 /\
    forall c, GetPixel out2 c = GetPixel out c.
Proof.
  assert (Hr : rectangular (pixels multi_label_mask)).
  { apply rectangularb_spec. reflexivity. }
  assert (Hnd : NoDup [1; 2]).
  { repeat constructor; simpl; intuition lia. }
  split; [split; assumption|].
  destruct (pick_largest_is_idempotent multi_label_mask [2] Hr Hnd)
    as [out [out2 [H1 [H2 [H3 _]]]]].
  { intros l [<-|[]]; split; try reflexivity; lia. }
  exists out, out2. auto.
Defined.

(** * Further properties of resampling *)

Lemma py_int_floor (q : Q) : (0 <= q)%Q -> py_int q = Qfloor q.
Proof.
  destruct q as [n d]. unfold Qle, py_int, Qfloor. simpl.
  intros H. apply Z.quot_div_nonneg; lia.
Qed.

Lemma py_int_half_integer (n : Z) (q : Q) :
  0 <= n -> (q == inject_Z n)%Q -> py_int (q + (1 # 2)) = n.
Proof.
  intros Hn Hq.
  assert (H0 : (0 <= q + (1 # 2))%Q).
  { rewrite Hq. apply Qle_trans with (0 + 0)%Q; [discriminate|].
    apply Qplus_le_compat; [|discriminate].
    change 0%Q with (inject_Z 0). now rewrite <- Zle_Qle. }
  rewrite (py_int_floor _ H0), Hq.
  unfold Qfloor, inject_Z, Qplus. simpl.
  replace (n * 2 + 1) with (1 + n * 2) by lia.
  rewrite Z.div_add by lia. reflexivity.
Qed.

Lemma positive_Q_nonzero (t : Q) : (0 < t)%Q -> ~ (t == 0)%Q.
Proof. intros H E. rewrite E in H. discriminate. Qed.



(** * Further properties of the random voxel selection *)

Lemma v3rev_involutive {A} (c : vec3 A) : v3rev (v3rev c) = c.
Proof. now destruct c as [[x y] z]. Qed.

Lemma in_np_argwhere_eq (a : volume Z) (l : Z) (c : vec3 Z) :
  In c (np_argwhere_eq a l) <-> In (v3rev c) (voxels_of a l).
Proof.
  unfold np_argwhere_eq. rewrite in_map_iff. split.
  - intros [u [<- Hu]]. now rewrite v3rev_involutive.
  - intros H. exists (v3rev c). split; [apply v3rev_involutive|exact H].
Qed.

Lemma np_getitem_in_range {A} (a : list A) (i : Z) :
  0 <= i < Z.of_nat (length a) -> exists v, np_getitem a i = Ok v /\ In v a.
Proof.
  intros Hi. unfold np_getitem.
  destruct (i <? 0) eqn:E; [apply Z.ltb_lt in E; lia|].
  destruct (nth_Z_Some a i Hi) as [v [Hv Hin]].
  exists v. now rewrite Hv.
Qed.

Section RandomSelectionProperties.

Variable G : Type.
Variable randint : G -> Z -> Z -> Z * G.
Hypothesis randint_range :
  forall g low high, low < high -> low <= fst (randint g low high) < high.

Lemma select_loop_runs (valid_voxels : list (vec3 Z)) (num_selected : Z) :
  valid_voxels <> [] ->
  forall fuel selected_voxels g,
    (Z.to_nat (num_selected - Z.of_nat (length selected_voxels)) < fuel)%nat ->
    exists more g',
      select_loop randint fuel valid_voxels num_selected selected_voxels g
      = Some (Ok (selected_voxels ++ more, g')) /\
      length more
      = Z.to_nat (num_selected - Z.of_nat (length selected_voxels)) /\
      forall c, In c more -> In (v3rev c) valid_voxels.
Proof.
  intros Hne.
  assert (Hlen : 0 < Z.of_nat (length valid_voxels))
    by (destruct valid_voxels; [congruence|cbn [length]; lia]).
  induction fuel as [|fuel IH]; intros sel g Hfuel; [lia|].
  cbn [select_loop].
  destruct (0 <? Z.of_nat (length valid_voxels)) eqn:E0;
    [|apply Z.ltb_ge in E0; lia].
  cbn [andb].
  destruct (Z.of_nat (length sel) <? num_selected) eqn:E1.
  - apply Z.ltb_lt in E1. unfold np_random_randint. rewrite E0.
    pose proof (randint_range g 0 _ Hlen) as Hr.
    destruct (randint g 0 (Z.of_nat (length valid_voxels))) as [i g1].
    cbn [fst] in Hr.
    destruct (np_getitem_in_range valid_voxels i Hr) as [v [Hv Hin]].
    rewrite Hv.
    destruct (IH (sel ++ [v3rev v]) g1) as [more [g' [Hrun [Hcount Hall]]]].
    { rewrite length_app. cbn [length]. lia. }
    exists (v3rev v :: more), g'. split; [|split].
    + rewrite Hrun. now rewrite <- app_assoc.
    + cbn [length]. rewrite Hcount, length_app. cbn [length]. lia.
    + intros c [<- | Hc]; [now rewrite v3rev_involutive|now apply Hall].
  - apply Z.ltb_ge in E1. exists [], g. split; [|split].
    + now rewrite app_nil_r.
    + cbn [length]. lia.
    + intros c [].
Qed.

Lemma select_random_voxels_runs (mask : Image Z)
    (num_selected selected_label : Z) (g : G) :
  voxels_of (pixels mask) selected_label <> [] ->
  exists selected_voxels g',
    select_random_voxels_in_multi_class_mask randint mask num_selected
      selected_label g = Some (Ok (selected_voxels, g')) /\
    length selected_voxels = Z.to_nat num_selected /\
    forall c, In c selected_voxels ->
      In c (voxels_of (pixels mask) selected_label).
Proof.
  intros Hne. unfold select_random_voxels_in_multi_class_mask. cbv zeta.
  destruct (select_loop_runs
              (np_argwhere_eq (GetArrayFromImage mask) selected_label)
              num_selected) with (fuel := S (Z.to_nat num_selected))
              (selected_voxels := @nil (vec3 Z)) (g := g)
    as [more [g' [Hrun [Hcount Hall]]]].
  - unfold np_argwhere_eq, GetArrayFromImage.
    destruct (voxels_of (pixels mask) selected_label); [congruence|].
    discriminate.
  - cbn [length]. lia.
  - exists more, g'. split; [exact Hrun|]. split.
    + rewrite Hcount. cbn [length]. f_equal. lia.
    + intros c Hc. apply Hall in Hc. apply in_np_argwhere_eq in Hc.
      now rewrite v3rev_involutive in Hc.
Qed.

End RandomSelectionProperties.

(** X16: with a generator whose draws lie in the range asked for,
    [select_random_voxels_in_multi_class_mask] always returns.  When no
    voxel of the mask carries [selected_label] the result is empty and no
    number is drawn; otherwise the result has exactly [num_selected] voxels
    (none for a negative count), and every one of them, read as an
    [(x, y, z)] index, is a voxel of the mask carrying [selected_label]. *)
Theorem select_random_voxels_count_and_label
    (G : Type) (randint : G -> Z -> Z -> Z * G)
    (randint_range :
       forall g low high, low < high -> low <= fst (randint g low high) < high)
    (mask : Image Z) (num_selected selected_label : Z) (g : G) :
  exists selected_voxels g',
    select_random_voxels_in_multi_class_mask randint mask num_selected
      selected_label g = Some (Ok (selected_voxels, g')) /\
    ((forall c, GetPixel mask c <> Some selected_label) ->
     selected_voxels = [] /\ g' = g) /\
    ((exists c, GetPixel mask c = Some selected_label) ->
     length selected_voxels = Z.to_nat num_selected) /\
    forall c, In c selected_voxels -> GetPixel mask c = Some selected_label.
Proof.
  destruct (voxels_of (pixels mask) selected_label) as [|c0 rest] eqn:Ev.
  - exists [], g. split; [|split; [|split]].
    + unfold select_random_voxels_in_multi_class_mask, np_argwhere_eq,
        GetArrayFromImage. cbv zeta. rewrite Ev. reflexivity.
    + intros _. now split.
    + intros [c Hc]. apply in_voxels_of in Hc. rewrite Ev in Hc.
      destruct Hc.
    + intros c [].
  - destruct (select_random_voxels_runs G randint randint_range mask
                num_selected selected_label g)
      as [sel [g' [Hrun [Hcount Hall]]]]; [rewrite Ev; discriminate|].
    exists sel, g'. split; [exact Hrun|]. split; [|split].
    + intros Hnone. exfalso. apply (Hnone c0). apply in_voxels_of.
      rewrite Ev. now left.
    + intros _. exact Hcount.
    + intros c Hc. apply in_voxels_of. now apply Hall.
Qed.

(** X17: the selection draws with replacement.  When at least one voxel
    carries [selected_label] and more voxels are requested than carry it,
    the call still returns [num_selected] voxels, so some voxel is returned
    more than once. *)
Theorem select_random_voxels_repeats_when_short
    (G : Type) (randint : G -> Z -> Z -> Z * G)
    (randint_range :
       forall g low high, low < high -> low <= fst (randint g low high) < high)
    (mask : Image Z) (num_selected selected_label : Z) (g : G) :
  (exists c, GetPixel mask c = Some selected_label) ->
  Z.of_nat (length (voxels_of (pixels mask) selected_label)) < num_selected ->
  exists selected_voxels g',
    select_random_voxels_in_multi_class_mask randint mask num_selected
      selected_label g = Some (Ok (selected_voxels, g')) /\
    length selected_voxels = Z.to_nat num_selected /\
    ~ NoDup selected_voxels.
Proof.
  intros [c0 Hc0] Hshort. apply in_voxels_of in Hc0.
  destruct (select_random_voxels_runs G randint randint_range mask
              num_selected selected_label g)
    as [sel [g' [Hrun [Hcount Hall]]]].
  { intros E. rewrite E in Hc0. destruct Hc0. }
  exists sel, g'. split; [exact Hrun|]. split; [exact Hcount|].
  intros Hnd.
  pose proof (NoDup_incl_length Hnd Hall) as Hle. lia.
Qed.

Lemma counting_randint_range (g low high : Z) :
  low < high -> low <= fst (counting_randint g low high) < high.
Proof.
  intros H. cbn [counting_randint fst].
  pose proof (Z.mod_pos_bound g (high - low)). lia.
Qed.

Lemma select_random_voxels_count_and_label_witness :
  (forall g low high,
      low < high -> low <= fst (counting_randint g low high) < high) /\
  exists selected_voxels g',
    select_random_voxels_in_multi_class_mask counting_randint
      multi_label_mask 3 2 0 = Some (Ok (selected_voxels, g')) /\
    forall c, In c selected_voxels -> GetPixel multi_label_mask c = Some 2.
Proof.
  split; [exact counting_randint_range|].
  destruct (select_random_voxels_count_and_label Z counting_randint
              counting_randint_range multi_label_mask 3 2 0)
    as [sel [g' [Hrun [_ [_ Hall]]]]].
  exists sel, g'. split; [exact Hrun|exact Hall].
Defined.

Lemma select_random_voxels_repeats_when_short_witness :
  ((forall g low high,
       low < high -> low <= fst (counting_randint g low high) < high) /\
   (exists c, GetPixel multi_label_mask c = Some 3) /\
   Z.of_nat (length (voxels_of (pixels multi_label_mask) 3)) < 2) /\
  exists selected_voxels g',
    select_random_voxels_in_multi_class_mask counting_randint
      multi_label_mask 2 3 0 = Some (Ok (selected_voxels, g')) /\
    length selected_voxels = 2%nat /\ ~ NoDup selected_voxels.
Proof.
  assert (H1 : exists c, GetPixel multi_label_mask c = Some 3)
    by (exists (0, 2, 0); reflexivity).
  assert (H2 : Z.of_nat (length (voxels_of (pixels multi_label_mask) 3)) < 2)
    by (vm_compute; reflexivity).
  split; [split; [exact counting_randint_range|split; [exact H1|exact H2]]|].
  exact (select_random_voxels_repeats_when_short Z counting_randint
           counting_randint_range multi_label_mask 2 3 0 H1 H2).
Defined.
